(** * Question-paper analyser: extraction, aggregation and orchestration

    A shallow embedding of the pipeline of the repository:
    - [services/geminiService]: [compressImage], [fileToGenerativePart],
      [extractQuestionsFromFile], [analyzeRepeatedQuestions];
    - [App]: [processFiles] with its [updateProgress] helper.

    Conventions of the embedding.
    - JavaScript strings are sequences of code units; the development
      covers the code units U+0000..U+00FF, carried by [ascii]. The
      module [Wide] has the built-ins of the aggregator and the
      aggregator on an alphabet with the Greek letters as well.
    - JavaScript numbers that the pipeline computes with (image sizes,
      the progress percentage) are doubles: rationals, with every
      division and multiplication followed by the rounding [rnd] of the
      engine, of which the laws of round-to-nearest are assumed
      ([Doubles]). A number inside a backend response is the rational
      it denotes.
    - A promise is represented by the way it settles.
    - The browser and the two backends are records of functions. *)

From Stdlib Require Import Bool Arith ZArith QArith Qround Qminmax Qabs Lia Lqa List.
From Stdlib Require Import Ascii String DecimalString Permutation Sorted.
Import ListNotations.

Set Warnings "-register-all".

Local Open Scope string_scope.
Local Open Scope list_scope.
Local Open Scope nat_scope.

(* ================================================================== *)
(** ** The JavaScript values and built-ins the code relies on *)
(* ================================================================== *)

Module JS.

(** What [JSON.parse] can return, plus [undefined] (a missing
    property). Arrays and objects are fresh references. *)
Inductive jsval : Type :=
| JUndefined
| JNull
| JBool (b : bool)
| JNum (n : Q)
| JStr (s : string)
| JArr (items : list jsval)
| JObj (props : list (string * jsval)).

(** [ToBoolean]. *)
Definition truthy (v : jsval) : bool :=
  match v with
  | JUndefined | JNull => false
  | JBool b => b
  | JNum n => negb (Qeq_bool n 0)
  | JStr s => negb (s =? "")%string
  | JArr _ | JObj _ => true
  end.

(** [a || b]. *)
Definition js_or (a b : jsval) : jsval := if truthy a then a else b.

(** [typeof v === 'string']. *)
Definition is_string (v : jsval) : bool :=
  match v with JStr _ => true | _ => false end.

Fixpoint assoc (k : string) (ps : list (string * jsval)) : option jsval :=
  match ps with
  | [] => None
  | (k', v) :: ps' => if (k' =? k)%string then Some v else assoc k ps'
  end.

(** [v.p] for a property name [p] that no prototype defines (the code
    reads [questions] and [year]). [None] is the [TypeError] of reading
    a property of [null] or [undefined]. *)
Definition get_prop (v : jsval) (p : string) : option jsval :=
  match v with
  | JUndefined | JNull => None
  | JObj ps => Some (match assoc p ps with Some x => x | None => JUndefined end)
  | _ => Some JUndefined
  end.

Fixpoint chars (s : string) : list jsval :=
  match s with
  | EmptyString => []
  | String c t => JStr (String c EmptyString) :: chars t
  end.

(** The iteration protocol as [new Set(x)] uses it: arrays yield their
    elements, strings their characters; [None] is the [TypeError] of a
    value that is not iterable. *)
Definition iterate (v : jsval) : option (list jsval) :=
  match v with
  | JArr l => Some l
  | JStr s => Some (chars s)
  | _ => None
  end.

(** [SameValueZero], the equality of [Set] and [Map] keys. Two array or
    object references obtained from one parse are never the same. *)
Definition sameValueZero (a b : jsval) : bool :=
  match a, b with
  | JUndefined, JUndefined => true
  | JNull, JNull => true
  | JBool x, JBool y => Bool.eqb x y
  | JNum x, JNum y => Qeq_bool x y
  | JStr x, JStr y => (x =? y)%string
  | _, _ => false
  end.

(** [set.add(v)] on the insertion-ordered content of a [Set]. *)
Definition set_add (seen : list jsval) (v : jsval) : list jsval :=
  if existsb (sameValueZero v) seen then seen else seen ++ [v].

(** [Array.from(new Set(l))]. *)
Definition array_from_set (l : list jsval) : list jsval :=
  fold_left set_add l [].

(** *** Strings *)

(** [WhiteSpace] and [LineTerminator] code units below U+0100: TAB, LF,
    VT, FF, CR, SPACE and NO-BREAK SPACE. It is the set of both
    [String.prototype.trim] and the regular expression class [\s]. *)
Definition is_ws (c : ascii) : bool :=
  let n := nat_of_ascii c in
  ((9 <=? n) && (n <=? 13)) || (n =? 32) || (n =? 160).

(** The lower-case mapping of one code unit below U+0100: A-Z and the
    Latin-1 capitals U+00C0..U+00DE (but not the sign U+00D7). *)
Definition lower_char (c : ascii) : ascii :=
  let n := nat_of_ascii c in
  if ((65 <=? n) && (n <=? 90))
     || ((192 <=? n) && (n <=? 222) && negb (n =? 215))
  then ascii_of_nat (n + 32) else c.

(** [s.toLowerCase()] on code units below U+0100, where the mapping of
    a unit does not depend on its context. *)
Fixpoint toLowerCase (s : string) : string :=
  match s with
  | EmptyString => EmptyString
  | String c t => String (lower_char c) (toLowerCase t)
  end.

(** [s.trimStart()]. *)
Fixpoint trimStart (s : string) : string :=
  match s with
  | EmptyString => EmptyString
  | String c t => if is_ws c then trimStart t else s
  end.

(** [s.trimEnd()]. *)
Fixpoint trimEnd (s : string) : string :=
  match s with
  | EmptyString => EmptyString
  | String c t =>
      match trimEnd t with
      | EmptyString => if is_ws c then EmptyString else String c EmptyString
      | t' => String c t'
      end
  end.

(** [s.trim()]. *)
Definition trim (s : string) : string := trimEnd (trimStart s).

Definition starts_with_ws (s : string) : bool :=
  match s with
  | String c _ => is_ws c
  | EmptyString => false
  end.

(** [s.replace(/\s+/g, ' ')]: every maximal run of white space becomes
    one space (emitted when the run ends). *)
Fixpoint replace_ws_runs (s : string) : string :=
  match s with
  | EmptyString => EmptyString
  | String c t =>
      if is_ws c
      then if starts_with_ws t then replace_ws_runs t
           else String " " (replace_ws_runs t)
      else String c (replace_ws_runs t)
  end.

(** [s.split(sep)] for a one-character separator. *)
Fixpoint split (sep : ascii) (s : string) : list string :=
  match s with
  | EmptyString => [EmptyString]
  | String c t =>
      if Ascii.eqb c sep then EmptyString :: split sep t
      else match split sep t with
           | h :: r => String c h :: r
           | [] => [String c EmptyString]
           end
  end.

(** *** Numbers *)

(** The unit roundoff of binary64. *)
Definition unit_roundoff : Q := Eval cbv in (1 # 2 ^ 53)%Q.

(** The bounds of the range in which the relative error is used. *)
Definition range_min : Q := Eval cbv in (1 # 2 ^ 64)%Q.
Definition range_max : Q := Eval cbv in inject_Z (2 ^ 64).

(** The double arithmetic of the engine: [rnd x] is the double nearest
    to the real [x]. Rounding is monotone, leaves the integers up to
    2^53 alone, and in the range of the normal numbers (here: between
    2^-64 and 2^64) moves a value by at most the unit roundoff,
    relatively. *)
Record Doubles : Type := mkDoubles {
  rnd : Q -> Q;
  rnd_proper : forall x y, (x == y)%Q -> (rnd x == rnd y)%Q;
  rnd_mono : forall x y, (x <= y)%Q -> (rnd x <= rnd y)%Q;
  rnd_int : forall z : Z, (Z.abs z <= 2 ^ 53)%Z -> (rnd (inject_Z z) == inject_Z z)%Q;
  rnd_err : forall x, (range_min <= x)%Q -> (x <= range_max)%Q ->
            (x - x * unit_roundoff <= rnd x)%Q /\ (rnd x <= x + x * unit_roundoff)%Q
}.

(** [x / y] and [x * y] on doubles. *)
Definition js_div (fp : Doubles) (x y : Q) : Q := rnd fp (x / y)%Q.
Definition js_mul (fp : Doubles) (x y : Q) : Q := rnd fp (x * y)%Q.

(** [Math.round]: the nearest integer, halves going up. *)
Definition Math_round (x : Q) : Z := Qfloor (x + (1 # 2))%Q.

End JS.

Import JS.

(* ================================================================== *)
(** ** services/geminiService *)
(* ================================================================== *)

Module GeminiService.

(** How a promise settles. *)
Inductive settled (A : Type) : Type :=
| Resolved (value : A)
| Rejected (reason : string).
Arguments Resolved {A} value.
Arguments Rejected {A} reason.

(** A browser [File]: its name, its declared media type and its bytes
    (in the base64 alphabet, as a data URL carries them). *)
Record File : Type := mkFile {
  name : string;
  type : string;
  bytes : string
}.

(** The result of [FileReader.readAsDataURL]. *)
Definition dataURL (f : File) : string :=
  "data:" ++ type f ++ ";base64," ++ bytes f.

(** [url.split(',')[1]]; [None] is [undefined]. *)
Definition after_comma (url : string) : option string :=
  nth_error (split "," url) 1.

(** The part submitted to the extraction backend. *)
Record InlineData : Type := mkInlineData {
  data : option string;
  mimeType : string
}.

(** The browser, as far as the normalizer observes it. *)
Record Browser : Type := mkBrowser {
  (** the number arithmetic of the engine *)
  doubles : Doubles;
  (** [reader.onload] fires (rather than [reader.onerror]) *)
  reader_loads : File -> bool;
  (** [img.onload] with the natural size, or [img.onerror] *)
  decode : File -> option (Z * Z);
  (** [canvas.getContext('2d')] is not [null] *)
  context2d : File -> bool;
  (** the image encoder behind [canvas.toDataURL]: the picture drawn
      with the given size, the size of the canvas, the requested
      format and quality; [None] when encoding fails *)
  encode : File -> Q * Q -> Z * Z -> string -> Q -> option string
}.

(* Constants for Image Optimization *)
Definition MAX_IMAGE_DIMENSION : Q := 1536%Q.
Definition IMAGE_QUALITY : Q := (8 # 10)%Q.

Definition Qgtb (x y : Q) : bool := negb (Qle_bool x y).

(** Calculate new dimensions if resizing is needed. *)
Definition new_dimensions (fp : Doubles) (width height : Q) : Q * Q :=
  if Qgtb width MAX_IMAGE_DIMENSION || Qgtb height MAX_IMAGE_DIMENSION then
    if Qgtb width height
    then (MAX_IMAGE_DIMENSION,
          js_mul fp height (js_div fp MAX_IMAGE_DIMENSION width))
    else (js_mul fp width (js_div fp MAX_IMAGE_DIMENSION height),
          MAX_IMAGE_DIMENSION)
  else (width, height).

(** The conversion of the [unsigned long] attributes [canvas.width] and
    [canvas.height]. *)
Definition to_unsigned_long (x : Q) : Z := (Qfloor x mod 2 ^ 32)%Z.

(** [canvas.toDataURL(format, quality)]: the string ["data:,"] when the
    bitmap has no pixels or the encoder fails. *)
Definition toDataURL (b : Browser) (f : File) (drawn : Q * Q) (canvas : Z * Z)
    (format : string) (quality : Q) : string :=
  if ((fst canvas =? 0) || (snd canvas =? 0))%Z then "data:,"
  else match encode b f drawn canvas format quality with
       | Some body => "data:" ++ format ++ ";base64," ++ body
       | None => "data:,"
       end.

(** Compresses and resizes images client-side before sending to API. *)
Definition compressImage (b : Browser) (file : File) : settled (option string) :=
  if negb (reader_loads b file) then Rejected "reader.onerror"
  else
    match decode b file with
    | None => Rejected "img.onerror"
    | Some (w, h) =>
        let '(width, height) := new_dimensions (doubles b) (inject_Z w) (inject_Z h) in
        let canvas := (to_unsigned_long width, to_unsigned_long height) in
        if negb (context2d b file) then
          (* Fallback to original if canvas context fails *)
          Resolved (after_comma (dataURL file))
        else
          (* Draw and compress *)
          let dataUrl :=
            toDataURL b file (width, height) canvas "image/jpeg" IMAGE_QUALITY in
          Resolved (after_comma dataUrl)
    end.

(** Standard handling for PDFs and Text (or failed image compression). *)
Definition read_as_is (b : Browser) (file : File) : settled InlineData :=
  if reader_loads b file
  then Resolved {| data := after_comma (dataURL file); mimeType := type file |}
  else Rejected "reader.onerror".

(** Helper to convert file to base64. *)
Definition fileToGenerativePart (b : Browser) (file : File) : settled InlineData :=
  if prefix "image/" (type file) then
    match compressImage b file with
    | Resolved compressedBase64 =>
        Resolved {| data := compressedBase64; mimeType := "image/jpeg" |}
    | Rejected _ => read_as_is b file
    end
  else read_as_is b file.

(** *** Extraction *)

Record ExtractionResult : Type := mkExtraction {
  questions : list jsval;
  year : jsval;
  sourceFile : string
}.

(** The extraction backend: [ai.models.generateContent] settles with a
    response whose [text] may be missing, or rejects; [JSON.parse]
    returns a value or throws ([None]). *)
Record ExtractionBackend : Type := mkExtractionBackend {
  generateContent : File -> InlineData -> settled (option string);
  JSON_parse : string -> option jsval
}.

(** [!text] for the optional string [response.text]. *)
Definition no_text (text : option string) : bool :=
  match text with
  | None => true
  | Some t => negb (truthy (JStr t))
  end.

(** The body of the [try] block of [extractQuestionsFromFile]; [None]
    when it throws. *)
Definition parse_extraction (ai : ExtractionBackend) (file : File) (text : string)
    : option ExtractionResult :=
  match JSON_parse ai text with
  | None => None
  | Some result =>
      match get_prop result "questions" with
      | None => None
      | Some qs =>
          match iterate (js_or qs (JArr [])) with
          | None => None
          | Some items =>
              (* Enforce Rule 5: Remove duplicate copies locally from this file *)
              let uniqueQuestions := array_from_set items in
              match get_prop result "year" with
              | None => None
              | Some y =>
                  Some {| questions := uniqueQuestions;
                          year := js_or y (JStr "Unknown");
                          sourceFile := name file |}
              end
          end
      end
  end.

(** Step 1: Extract raw questions from a single file. *)
Definition extractQuestionsFromFile (b : Browser) (ai : ExtractionBackend)
    (file : File) : settled ExtractionResult :=
  match fileToGenerativePart b file with
  | Rejected e => Rejected e
  | Resolved filePart =>
      match generateContent ai file filePart with
      | Rejected e => Rejected e
      | Resolved text =>
          if no_text text then Rejected "No response from Gemini"
          else
            match parse_extraction ai file (match text with Some t => t | None => "" end) with
            | Some r => Resolved r
            | None =>
                Resolved {| questions := []; year := JStr "Unknown";
                            sourceFile := name file |}
            end
      end
  end.

(** *** Client-side aggregation *)

(** A value of [questionMap]. *)
Record Entry : Type := mkEntry {
  text : string;
  years : list jsval
}.

(** [Map<string, { text, years }>], in insertion order. *)
Definition QuestionMap : Type := list (string * Entry).

Fixpoint map_has (m : QuestionMap) (key : string) : bool :=
  match m with
  | [] => false
  | (k, _) :: m' => (k =? key)%string || map_has m' key
  end.

Fixpoint map_get (m : QuestionMap) (key : string) : option Entry :=
  match m with
  | [] => None
  | (k, e) :: m' => if (k =? key)%string then Some e else map_get m' key
  end.

(** [questionMap.get(key).years.push(y)]: the entry is updated in
    place. *)
Fixpoint push_year (m : QuestionMap) (key : string) (y : jsval) : QuestionMap :=
  match m with
  | [] => []
  | (k, e) :: m' =>
      if (k =? key)%string
      then (k, {| text := text e; years := years e ++ [y] |}) :: m'
      else (k, e) :: push_year m' key y
  end.

(** [questionMap.set(key, entry)] for a key the map does not hold. *)
Definition map_set_new (m : QuestionMap) (key : string) (e : Entry) : QuestionMap :=
  m ++ [(key, e)].

(** Normalize key for matching (lowercase, collapse spaces). *)
Definition normalize_key (cleanText : string) : string :=
  replace_ws_runs (toLowerCase cleanText).

(** The body of the inner [forEach]. *)
Definition add_question (safeYear : jsval) (m : QuestionMap) (q : jsval) : QuestionMap :=
  if negb (truthy q) || negb (is_string q) then m
  else
    match q with
    | JStr s =>
        let cleanText := trim s in
        if String.length cleanText <? 3 then m (* Skip noise/empty *)
        else
          let key := normalize_key cleanText in
          if map_has m key then push_year m key safeYear
          else map_set_new m key {| text := cleanText; years := [safeYear] |}
    | _ => m
    end.

(** The body of the outer [forEach]. *)
Definition add_extraction (m : QuestionMap) (ex : ExtractionResult) : QuestionMap :=
  let safeYear := js_or (year ex) (JStr "Unknown") in
  fold_left (add_question safeYear) (questions ex) m.

Definition build_questionMap (allExtractions : list ExtractionResult) : QuestionMap :=
  fold_left add_extraction allExtractions [].

(** An element of [preProcessedData]. *)
Record PreProcessed : Type := mkPreProcessed {
  question : string;
  pp_years : list jsval
}.

Definition preProcessedData (m : QuestionMap) : list PreProcessed :=
  map (fun kv => {| question := text (snd kv); pp_years := years (snd kv) |}) m.

(** *** Semantic grouping *)

Inductive QuestionType : Type :=
| LongQuestion | ShortQuestion | VeryShortQuestion | MCQ.

(** The items of [analysisSchema]. *)
Record AnalysisGroup : Type := mkGroup {
  id : string;
  normalizedQuestion : string;
  qtype : QuestionType;
  group_years : list string;
  frequency : Z;
  variants : list string;
  answer : string
}.

(** The analysis backend; its parser yields the array the code casts
    the parsed text to, or throws ([None]). *)
Record AnalysisBackend : Type := mkAnalysisBackend {
  generateAnalysis : list PreProcessed -> settled (option string);
  parse_groups : string -> option (list AnalysisGroup)
}.

(** Step 2: Analyze the aggregated list of questions. *)
Definition analyzeRepeatedQuestions (ai : AnalysisBackend)
    (allExtractions : list ExtractionResult) : settled (list AnalysisGroup) :=
  let questionMap := build_questionMap allExtractions in
  match generateAnalysis ai (preProcessedData questionMap) with
  | Rejected e => Rejected e
  | Resolved text =>
      if no_text text then Rejected "No analysis response from AI"
      else
        match parse_groups ai (match text with Some t => t | None => "" end) with
        | Some groups => Resolved groups
        | None => Rejected "Failed to parse analysis results."
        end
  end.

End GeminiService.

Import GeminiService.

(* ================================================================== *)
(** ** App *)
(* ================================================================== *)

Module App.

Inductive FileStatus : Type :=
| Pending | Processing | Completed | Failed.

Record UploadedFile : Type := mkUploaded {
  id : string;
  file : File;
  status : FileStatus;
  detectedYear : option jsval;
  extractedQuestionsCount : option nat
}.

Record AnalysisSummary : Type := mkSummary {
  totalPapers : nat;
  totalQuestionsExtracted : nat;
  totalRepeatedGroups : nat
}.

(** The component state, followed by what an observer of the run
    records: every value passed to [setProgress], in order, and the
    number of requests issued to the analysis backend. *)
Record State : Type := mkState {
  files : list UploadedFile;
  isProcessing : bool;
  progress : Z;
  currentStatus : string;
  analysisResults : option (list AnalysisGroup);
  summary : option AnalysisSummary;
  error : option string;
  progress_log : list Z;
  analysis_requests : nat
}.

Definition setFiles (upd : list UploadedFile -> list UploadedFile) (s : State) : State :=
  mkState (upd (files s)) (isProcessing s) (progress s) (currentStatus s)
          (analysisResults s) (summary s) (error s)
          (progress_log s) (analysis_requests s).

Definition setIsProcessing (v : bool) (s : State) : State :=
  mkState (files s) v (progress s) (currentStatus s)
          (analysisResults s) (summary s) (error s)
          (progress_log s) (analysis_requests s).

Definition setProgress (v : Z) (s : State) : State :=
  mkState (files s) (isProcessing s) v (currentStatus s)
          (analysisResults s) (summary s) (error s)
          (progress_log s ++ [v]) (analysis_requests s).

Definition setCurrentStatus (v : string) (s : State) : State :=
  mkState (files s) (isProcessing s) (progress s) v
          (analysisResults s) (summary s) (error s)
          (progress_log s) (analysis_requests s).

Definition setAnalysisResults (v : option (list AnalysisGroup)) (s : State) : State :=
  mkState (files s) (isProcessing s) (progress s) (currentStatus s)
          v (summary s) (error s)
          (progress_log s) (analysis_requests s).

Definition setSummary (v : option AnalysisSummary) (s : State) : State :=
  mkState (files s) (isProcessing s) (progress s) (currentStatus s)
          (analysisResults s) v (error s)
          (progress_log s) (analysis_requests s).

Definition setError (v : option string) (s : State) : State :=
  mkState (files s) (isProcessing s) (progress s) (currentStatus s)
          (analysisResults s) (summary s) v
          (progress_log s) (analysis_requests s).

(** The observer's count of a request to the analysis backend. *)
Definition note_analysis_request (s : State) : State :=
  mkState (files s) (isProcessing s) (progress s) (currentStatus s)
          (analysisResults s) (summary s) (error s)
          (progress_log s) (S (analysis_requests s)).

(** What the run depends on besides the component state. *)
Record Env : Type := mkEnv {
  API_KEY : bool;              (* [process.env.API_KEY] is set *)
  browser : Browser;
  extraction_ai : ExtractionBackend;
  analysis_ai : AnalysisBackend
}.

(** [prev.map(f => f.id === target ? change(f) : f)]. *)
Definition update_file (target : string) (change : UploadedFile -> UploadedFile)
    (prev : list UploadedFile) : list UploadedFile :=
  map (fun f => if (id f =? target)%string then change f else f) prev.

Definition mark_processing (f : UploadedFile) : UploadedFile :=
  mkUploaded (id f) (file f) Processing (detectedYear f) (extractedQuestionsCount f).

Definition mark_completed (extraction : ExtractionResult) (f : UploadedFile) : UploadedFile :=
  mkUploaded (id f) (file f) Completed
             (Some (year extraction)) (Some (List.length (questions extraction))).

Definition mark_error (f : UploadedFile) : UploadedFile :=
  mkUploaded (id f) (file f) Failed (detectedYear f) (extractedQuestionsCount f).

(** [Math.min(90, Math.round((processedCount / files.length) * 90))]. *)
Definition percentage (fp : Doubles) (processedCount total : nat) : Z :=
  Z.min 90 (Math_round
              (js_mul fp (js_div fp (inject_Z (Z.of_nat processedCount))
                                    (inject_Z (Z.of_nat total)))
                      90%Q)).

(** Helper to update progress: the state of the phase is the component
    state and the local counter [processedCount]. *)
Definition updateProgress (fp : Doubles) (total : nat) (ps : State * nat) : State * nat :=
  let processedCount := S (snd ps) in
  (setProgress (percentage fp processedCount total) (fst ps), processedCount).

(** The outcome of one extraction task: the value its promise resolves
    with ([None] is [null]). *)
Definition extraction_of (env : Env) (fileObj : UploadedFile) : option ExtractionResult :=
  match extractQuestionsFromFile (browser env) (extraction_ai env) (file fileObj) with
  | Resolved extraction => Some extraction
  | Rejected _ => None
  end.

(** One task reaches its end: the continuation after
    [await extractQuestionsFromFile], or the [catch] block. *)
Definition settle (env : Env) (files0 : list UploadedFile)
    (ps : State * nat) (i : nat) : State * nat :=
  match nth_error files0 i with
  | None => ps
  | Some fileObj =>
      match extraction_of env fileObj with
      | Some extraction =>
          updateProgress (doubles (browser env)) (List.length files0)
            (setFiles (update_file (id fileObj) (mark_completed extraction)) (fst ps),
             snd ps)
      | None =>
          updateProgress (doubles (browser env)) (List.length files0)
            (setFiles (update_file (id fileObj) mark_error) (fst ps), snd ps)
      end
  end.

(** Every task starts, up to its first [await], while [files.map] runs. *)
Definition start_all (files0 : list UploadedFile) (s : State) : State :=
  fold_left (fun s fileObj => setFiles (update_file (id fileObj) mark_processing) s)
            files0 s.

(** [results.filter(r => r !== null)]. *)
Fixpoint successful (results : list (option ExtractionResult)) : list ExtractionResult :=
  match results with
  | [] => []
  | Some r :: rest => r :: successful rest
  | None :: rest => successful rest
  end.

(** The outer [catch]: [setError(err.message || "...")]. *)
Definition catch (message : string) (s : State) : State :=
  setError (Some (if (message =? "")%string
                  then "An unexpected error occurred." else message)) s.

Definition status_extracting (n : nat) : string :=
  "Extracting from " ++ NilEmpty.string_of_uint (Nat.to_uint n)
  ++ " papers concurrently...".

(** The [try] block. [schedule] lists the tasks (indices into [files])
    in the order in which they settle. *)
Definition try_block (env : Env) (schedule : list nat)
    (files0 : list UploadedFile) (s : State) : State :=
  (* 1. Parallel Extraction *)
  let s := start_all files0 s in
  let s := fst (fold_left (settle env files0) schedule (s, 0)) in
  (* Wait for all extractions to finish *)
  let results := map (extraction_of env) files0 in
  let successfulExtractions := successful results in
  if List.length successfulExtractions =? 0 then
    catch "No questions could be extracted. Please check your files." s
  else
    let totalQ :=
      fold_left (fun acc val => acc + List.length (questions val)) successfulExtractions 0 in
    (* 2. Analysis & Grouping *)
    let s := setCurrentStatus
               "Analyzing patterns, merging duplicates, and solving questions..." s in
    let s := setProgress 92 s in
    let s := note_analysis_request s in
    match analyzeRepeatedQuestions (analysis_ai env) successfulExtractions with
    | Rejected message => catch message s
    | Resolved groups =>
        let s := setProgress 100 s in
        let s := setAnalysisResults (Some groups) s in
        setSummary (Some {| totalPapers := List.length files0;
                            totalQuestionsExtracted := totalQ;
                            totalRepeatedGroups := List.length groups |}) s
    end.

Definition processFiles (env : Env) (schedule : list nat) (s : State) : State :=
  if List.length (files s) =? 0 then
    setError (Some "Please upload at least one paper.") s
  else if negb (API_KEY env) then
    setError (Some "API Key is missing.") s
  else
    let files0 := files s in
    let s := setIsProcessing true s in
    let s := setProgress 0 s in
    let s := setError None s in
    let s := setAnalysisResults None s in
    let s := setCurrentStatus (status_extracting (List.length files0)) s in
    let s := try_block env schedule files0 s in
    (* finally *)
    let s := setIsProcessing false s in
    setCurrentStatus "" s.

(** The messages of the run-level failures. *)
Definition NoInputError : string := "Please upload at least one paper.".
Definition ConfigError : string := "API Key is missing.".
Definition AllExtractionsFailedError : string :=
  "No questions could be extracted. Please check your files.".

(** A fresh component: the initial [useState] values with the given
    uploads. *)
Definition initial (uploads : list UploadedFile) : State :=
  mkState uploads false 0 "" None None None [] 0.

(** [handleReset]. The setters are applied in the order of the source;
    [setProgress] is the last one. *)
Definition handleReset (s : State) : State :=
  let s := setFiles (fun _ => []) s in
  let s := setAnalysisResults None s in
  let s := setSummary None s in
  let s := setError None s in
  let s := setIsProcessing false s in
  let s := setCurrentStatus "" s in
  setProgress 0 s.

End App.

Import App.

(* ================================================================== *)
(** ** components/FileUploader *)
(* ================================================================== *)

Module FileUploader.

Fixpoint new_uploads (random_id : nat -> string) (call : nat) (picked : list File)
    : list UploadedFile :=
  match picked with
  | [] => []
  | f :: rest =>
      mkUploaded (random_id call) f Pending None None
      :: new_uploads random_id (S call) rest
  end.

(** [handleFileChange]: [picked] is [event.target.files] ([None] when it
    is [null]); [random_id i] is the string that the [i]-th evaluation
    of [Math.random().toString(36).substring(7)] yields. *)
Definition handleFileChange (random_id : nat -> string) (picked : option (list File))
    (prev : list UploadedFile) : list UploadedFile :=
  match picked with
  | Some (f :: rest) => prev ++ new_uploads random_id 0 (f :: rest)
  | _ => prev
  end.

(** [removeFile]. *)
Definition removeFile (target : string) (prev : list UploadedFile) : list UploadedFile :=
  filter (fun f => negb (id f =? target)%string) prev.

End FileUploader.

Import FileUploader.

(* ================================================================== *)
(** ** components/AnalysisView *)
(* ================================================================== *)

Module AnalysisView.

(** The code unit U+0022. *)
Definition dquote : string := String "034"%char EmptyString.

Definition LF : ascii := "010"%char.
Definition star : ascii := "*"%char.

(** The code units below U+0100 that the regular expression atom [.]
    does not match, and after which [^] matches under the flag [m]:
    LF and CR. *)
Definition is_line_terminator (c : ascii) : bool :=
  (nat_of_ascii c =? 10) || (nat_of_ascii c =? 13).

Definition starts_with (c : ascii) (s : string) : bool :=
  match s with
  | String c' _ => Ascii.eqb c' c
  | EmptyString => false
  end.

Definition br : string := "<br />".

Definition strong_open : string :=
  "<strong class=" ++ dquote ++ "text-gray-900 dark:text-white" ++ dquote ++ ">".
Definition strong_close : string := "</strong>".

Definition span_open : string :=
  "<span class=" ++ dquote
  ++ "block pl-4 border-l-2 border-gray-300 dark:border-neutral-600 my-2"
  ++ dquote ++ ">".
Definition span_close : string := "</span>".

(** The first [replace] of the answer: every line feed becomes
    [<br />]. *)
Fixpoint replace_newlines (s : string) : string :=
  match s with
  | EmptyString => EmptyString
  | String c t =>
      if Ascii.eqb c LF then br ++ replace_newlines t
      else String c (replace_newlines t)
  end.

(** The rest of a match of the bold pattern (two stars, a lazy group of
    any units but line terminators, two stars) after its opening stars:
    the shortest run of units other than line terminators that two
    stars follow. The result is the group and its length. *)
Fixpoint find_close (s : string) : option (string * nat) :=
  match s with
  | EmptyString => None
  | String c t =>
      if Ascii.eqb c star && starts_with star t then Some (EmptyString, 0)
      else if is_line_terminator c then None
      else match find_close t with
           | Some (g, n) => Some (String c g, S n)
           | None => None
           end
  end.

(** The second [replace] of the answer: every match of the bold
    pattern, under the flag [g], becomes its group inside a [strong]
    element. The string is read from left to right; [skip] counts the
    units of the current match that are still to be passed over. *)
Fixpoint replace_bold (skip : nat) (s : string) : string :=
  match s with
  | EmptyString => EmptyString
  | String c t =>
      match skip with
      | S k => replace_bold k t
      | O =>
          match t with
          | String c' t' =>
              if Ascii.eqb c star && Ascii.eqb c' star then
                match find_close t' with
                | Some (g, n) =>
                    strong_open ++ g ++ strong_close ++ replace_bold (n + 3) t
                | None => String c (replace_bold 0 t)
                end
              else String c (replace_bold 0 t)
          | EmptyString => String c EmptyString
          end
      end
  end.

(** Where the reading of the bullet pattern (start of a line, a star,
    a space, the rest of the line as the group) under the flags [g] and
    [m] stands: at the start of a line, inside a line, on the space of a
    match, or inside the group of a match. *)
Inductive line_state : Type := LineStart | Inside | OnSpace | InItem.

Definition next_line_state (c : ascii) : line_state :=
  if is_line_terminator c then LineStart else Inside.

(** The third [replace] of the answer: every match of the bullet
    pattern becomes its group inside a [span] element. *)
Fixpoint replace_bullets (st : line_state) (s : string) : string :=
  match s with
  | EmptyString =>
      match st with
      | InItem => span_close
      | _ => EmptyString
      end
  | String c t =>
      match st with
      | LineStart =>
          if Ascii.eqb c star && starts_with " " t
          then span_open ++ replace_bullets OnSpace t
          else String c (replace_bullets (next_line_state c) t)
      | Inside => String c (replace_bullets (next_line_state c) t)
      | OnSpace => replace_bullets InItem t
      | InItem =>
          if is_line_terminator c
          then span_close ++ String c (replace_bullets LineStart t)
          else String c (replace_bullets InItem t)
      end
  end.

(** The markup of a model answer, as [dangerouslySetInnerHTML]
    receives it. *)
Definition answer_html (answer : string) : string :=
  replace_bullets LineStart (replace_bold 0 (replace_newlines answer)).

End AnalysisView.

Import AnalysisView.

(* ================================================================== *)
(** ** Strings beyond U+00FF *)
(* ================================================================== *)

(** The built-ins of the aggregator on an alphabet that has the Greek
    letters beside the code units below U+0100, where
    [String.prototype.toLowerCase] depends on the context of a letter,
    and the aggregator on such strings. *)
Module Wide.

Inductive greek : Type :=
| Alpha | Beta | Gamma | Delta | Epsilon | Zeta | Eta | Theta
| Iota | Kappa | Lambda | Mu | Nu | Xi | Omicron | Pi
| Rho | Sigma | Tau | Upsilon | Phi | Chi | Psi | Omega.

(** A code unit: one below U+0100, a Greek capital letter
    (U+0391..U+03A9), a Greek small letter (U+03B1..U+03C9 but
    U+03C2), or the small final sigma U+03C2. *)
Inductive cunit : Type :=
| Latin (c : ascii)
| Capital (l : greek)
| Small (l : greek)
| FinalSigma.

(** The place of a letter in its block; the place after rho is the one
    of the final sigma. *)
Definition place (l : greek) : N :=
  match l with
  | Alpha => 0 | Beta => 1 | Gamma => 2 | Delta => 3 | Epsilon => 4 | Zeta => 5
  | Eta => 6 | Theta => 7 | Iota => 8 | Kappa => 9 | Lambda => 10 | Mu => 11
  | Nu => 12 | Xi => 13 | Omicron => 14 | Pi => 15 | Rho => 16 | Sigma => 18
  | Tau => 19 | Upsilon => 20 | Phi => 21 | Chi => 22 | Psi => 23 | Omega => 24
  end%N.

(** The value of a code unit. *)
Definition code (u : cunit) : N :=
  match u with
  | Latin c => N_of_ascii c
  | Capital l => 913 + place l
  | Small l => 945 + place l
  | FinalSigma => 962
  end%N.

Definition ustring : Type := list cunit.

Definition cunit_eqb (u v : cunit) : bool := (code u =? code v)%N.

(** [x === y] on strings. *)
Fixpoint eqb (x y : ustring) : bool :=
  match x, y with
  | [], [] => true
  | u :: x', v :: y' => cunit_eqb u v && eqb x' y'
  | _, _ => false
  end.

(** The property Cased below U+0100: the letters A-Z and a-z, the
    ordinal indicators U+00AA and U+00BA, the micro sign U+00B5 and the
    letters U+00C0..U+00FF but the signs U+00D7 and U+00F7. *)
Definition cased_latin1 (c : ascii) : bool :=
  let n := nat_of_ascii c in
  ((65 <=? n) && (n <=? 90)) || ((97 <=? n) && (n <=? 122))
  || (n =? 170) || (n =? 181) || (n =? 186)
  || ((192 <=? n) && negb (n =? 215) && negb (n =? 247)).

(** The property Case_Ignorable below U+0100: apostrophe, full stop,
    colon, circumflex, grave, diaeresis, soft hyphen, macron, acute,
    middle dot and cedilla. *)
Definition case_ignorable_latin1 (c : ascii) : bool :=
  let n := nat_of_ascii c in
  (n =? 39) || (n =? 46) || (n =? 58) || (n =? 94) || (n =? 96) || (n =? 168)
  || (n =? 173) || (n =? 175) || (n =? 180) || (n =? 183) || (n =? 184).

Definition cased (u : cunit) : bool :=
  match u with Latin c => cased_latin1 c | _ => true end.

Definition case_ignorable (u : cunit) : bool :=
  match u with Latin c => case_ignorable_latin1 c | _ => false end.

(** The second half of the condition Final_Sigma: what follows is not
    a cased letter after any number of case-ignorable units. *)
Fixpoint no_letter_follows (s : ustring) : bool :=
  match s with
  | [] => true
  | u :: t => if case_ignorable u then no_letter_follows t else negb (cased u)
  end.

(** The lower-case mapping of one unit; [final] is the condition
    Final_Sigma at its place. *)
Definition lower_unit (final : bool) (u : cunit) : cunit :=
  match u with
  | Latin c => Latin (lower_char c)
  | Capital Sigma => if final then FinalSigma else Small Sigma
  | Capital l => Small l
  | Small _ | FinalSigma => u
  end.

(** The lower-case mapping of a string, from left to right; [before]
    is the first half of Final_Sigma: a cased letter precedes, with
    nothing but case-ignorable units in between. *)
Fixpoint lower_from (before : bool) (s : ustring) : ustring :=
  match s with
  | [] => []
  | u :: t =>
      lower_unit (before && no_letter_follows t) u
      :: lower_from (if case_ignorable u then before else cased u) t
  end.

(** [s.toLowerCase()]. *)
Definition toLowerCase (s : ustring) : ustring := lower_from false s.

(** White space: no Greek letter is. *)
Definition is_ws (u : cunit) : bool :=
  match u with Latin c => JS.is_ws c | _ => false end.

(** [s.trimStart()]. *)
Fixpoint trimStart (s : ustring) : ustring :=
  match s with
  | [] => []
  | u :: t => if is_ws u then trimStart t else s
  end.

(** [s.trimEnd()]. *)
Fixpoint trimEnd (s : ustring) : ustring :=
  match s with
  | [] => []
  | u :: t =>
      match trimEnd t with
      | [] => if is_ws u then [] else [u]
      | t' => u :: t'
      end
  end.

(** [s.trim()]. *)
Definition trim (s : ustring) : ustring := trimEnd (trimStart s).

Definition starts_with_ws (s : ustring) : bool :=
  match s with
  | u :: _ => is_ws u
  | [] => false
  end.

(** [s.replace(/\s+/g, ' ')]. *)
Fixpoint replace_ws_runs (s : ustring) : ustring :=
  match s with
  | [] => []
  | u :: t =>
      if is_ws u
      then if starts_with_ws t then replace_ws_runs t
           else Latin " " :: replace_ws_runs t
      else u :: replace_ws_runs t
  end.

(** A value of [questionMap]. *)
Record Entry : Type := mkEntry {
  text : ustring;
  years : list jsval
}.

Definition QuestionMap : Type := list (ustring * Entry).

Fixpoint map_has (m : QuestionMap) (key : ustring) : bool :=
  match m with
  | [] => false
  | (k, _) :: m' => eqb k key || map_has m' key
  end.

Fixpoint push_year (m : QuestionMap) (key : ustring) (y : jsval) : QuestionMap :=
  match m with
  | [] => []
  | (k, e) :: m' =>
      if eqb k key
      then (k, {| text := text e; years := years e ++ [y] |}) :: m'
      else (k, e) :: push_year m' key y
  end.

(** Normalize key for matching (lowercase, collapse spaces). *)
Definition normalize_key (cleanText : ustring) : ustring :=
  replace_ws_runs (toLowerCase cleanText).

(** The body of the inner [forEach], for a question that is a string. *)
Definition add_question (safeYear : jsval) (m : QuestionMap) (q : ustring) : QuestionMap :=
  match q with
  | [] => m
  | _ =>
      let cleanText := trim q in
      if List.length cleanText <? 3 then m (* Skip noise/empty *)
      else
        let key := normalize_key cleanText in
        if map_has m key then push_year m key safeYear
        else m ++ [(key, {| text := cleanText; years := [safeYear] |})]
  end.

(** An extraction result whose questions are strings. *)
Record Extraction : Type := mkExtraction {
  questions : list ustring;
  year : jsval
}.

(** The body of the outer [forEach]. *)
Definition add_extraction (m : QuestionMap) (ex : Extraction) : QuestionMap :=
  let safeYear := js_or (year ex) (JStr "Unknown") in
  fold_left (add_question safeYear) (questions ex) m.

Definition build_questionMap (allExtractions : list Extraction) : QuestionMap :=
  fold_left add_extraction allExtractions [].

End Wide.

(* ================================================================== *)
(** ** Vocabulary of the statements *)
(* ================================================================== *)

(** A reading of a string one code unit at a time: nothing was emitted
    yet, the last unit belonged to a word, or white space followed a
    word. *)
Inductive scan_state : Type := AtStart | InWord | AfterGap.

Definition after_ws (st : scan_state) : scan_state :=
  match st with AtStart => AtStart | _ => AfterGap end.

(** The words of [s] in lower case, separated by single spaces. *)
Fixpoint scan (st : scan_state) (s : string) : string :=
  match s with
  | EmptyString => EmptyString
  | String c t =>
      if is_ws c then scan (after_ws st) t
      else match st with
           | AfterGap => String " " (String (lower_char c) (scan InWord t))
           | _ => String (lower_char c) (scan InWord t)
           end
  end.

Fixpoint all_ws (s : string) : bool :=
  match s with
  | EmptyString => true
  | String c t => is_ws c && all_ws t
  end.

(** Two strings differ only in letter case or in white space: the
    equivalence generated by changing the case of one letter, by
    replacing one run of white space by another, and by adding or
    removing white space at either end. *)
Inductive case_ws_variant : string -> string -> Prop :=
| cwv_refl : forall s, case_ws_variant s s
| cwv_case : forall x c c' y,
    lower_char c = lower_char c' ->
    case_ws_variant (x ++ String c y) (x ++ String c' y)
| cwv_ws : forall x r r' y,
    r <> "" -> r' <> "" -> all_ws r = true -> all_ws r' = true ->
    case_ws_variant (x ++ r ++ y) (x ++ r' ++ y)
| cwv_lead : forall r s, all_ws r = true -> case_ws_variant (r ++ s) s
| cwv_trail : forall r s, all_ws r = true -> case_ws_variant (s ++ r) s
| cwv_sym : forall s t, case_ws_variant s t -> case_ws_variant t s
| cwv_trans : forall s t u,
    case_ws_variant s t -> case_ws_variant t u -> case_ws_variant s u.

(** The key under which the aggregator files a question. *)
Definition question_key (q : string) : string := normalize_key (trim q).

(** A string of code units below U+0100 among the wider ones. *)
Fixpoint widen (s : string) : Wide.ustring :=
  match s with
  | EmptyString => []
  | String c t => Wide.Latin c :: widen t
  end.

(** The letter of a code unit, whatever its case and, for a sigma, its
    form. *)
Definition letter (u : Wide.cunit) : Wide.cunit :=
  match u with
  | Wide.Latin c => Wide.Latin (lower_char c)
  | Wide.Capital l => Wide.Small l
  | Wide.FinalSigma => Wide.Small Wide.Sigma
  | Wide.Small l => Wide.Small l
  end.

(** Two strings differ only in letter case. *)
Definition case_variant (x y : Wide.ustring) : Prop := map letter x = map letter y.

Definition wide_question_key (q : Wide.ustring) : Wide.ustring :=
  Wide.normalize_key (Wide.trim q).

(** An entry of the question map among the wider ones. *)
Definition widen_entry (kv : string * Entry) : Wide.ustring * Wide.Entry :=
  (widen (fst kv), {| Wide.text := widen (text (snd kv)); Wide.years := years (snd kv) |}).

(** A document whose questions are strings of code units below U+0100
    (its questions, its year and its name), as the aggregator and as
    the aggregator of the wider strings receive it. *)
Definition narrow_extraction (d : list string * jsval * string) : ExtractionResult :=
  {| questions := map JStr (fst (fst d)); year := snd (fst d); sourceFile := snd d |}.

Definition wide_extraction (d : list string * jsval * string) : Wide.Extraction :=
  {| Wide.questions := map widen (fst (fst d)); Wide.year := snd (fst d) |}.

(** An occurrence: a question of some extraction result, with the year
    the aggregator records for it. *)
Definition occurrence : Type := (jsval * jsval)%type.

Definition safe_year (ex : ExtractionResult) : jsval :=
  js_or (year ex) (JStr "Unknown").

Definition occurrences (allExtractions : list ExtractionResult) : list occurrence :=
  flat_map (fun ex => map (fun q => (q, safe_year ex)) (questions ex)) allExtractions.

(** The key of an occurrence the aggregator accepts: a string whose
    trimmed length is at least 3. *)
Definition key_of (q : jsval) : option string :=
  match q with
  | JStr s => if 3 <=? String.length (trim s) then Some (question_key s) else None
  | _ => None
  end.

Definition accepted (o : occurrence) : bool :=
  match key_of (fst o) with Some _ => true | None => false end.

Definition has_key (k : string) (o : occurrence) : bool :=
  match key_of (fst o) with Some k' => (k' =? k)%string | None => false end.

Definition add_occurrence (m : QuestionMap) (o : occurrence) : QuestionMap :=
  add_question (snd o) m (fst o).

Definition years_at (k : string) (m : QuestionMap) : list jsval :=
  match map_get m k with Some e => years e | None => [] end.

Definition total_years (m : QuestionMap) : nat :=
  fold_right (fun kv acc => List.length (years (snd kv)) + acc) 0 m.

(** The text the aggregator stores for a question it accepts. *)
Definition clean_text (q : jsval) : string :=
  match q with JStr s => trim s | _ => "" end.

(** The entry filed under [k] once the occurrences [os] have been added
    to a map that held [prev] there. *)
Definition entry_after (k : string) (prev : option Entry) (os : list occurrence)
    : option Entry :=
  match prev, filter (has_key k) os with
  | Some e, l => Some {| text := text e; years := years e ++ map snd l |}
  | None, [] => None
  | None, o :: l => Some {| text := clean_text (fst o); years := map snd (o :: l) |}
  end.

Definition has_years (kv : string * Entry) : Prop := years (snd kv) <> [].

(** What every entry of a map built by the aggregator satisfies. *)
Definition entry_ok (kv : string * Entry) : Prop :=
  trim (text (snd kv)) = text (snd kv) /\
  3 <= String.length (text (snd kv)) /\
  normalize_key (text (snd kv)) = fst kv /\
  years (snd kv) <> [] /\
  Forall (fun y => truthy y = true) (years (snd kv)).

Definition well_formed (m : QuestionMap) : Prop :=
  NoDup (map fst m) /\ Forall entry_ok m.

(** The aggregated entries as extraction results again: the stored text
    of an entry, once for each element of its years. *)
Definition reflatten (src : string) (m : QuestionMap) : list ExtractionResult :=
  flat_map (fun kv =>
              map (fun y => {| questions := [JStr (text (snd kv))];
                               year := y; sourceFile := src |})
                  (years (snd kv))) m.

(** Removal of exact duplicates that keeps the first of equal strings. *)
Fixpoint first_occurrences (l : list string) : list string :=
  match l with
  | [] => []
  | x :: t => x :: filter (fun y => negb (y =? x)%string) (first_occurrences t)
  end.

Definition unseen (seen : list string) (y : string) : bool :=
  negb (existsb (String.eqb y) seen).

(** The share of settled documents, scaled to the 90 points of the
    extraction phase, as a real number. *)
Definition ratio (k n : nat) : Q :=
  (inject_Z (Z.of_nat k) / inject_Z (Z.of_nat n) * 90)%Q.

(** The same as the engine computes it. *)
Definition scaled (fp : Doubles) (k n : nat) : Q :=
  js_mul fp (js_div fp (inject_Z (Z.of_nat k)) (inject_Z (Z.of_nat n))) 90%Q.

(** How far two roundings can move the scaled share. *)
Definition slack : Q := Eval cbv in (1 # 2 ^ 40)%Q.

(** [c] pixels stand for the side [side] of an image scaled by
    [1536 / larger]: the exact proportion cut down to a whole number,
    up to the rounding of the engine. *)
Definition pixel_scaled (side larger c : Z) : Prop :=
  (inject_Z side * 1536 / inject_Z larger - 1 - slack < inject_Z c)%Q /\
  (inject_Z c <= inject_Z side * 1536 / inject_Z larger + slack)%Q.

(** The values the extraction phase reports when [d] documents settle
    out of [n]. *)
Definition phase_reports (fp : Doubles) (n d : nat) : list Z :=
  map (fun k => percentage fp k n) (seq 1 d).

(** The message the outer [catch] displays. *)
Definition shown (message : string) : string :=
  if (message =? "")%string then "An unexpected error occurred." else message.

(** [reduce((acc, val) => acc + val.questions.length, 0)]. *)
Definition question_count (rs : list ExtractionResult) : nat :=
  list_sum (map (fun r => List.length (questions r)) rs).

(** A sequence of progress values never decreases: every value is at
    most every later one. *)
Definition monotone (l : list Z) : Prop := StronglySorted Z.le l.

(** The extraction results of the documents, as [Promise.all] delivers
    them. *)
Definition extraction_results (env : Env) (fs : list UploadedFile)
    : list (option ExtractionResult) :=
  map (extraction_of env) fs.

(** The fields of the state that the extraction phase leaves alone. *)
Definition same_outcome (s s' : State) : Prop :=
  isProcessing s' = isProcessing s /\
  currentStatus s' = currentStatus s /\
  analysisResults s' = analysisResults s /\
  summary s' = summary s /\
  error s' = error s /\
  analysis_requests s' = analysis_requests s.

(** The payload that the plain reader path submits for a file. *)
Definition original_payload (f : File) : option string := after_comma (dataURL f).

(* ------------------------------------------------------------------ *)
(** *** Vocabulary of the further properties *)

(** The keys of the accepted occurrences, in order of arrival. *)
Definition accepted_keys (os : list occurrence) : list string :=
  flat_map (fun o => match key_of (fst o) with Some k => [k] | None => [] end) os.

Fixpoint no_comma (s : string) : bool :=
  match s with
  | EmptyString => true
  | String c t => negb (Ascii.eqb c ",") && no_comma t
  end.

(** No code unit of [s] satisfies [p]. *)
Fixpoint avoids (p : ascii -> bool) (s : string) : bool :=
  match s with
  | EmptyString => true
  | String c t => negb (p c) && avoids p t
  end.

Definition CR : ascii := "013"%char.

(** A string without line feeds and stars. *)
Definition plain (s : string) : bool :=
  avoids (fun c => Ascii.eqb c LF || Ascii.eqb c star) s.

Definition no_line_feed (s : string) : bool := avoids (fun c => Ascii.eqb c LF) s.

Definition no_carriage_return (s : string) : bool := avoids (fun c => Ascii.eqb c CR) s.

Definition no_line_terminator (s : string) : bool := avoids is_line_terminator s.

(** The string begins with a star and a space. *)
Definition bullet_first (s : string) : bool :=
  match s with
  | String c t => Ascii.eqb c star && starts_with " " t
  | EmptyString => false
  end.

(** The string without its first two code units. *)
Definition after_bullet (s : string) : string :=
  match s with
  | String _ (String _ r) => r
  | _ => EmptyString
  end.

(** The list of uploads while the tasks of a run start and settle:
    [setFiles] applied to the list alone. *)
Definition files_started (files0 l : list UploadedFile) : list UploadedFile :=
  fold_left (fun l fileObj => update_file (id fileObj) mark_processing l) files0 l.

Definition files_settled (env : Env) (files0 l : list UploadedFile) (i : nat)
    : list UploadedFile :=
  match nth_error files0 i with
  | None => l
  | Some fileObj =>
      match extraction_of env fileObj with
      | Some extraction => update_file (id fileObj) (mark_completed extraction) l
      | None => update_file (id fileObj) mark_error l
      end
  end.

(** The record of an upload once its task has settled. *)
Definition settled_record (env : Env) (f : UploadedFile) : UploadedFile :=
  match extraction_of env f with
  | Some extraction =>
      mkUploaded (id f) (file f) Completed
                 (Some (year extraction)) (Some (List.length (questions extraction)))
  | None => mkUploaded (id f) (file f) Failed (detectedYear f) (extractedQuestionsCount f)
  end.

Definition is_settled (f : UploadedFile) : bool :=
  match status f with Completed | Failed => true | _ => false end.

(** The identifiers of the tasks of [done] (indices into [files0]). *)
Definition settled_ids (files0 : list UploadedFile) (done : list nat) : list string :=
  flat_map (fun i => match nth_error files0 i with Some f => [id f] | None => [] end) done.

(* ------------------------------------------------------------------ *)
(** *** A laboratory: concrete files, a browser and two backends *)

Definition paper_2021 : File := mkFile "paper-2021.pdf" "application/pdf" "JVBERi0xLjQ=".
Definition paper_2022 : File := mkFile "paper-2022.pdf" "application/pdf" "JVBERi0xLjU=".
Definition garbled : File := mkFile "garbled.txt" "text/plain" "Pz8/".
Definition silent : File := mkFile "silent.pdf" "application/pdf" "JVBERi0=".
Definition ruler_png : File := mkFile "ruler.png" "image/png" "iVBORw0KGgo=".
Definition broken_png : File := mkFile "broken.png" "image/png" "iVBORw0KAAAA".
Definition scan_png : File := mkFile "scan.png" "image/png" "iVBORw0KGgoA".

(** An arithmetic without rounding error. *)
Definition exact_arithmetic : Doubles :=
  {| rnd := fun x => x;
     rnd_proper := fun x y H => H;
     rnd_mono := fun x y H => H;
     rnd_int := fun z _ => Qeq_refl (inject_Z z);
     rnd_err := fun x H0 _ =>
       ltac:(unfold range_min, unit_roundoff in *; split; lra) |}.

(** Every read succeeds, [ruler.png] is 3000 by 1, [scan.png] is 3072 by
    2048, a drawing context is always there and the encoder always
    succeeds. *)
Definition lab_browser : Browser :=
  {| doubles := exact_arithmetic;
     reader_loads := fun _ => true;
     decode := fun f =>
       if (name f =? "ruler.png")%string then Some (3000, 1)%Z
       else if (name f =? "scan.png")%string then Some (3072, 2048)%Z
       else None;
     context2d := fun _ => true;
     encode := fun _ _ _ _ _ => Some "/9j/4AAQ" |}.

Definition banner_png : File := mkFile "banner.png" "image/png" "iVBORw0KGgpi".

(** The same browser with a picture of 3000 by 3 behind every file. *)
Definition banner_browser : Browser :=
  {| doubles := exact_arithmetic;
     reader_loads := fun _ => true;
     decode := fun _ => Some (3000, 3)%Z;
     context2d := fun _ => true;
     encode := fun _ _ _ _ _ => Some "/9j/4AAQ" |}.

Definition reply_2021 : jsval :=
  JObj [("year", JStr "2021");
        ("questions", JArr [JStr "Define X"; JStr "define x "])].

Definition reply_2022 : jsval :=
  JObj [("year", JStr "2022"); ("questions", JArr [JStr "Define X?"])].

(** The backend answers the two papers with well-formed replies, the
    garbled file with text that is not JSON, and [silent.pdf] with no
    text at all. *)
Definition lab_extractor : ExtractionBackend :=
  {| generateContent := fun f _ =>
       if (name f =? "paper-2021.pdf")%string then Resolved (Some "reply-2021")
       else if (name f =? "paper-2022.pdf")%string then Resolved (Some "reply-2022")
       else if (name f =? "garbled.txt")%string then Resolved (Some "<html>502</html>")
       else Resolved None;
     JSON_parse := fun t =>
       if (t =? "reply-2021")%string then Some reply_2021
       else if (t =? "reply-2022")%string then Some reply_2022
       else None |}.

Definition lab_group : AnalysisGroup :=
  mkGroup "g1" "Define X" ShortQuestion ["2021"; "2022"] 3
          ["Define X"; "Define X?"] "X is the unknown.".

Definition lab_analyst : AnalysisBackend :=
  {| generateAnalysis := fun _ => Resolved (Some "groups");
     parse_groups := fun _ => Some [lab_group] |}.

Definition lab : Env := mkEnv true lab_browser lab_extractor lab_analyst.
Definition lab_without_key : Env := mkEnv false lab_browser lab_extractor lab_analyst.

Definition doc_a : ExtractionResult :=
  {| questions := [JStr "Define X"; JStr "define x "]; year := JStr "2021";
     sourceFile := "a.pdf" |}.

Definition doc_b : ExtractionResult :=
  {| questions := [JStr "define  x"]; year := JStr "2022"; sourceFile := "b.pdf" |}.

(** The word for road, in capitals and in small letters without the
    final form of the sigma. *)
Definition odos_capitals : Wide.ustring :=
  [Wide.Capital Wide.Omicron; Wide.Capital Wide.Delta;
   Wide.Capital Wide.Omicron; Wide.Capital Wide.Sigma].

Definition odos_small : Wide.ustring :=
  [Wide.Small Wide.Omicron; Wide.Small Wide.Delta;
   Wide.Small Wide.Omicron; Wide.Small Wide.Sigma].

(** The same with the final form of the sigma. *)
Definition odos_final : Wide.ustring :=
  [Wide.Small Wide.Omicron; Wide.Small Wide.Delta;
   Wide.Small Wide.Omicron; Wide.FinalSigma].

Definition upload (i : string) (f : File) : UploadedFile :=
  mkUploaded i f Pending None None.

(* ================================================================== *)
(** ** Strings: the normalization key *)
(* ================================================================== *)

Lemma is_ws_lower_char c : is_ws (lower_char c) = is_ws c.
Proof. destruct c as [[] [] [] [] [] [] [] []]; reflexivity. Qed.

Lemma lower_char_space : lower_char " " = " "%char.
Proof. reflexivity. Qed.

Lemma lower_char_eq_ws c c' : lower_char c = lower_char c' -> is_ws c = is_ws c'.
Proof.
  intros H. rewrite <- (is_ws_lower_char c), H. apply is_ws_lower_char.
Qed.

Lemma scan_trimStart s : scan AtStart (trimStart s) = scan AtStart s.
Proof.
  induction s as [|c t IH]; simpl; [reflexivity|].
  destruct (is_ws c) eqn:E; simpl; [exact IH | now rewrite E].
Qed.

Lemma trimEnd_empty_scan t : trimEnd t = "" -> forall st, scan st t = "".
Proof.
  induction t as [|c t IH]; simpl; intros H st; [reflexivity|].
  destruct (trimEnd t) eqn:Et; [|discriminate].
  destruct (is_ws c); [|discriminate]. now apply IH.
Qed.

Lemma scan_trimEnd s : forall st, scan st (trimEnd s) = scan st s.
Proof.
  induction s as [|c t IH]; intros st; simpl; [reflexivity|].
  destruct (trimEnd t) as [|c' t'] eqn:Et.
  - destruct (is_ws c) eqn:E; simpl.
    + symmetry. now apply trimEnd_empty_scan.
    + rewrite E. rewrite (trimEnd_empty_scan t Et). now destruct st.
  - change (scan st (String c (String c' t')) = scan st (String c t)).
    cbn [scan]. rewrite <- !IH. reflexivity.
Qed.

Lemma trimEnd_idem s : trimEnd (trimEnd s) = trimEnd s.
Proof.
  induction s as [|c t IH]; simpl; [reflexivity|].
  destruct (trimEnd t) as [|c' t'] eqn:Et.
  - destruct (is_ws c) eqn:E; simpl; [reflexivity | now rewrite E].
  - cbn [trimEnd]. cbn [trimEnd] in IH. rewrite IH. reflexivity.
Qed.

Lemma trimEnd_head s : starts_with_ws (trimEnd s) = true -> starts_with_ws s = true.
Proof.
  destruct s as [|c t]; simpl; [easy|].
  destruct (trimEnd t); [destruct (is_ws c) eqn:E; simpl; congruence | easy].
Qed.

Lemma trimStart_head s : starts_with_ws (trimStart s) = false.
Proof.
  induction s as [|c t IH]; simpl; [reflexivity|].
  destruct (is_ws c) eqn:E; [exact IH | simpl; exact E].
Qed.

Lemma trimStart_fixed s : starts_with_ws s = false -> trimStart s = s.
Proof. destruct s as [|c t]; simpl; [reflexivity | now intros ->]. Qed.

Lemma trim_head s : starts_with_ws (trim s) = false.
Proof.
  unfold trim. destruct (starts_with_ws (trimEnd (trimStart s))) eqn:E; [|reflexivity].
  apply trimEnd_head in E. now rewrite trimStart_head in E.
Qed.

Lemma trim_tail s : trimEnd (trim s) = trim s.
Proof. apply trimEnd_idem. Qed.

Lemma trim_idem s : trim (trim s) = trim s.
Proof.
  unfold trim at 1. rewrite (trimStart_fixed _ (trim_head s)). apply trim_tail.
Qed.

Lemma trimEnd_fixed_tail c t : trimEnd (String c t) = String c t -> trimEnd t = t.
Proof.
  simpl. destruct (trimEnd t) as [|c' t'] eqn:Et.
  - destruct (is_ws c); [discriminate|]. now intros [= <-].
  - now intros [= <-].
Qed.

Lemma trimEnd_fixed_ws c t :
  trimEnd (String c t) = String c t -> is_ws c = true -> t <> "".
Proof.
  simpl. intros H E ->. simpl in H. rewrite E in H. discriminate.
Qed.

Lemma replace_scan s :
  trimEnd s = s -> replace_ws_runs (toLowerCase s) = scan InWord s.
Proof.
  induction s as [|c t IH]; intros Hfix; [reflexivity|].
  pose proof (trimEnd_fixed_tail _ _ Hfix) as Ht. specialize (IH Ht).
  cbn [toLowerCase replace_ws_runs scan]. rewrite is_ws_lower_char.
  destruct (is_ws c) eqn:E.
  - destruct t as [|c' t']; [now apply trimEnd_fixed_ws in Hfix|].
    cbn [toLowerCase] in IH |- *. cbn [starts_with_ws after_ws].
    rewrite is_ws_lower_char, IH. cbn [scan]. destruct (is_ws c'); reflexivity.
  - now rewrite IH.
Qed.

Lemma scan_start_word s : starts_with_ws s = false -> scan AtStart s = scan InWord s.
Proof. destruct s as [|c t]; simpl; [reflexivity | now intros ->]. Qed.

(** The key computed by the aggregator is the word reading of the
    question. *)
Lemma question_key_scan q : question_key q = scan AtStart q.
Proof.
  unfold question_key, normalize_key.
  rewrite (replace_scan _ (trim_tail q)).
  rewrite <- (scan_start_word _ (trim_head q)).
  unfold trim. now rewrite scan_trimEnd, scan_trimStart.
Qed.

Lemma scan_ws_run r : r <> "" -> all_ws r = true ->
  forall st y, scan st (r ++ y) = scan (after_ws st) y.
Proof.
  induction r as [|c r IH]; [easy|]. intros _ H st y.
  simpl in H. apply andb_prop in H as [Hc Hr]. simpl. rewrite Hc.
  destruct r as [|c' r']; [reflexivity|].
  rewrite IH by easy. now destruct st.
Qed.

Lemma scan_context x : forall st y y',
  (forall st', scan st' y = scan st' y') -> scan st (x ++ y) = scan st (x ++ y').
Proof.
  induction x as [|c x IH]; intros st y y' H; simpl; [apply H|].
  destruct (is_ws c); [now apply IH|].
  rewrite (IH InWord y y' H). reflexivity.
Qed.

Lemma lower_char_idem c : lower_char (lower_char c) = lower_char c.
Proof. destruct c as [[] [] [] [] [] [] [] []]; reflexivity. Qed.

Lemma scan_all_ws r : all_ws r = true -> forall st, scan st r = "".
Proof.
  induction r as [|c r IH]; [reflexivity|]. simpl. intros H st.
  apply andb_prop in H as [Hc Hr]. rewrite Hc. now apply IH.
Qed.

Lemma scan_leading_ws r s : all_ws r = true -> scan AtStart (r ++ s) = scan AtStart s.
Proof.
  induction r as [|c r IH]; [reflexivity|]. simpl. intros H.
  apply andb_prop in H as [Hc Hr]. rewrite Hc. now apply IH.
Qed.

Lemma string_app_nil_r (s : string) : (s ++ "")%string = s.
Proof. induction s as [|c t IH]; simpl; [reflexivity | now rewrite IH]. Qed.

Lemma scan_trailing_ws r s :
  all_ws r = true -> forall st, scan st (s ++ r) = scan st s.
Proof.
  intros H st. rewrite <- (string_app_nil_r s) at 2.
  apply scan_context. intros st'. now rewrite (scan_all_ws r H).
Qed.

(** Variants have the same word reading. *)
Lemma scan_variant s t : case_ws_variant s t -> scan AtStart s = scan AtStart t.
Proof.
  induction 1 as [s | x c c' y Hc | x r r' y Hr Hr' Hw Hw' | r s Hw | r s Hw
                 | s t _ IH | s t u _ IH1 _ IH2].
  - reflexivity.
  - apply scan_context. intros st'. simpl.
    rewrite (lower_char_eq_ws _ _ Hc), Hc. reflexivity.
  - apply scan_context. intros st'.
    now rewrite !scan_ws_run.
  - now apply scan_leading_ws.
  - now apply scan_trailing_ws.
  - symmetry. apply IH.
  - now rewrite IH1.
Qed.

Lemma toLowerCase_length s : String.length (toLowerCase s) = String.length s.
Proof. induction s; simpl; congruence. Qed.

Lemma replace_ws_runs_length s : String.length (replace_ws_runs s) <= String.length s.
Proof.
  induction s as [|c t IH]; simpl; [lia|].
  destruct (is_ws c); [destruct (starts_with_ws t)|]; simpl; lia.
Qed.

Lemma scan_gap_length v :
  v <> "" -> trimEnd v = v -> 2 <= String.length (scan AfterGap v).
Proof.
  induction v as [|c t IH]; [easy|]. intros _ Hfix.
  simpl. destruct (is_ws c) eqn:E; [|simpl; lia].
  apply IH; [now apply (trimEnd_fixed_ws c) | now apply (trimEnd_fixed_tail c)].
Qed.

Lemma scan_word_length v :
  v <> "" -> trimEnd v = v -> 1 <= String.length (scan InWord v).
Proof.
  destruct v as [|c t]; [easy|]. intros _ Hfix.
  simpl. destruct (is_ws c) eqn:E; [|simpl; lia].
  enough (2 <= String.length (scan AfterGap t)) by lia.
  apply scan_gap_length; [now apply (trimEnd_fixed_ws c) | now apply (trimEnd_fixed_tail c)].
Qed.

Lemma scan_trimmed_length u :
  starts_with_ws u = false -> trimEnd u = u ->
  3 <= String.length u -> 3 <= String.length (scan InWord u).
Proof.
  destruct u as [|c1 v]; simpl; [lia|]. intros Hc1 Hfix Hlen.
  change (trimEnd (String c1 v) = String c1 v) in Hfix.
  apply trimEnd_fixed_tail in Hfix. rewrite Hc1. simpl.
  destruct v as [|c2 t]; simpl in Hlen; [lia|].
  destruct t as [|c3 t']; simpl in Hlen; [lia|].
  pose proof (trimEnd_fixed_tail _ _ Hfix) as Hfix'.
  assert (Hne : String c3 t' <> "") by easy.
  remember (String c3 t') as w eqn:Hw. clear Hw Hlen.
  simpl. destruct (is_ws c2) eqn:E2.
  - enough (2 <= String.length (scan AfterGap w)) by lia.
    now apply scan_gap_length.
  - simpl. enough (1 <= String.length (scan InWord w)) by lia.
    now apply scan_word_length.
Qed.

(** A question passes the noise threshold exactly when its key has at
    least three code units. *)
Lemma threshold_key q :
  (3 <=? String.length (trim q)) = (3 <=? String.length (question_key q)).
Proof.
  apply eq_true_iff_eq. rewrite !Nat.leb_le. split; intros H.
  - unfold question_key, normalize_key.
    rewrite (replace_scan _ (trim_tail q)).
    apply scan_trimmed_length; [apply trim_head | apply trim_tail | exact H].
  - unfold question_key, normalize_key in H.
    pose proof (replace_ws_runs_length (toLowerCase (trim q))) as L.
    rewrite toLowerCase_length in L. lia.
Qed.

Lemma variant_key q1 q2 : case_ws_variant q1 q2 -> question_key q1 = question_key q2.
Proof. intros H. rewrite !question_key_scan. now apply scan_variant. Qed.

Lemma variant_key_of q1 q2 :
  case_ws_variant q1 q2 -> key_of (JStr q1) = key_of (JStr q2).
Proof.
  intros H. unfold key_of. rewrite !threshold_key, (variant_key _ _ H). reflexivity.
Qed.

(** *** Splitting at commas *)

Lemma split_nonempty sep s : split sep s <> [].
Proof.
  destruct s as [|c t]; simpl; [easy|].
  destruct (Ascii.eqb c sep); [easy|]. now destruct (split sep t).
Qed.

Lemma split_no_comma s : no_comma s = true -> split "," s = [s].
Proof.
  induction s as [|c t IH]; simpl; [reflexivity|].
  intros H. apply andb_prop in H as [Hc Ht]. apply negb_true_iff in Hc.
  now rewrite Hc, IH.
Qed.

Lemma split_prefix a s :
  no_comma a = true -> split "," (a ++ String "," s) = a :: split "," s.
Proof.
  induction a as [|c t IH]; simpl; [reflexivity|].
  intros H. apply andb_prop in H as [Hc Ht]. apply negb_true_iff in Hc.
  now rewrite Hc, IH.
Qed.

Lemma no_comma_app x y : no_comma (x ++ y) = no_comma x && no_comma y.
Proof.
  induction x as [|c t IH]; simpl; [reflexivity|]. now rewrite IH, andb_assoc.
Qed.

Lemma string_app_assoc (x y z : string) : ((x ++ y) ++ z = x ++ (y ++ z))%string.
Proof. induction x as [|c t IH]; simpl; [reflexivity | now rewrite IH]. Qed.

(** *** Variants and keys *)

Section VariantFacts.

Local Open Scope string_scope.

Lemma all_ws_app r r' : all_ws (r ++ r') = all_ws r && all_ws r'.
Proof. induction r as [|c r IH]; simpl; [reflexivity|]. now rewrite IH, andb_assoc. Qed.

(** A question differs from its word reading only in letter case and in
    white space. *)
Lemma word_reading_inside t :
  (forall x, case_ws_variant (x ++ t) (x ++ scan InWord t)) /\
  (forall x r, r <> "" -> all_ws r = true ->
     case_ws_variant (x ++ r ++ t) (x ++ scan AfterGap t)).
Proof.
  induction t as [|c t [IHw IHg]].
  - split.
    + intros x. apply cwv_refl.
    + intros x r _ Hr. cbn [scan]. rewrite !string_app_nil_r.
      now apply cwv_trail.
  - assert (Hword : forall x, case_ws_variant (x ++ String c t)
                                 (x ++ String (lower_char c) (scan InWord t))).
    { intros x. apply (cwv_trans _ (x ++ String (lower_char c) t)).
      - apply cwv_case. symmetry. apply lower_char_idem.
      - specialize (IHw (x ++ String (lower_char c) "")).
        rewrite !string_app_assoc in IHw. exact IHw. }
    split.
    + intros x. cbn [scan]. destruct (is_ws c) eqn:E.
      * cbn [after_ws].
        apply (IHg x (String c "")); [discriminate | simpl; now rewrite E].
      * apply Hword.
    + intros x r Hne Hr. cbn [scan]. destruct (is_ws c) eqn:E.
      * cbn [after_ws].
        specialize (IHg x (r ++ String c "")).
        rewrite !string_app_assoc in IHg. apply IHg.
        -- destruct r; discriminate.
        -- rewrite all_ws_app, Hr. simpl. now rewrite E.
      * apply (cwv_trans _ (x ++ " " ++ String c t)).
        -- apply cwv_ws; [exact Hne | discriminate | exact Hr | reflexivity].
        -- specialize (Hword (x ++ " ")).
           rewrite !string_app_assoc in Hword. exact Hword.
Qed.

Lemma word_reading_variant q : case_ws_variant q (scan AtStart q).
Proof.
  induction q as [|c t IH]; [apply cwv_refl|].
  cbn [scan]. destruct (is_ws c) eqn:E.
  - cbn [after_ws]. apply (cwv_trans _ t); [|exact IH].
    apply (cwv_lead (String c "") t). simpl. now rewrite E.
  - apply (cwv_trans _ (String (lower_char c) t)).
    + apply (cwv_case "" c (lower_char c) t). symmetry. apply lower_char_idem.
    + apply (proj1 (word_reading_inside t) (String (lower_char c) "")).
Qed.

(** Two questions have the same key exactly when they differ only in
    letter case and in white space. *)
Lemma variant_iff_key q1 q2 :
  case_ws_variant q1 q2 <-> question_key q1 = question_key q2.
Proof.
  split; [apply variant_key|]. rewrite !question_key_scan. intros H.
  apply (cwv_trans _ (scan AtStart q1)); [apply word_reading_variant|].
  rewrite H. apply cwv_sym, word_reading_variant.
Qed.
End VariantFacts.

(* ================================================================== *)
(** ** The question map *)
(* ================================================================== *)

Section QuestionMapFacts.

Implicit Types (m : QuestionMap) (k : string) (e : Entry) (o : occurrence).

Lemma build_questionMap_fold D :
  build_questionMap D = fold_left add_occurrence (occurrences D) [].
Proof.
  unfold build_questionMap. generalize (@nil (string * Entry)) as m.
  induction D as [|ex D IH]; intros m; simpl; [reflexivity|].
  rewrite fold_left_app, IH. f_equal.
  unfold add_extraction, safe_year.
  generalize (js_or (year ex) (JStr "Unknown")) as y. intros y.
  revert m. induction (questions ex) as [|q qs IHq]; intros m; simpl; [reflexivity|].
  apply IHq.
Qed.

Lemma add_occurrence_spec m o :
  add_occurrence m o =
  match key_of (fst o) with
  | None => m
  | Some k =>
      if map_has m k then push_year m k (snd o)
      else m ++ [(k, {| text := clean_text (fst o); years := [snd o] |})]
  end.
Proof.
  destruct o as [q y]. unfold add_occurrence, add_question, key_of.
  cbn [fst snd].
  destruct q as [| |b|n|s|l|ps]; cbn [truthy is_string negb orb clean_text];
    try reflexivity;
    try (destruct b; reflexivity); try (destruct (Qeq_bool n 0); reflexivity).
  rewrite Nat.ltb_antisym. unfold question_key, map_set_new.
  destruct (s =? "")%string eqn:Es; cbn [negb orb].
  - apply String.eqb_eq in Es. subst s. reflexivity.
  - destruct (3 <=? String.length (trim s)); reflexivity.
Qed.

Lemma map_has_get m k :
  map_has m k = match map_get m k with Some _ => true | None => false end.
Proof.
  induction m as [|[k0 e0] m IH]; simpl; [reflexivity|].
  destruct (k0 =? k)%string; simpl; [reflexivity | exact IH].
Qed.

Lemma map_has_In m k : map_has m k = true <-> In k (map fst m).
Proof.
  induction m as [|[k0 e0] m IH]; simpl; [easy|].
  rewrite orb_true_iff, IH, String.eqb_eq. reflexivity.
Qed.

Lemma map_get_app m m' k :
  map_get (m ++ m') k =
  match map_get m k with Some e => Some e | None => map_get m' k end.
Proof.
  induction m as [|[k0 e0] m IH]; simpl; [reflexivity|].
  destruct (k0 =? k)%string; [reflexivity | exact IH].
Qed.

Lemma map_get_push m k y k' :
  map_get (push_year m k y) k' =
  if (k =? k')%string
  then match map_get m k with
       | Some e => Some {| text := text e; years := years e ++ [y] |}
       | None => None
       end
  else map_get m k'.
Proof.
  induction m as [|[k0 e0] m IH]; simpl.
  - now destruct (k =? k')%string.
  - destruct (k0 =? k)%string eqn:E0; simpl.
    + apply String.eqb_eq in E0. subst k0.
      destruct (k =? k')%string; reflexivity.
    + destruct (k0 =? k')%string eqn:E1; [|exact IH].
      apply String.eqb_eq in E1. subst k0. now rewrite String.eqb_sym, E0.
Qed.

Lemma map_get_add m o k :
  map_get (add_occurrence m o) k = entry_after k (map_get m k) [o].
Proof.
  rewrite add_occurrence_spec. unfold entry_after, has_key. simpl.
  destruct (key_of (fst o)) as [k'|]; simpl.
  - rewrite map_has_get. destruct (map_get m k') as [e'|] eqn:G'.
    + rewrite map_get_push, G'.
      destruct (k' =? k)%string eqn:E; simpl.
      * apply String.eqb_eq in E. subst k'. now rewrite G'.
      * destruct (map_get m k) as [[t ys]|]; simpl; [now rewrite app_nil_r | reflexivity].
    + rewrite map_get_app. simpl.
      destruct (k' =? k)%string eqn:E; simpl.
      * apply String.eqb_eq in E. subst k'. now rewrite G'.
      * destruct (map_get m k) as [[t ys]|]; simpl; [now rewrite app_nil_r | reflexivity].
  - destruct (map_get m k) as [[t ys]|]; simpl; [now rewrite app_nil_r | reflexivity].
Qed.

Lemma entry_after_cons k prev o os :
  entry_after k prev (o :: os) = entry_after k (entry_after k prev [o]) os.
Proof.
  unfold entry_after. simpl.
  destruct prev as [e|]; destruct (has_key k o); simpl;
    rewrite ?app_nil_r, <- ?app_assoc; reflexivity.
Qed.

(** The entry of every key after a whole sequence of occurrences. *)
Lemma map_get_fold os : forall m k,
  map_get (fold_left add_occurrence os m) k = entry_after k (map_get m k) os.
Proof.
  induction os as [|o os IH]; intros m k.
  - simpl. unfold entry_after. simpl.
    destruct (map_get m k) as [[t ys]|]; simpl; [now rewrite app_nil_r | reflexivity].
  - simpl. rewrite IH, map_get_add. symmetry. apply entry_after_cons.
Qed.

Lemma map_get_build D k :
  map_get (build_questionMap D) k = entry_after k None (occurrences D).
Proof. rewrite build_questionMap_fold. apply map_get_fold. Qed.

(** *** Counting *)

Lemma total_years_app m m' : total_years (m ++ m') = total_years m + total_years m'.
Proof.
  unfold total_years. induction m as [|kv m IH]; simpl; [reflexivity|].
  rewrite IH. lia.
Qed.

Lemma total_years_push m k y :
  map_has m k = true -> total_years (push_year m k y) = S (total_years m).
Proof.
  unfold total_years.
  induction m as [|[k0 e0] m IH]; simpl; [discriminate|].
  destruct (k0 =? k)%string; simpl; intros H.
  - rewrite length_app. simpl. lia.
  - rewrite IH by exact H. lia.
Qed.

Lemma total_years_add m o :
  total_years (add_occurrence m o) = total_years m + (if accepted o then 1 else 0).
Proof.
  rewrite add_occurrence_spec. unfold accepted.
  destruct (key_of (fst o)) as [k|]; [|lia].
  destruct (map_has m k) eqn:H.
  - rewrite total_years_push by exact H. lia.
  - rewrite total_years_app. reflexivity.
Qed.

Lemma total_years_fold os : forall m,
  total_years (fold_left add_occurrence os m)
  = total_years m + List.length (filter accepted os).
Proof.
  induction os as [|o os IH]; intros m; simpl; [lia|].
  rewrite IH, total_years_add. destruct (accepted o); simpl; lia.
Qed.

Lemma has_years_push m k y : Forall has_years m -> Forall has_years (push_year m k y).
Proof.
  induction 1 as [|[k0 e0] m H0 Hm IH]; simpl; [constructor|].
  destruct (k0 =? k)%string; constructor; auto.
  unfold has_years. simpl. now destruct (years e0).
Qed.

Lemma has_years_fold os : forall m,
  Forall has_years m -> Forall has_years (fold_left add_occurrence os m).
Proof.
  induction os as [|o os IH]; intros m Hm; simpl; [exact Hm|].
  apply IH. rewrite add_occurrence_spec.
  destruct (key_of (fst o)) as [k|]; [|exact Hm].
  destruct (map_has m k).
  - now apply has_years_push.
  - apply Forall_app. split; [exact Hm|]. constructor; [easy | constructor].
Qed.

End QuestionMapFacts.

(* ================================================================== *)
(** ** Aggregating the aggregate *)
(* ================================================================== *)

Section Reaggregation.

Implicit Types (m pre rest : QuestionMap) (k : string) (e : Entry) (o : occurrence).

Lemma map_fst_push m k y : map fst (push_year m k y) = map fst m.
Proof.
  induction m as [|[k0 e0] m IH]; simpl; [reflexivity|].
  destruct (k0 =? k)%string; simpl; [reflexivity | now rewrite IH].
Qed.

Lemma entry_ok_push m k y :
  truthy y = true -> Forall entry_ok m -> Forall entry_ok (push_year m k y).
Proof.
  intros Hy. induction 1 as [|[k0 e0] m H0 Hm IH]; simpl; [constructor|].
  destruct (k0 =? k)%string; constructor; auto.
  destruct H0 as (H1 & H2 & H3 & H4 & H5). unfold entry_ok. simpl in *.
  repeat split; auto.
  - now destruct (years e0).
  - apply Forall_app. split; [exact H5 | now constructor].
Qed.

Lemma key_of_Some q k :
  key_of q = Some k ->
  3 <= String.length (clean_text q) /\ normalize_key (clean_text q) = k.
Proof.
  unfold key_of, clean_text. destruct q as [| |b|n|s|l|ps]; try discriminate.
  destruct (3 <=? String.length (trim s)) eqn:E; [|discriminate].
  apply Nat.leb_le in E. intros [= <-]. now split.
Qed.

Lemma well_formed_add m o :
  truthy (snd o) = true -> well_formed m -> well_formed (add_occurrence m o).
Proof.
  intros Hy [Hnd Hok]. rewrite add_occurrence_spec.
  destruct (key_of (fst o)) as [k|] eqn:Hk; [|now split].
  destruct (map_has m k) eqn:Hhas.
  - split; [now rewrite map_fst_push | now apply entry_ok_push].
  - apply key_of_Some in Hk as [Hlen Hkey]. split.
    + rewrite map_app. simpl. apply NoDup_app. repeat split.
      * exact Hnd.
      * constructor; [easy | constructor].
      * intros a Ha [<-|[]]. apply map_has_In in Ha. congruence.
    + apply Forall_app. split; [exact Hok|]. constructor; [|constructor].
      unfold entry_ok. simpl. repeat split; auto.
      * destruct (fst o); simpl; try reflexivity. apply trim_idem.
      * easy.
Qed.

Lemma well_formed_fold os : forall m,
  Forall (fun o => truthy (snd o) = true) os ->
  well_formed m -> well_formed (fold_left add_occurrence os m).
Proof.
  induction os as [|o os IH]; intros m Hos Hm; simpl; [exact Hm|].
  inversion Hos; subst. apply IH; [assumption|]. now apply well_formed_add.
Qed.

Lemma safe_year_truthy ex : truthy (safe_year ex) = true.
Proof.
  unfold safe_year, js_or. destruct (truthy (year ex)) eqn:E; [exact E | reflexivity].
Qed.

Lemma occurrences_truthy D : Forall (fun o => truthy (snd o) = true) (occurrences D).
Proof.
  unfold occurrences. apply Forall_forall. intros o Ho.
  apply in_flat_map in Ho as (ex & _ & Ho). apply in_map_iff in Ho as (q & <- & _).
  apply safe_year_truthy.
Qed.

Lemma well_formed_build D : well_formed (build_questionMap D).
Proof.
  rewrite build_questionMap_fold.
  apply well_formed_fold; [apply occurrences_truthy | split; constructor].
Qed.

Lemma push_year_last pre k e y :
  map_has pre k = false ->
  push_year (pre ++ [(k, e)]) k y
  = pre ++ [(k, {| text := text e; years := years e ++ [y] |})].
Proof.
  induction pre as [|[k0 e0] pre IH]; simpl; intros H.
  - now rewrite String.eqb_refl.
  - apply orb_false_iff in H as [H0 H1]. rewrite H0, IH by exact H1. reflexivity.
Qed.

Lemma map_has_last pre k e : map_has (pre ++ [(k, e)]) k = true.
Proof.
  apply map_has_In. rewrite map_app. apply in_or_app. right. now left.
Qed.

(** Further occurrences of a key that is the last of the map extend
    its years. *)
Lemma add_repeated q k ys : key_of q = Some k ->
  forall pre t l, map_has pre k = false ->
  fold_left add_occurrence (map (fun y => (q, y)) ys)
            (pre ++ [(k, {| text := t; years := l |})])
  = pre ++ [(k, {| text := t; years := l ++ ys |})].
Proof.
  intros Hk. induction ys as [|y ys IH]; intros pre t l Hpre; simpl.
  - now rewrite app_nil_r.
  - rewrite add_occurrence_spec. simpl. rewrite Hk, map_has_last.
    rewrite push_year_last by exact Hpre. simpl.
    rewrite IH by exact Hpre. now rewrite <- app_assoc.
Qed.

Lemma occurrences_reflatten_cons src k e rest :
  Forall (fun y => truthy y = true) (years e) ->
  occurrences (reflatten src ((k, e) :: rest))
  = map (fun y => (JStr (text e), y)) (years e) ++ occurrences (reflatten src rest).
Proof.
  intros Hy. unfold occurrences, reflatten. simpl.
  rewrite flat_map_app. f_equal.
  induction Hy as [|y ys Hy _ IH]; simpl; [reflexivity|].
  rewrite IH. unfold safe_year, js_or. simpl. now rewrite Hy.
Qed.

Lemma reaggregate src rest : forall pre,
  well_formed (pre ++ rest) ->
  fold_left add_occurrence (occurrences (reflatten src rest)) pre = pre ++ rest.
Proof.
  induction rest as [|[k e] rest IH]; intros pre Hwf.
  - simpl. now rewrite app_nil_r.
  - destruct Hwf as [Hnd Hok].
    pose proof (Forall_elt _ _ _ Hok) as (Htrim & Hlen & Hkey & Hne & Hty).
    simpl in Htrim, Hlen, Hkey, Hne, Hty.
    rewrite occurrences_reflatten_cons by exact Hty.
    rewrite fold_left_app.
    assert (Hk : key_of (JStr (text e)) = Some k).
    { unfold key_of, question_key. rewrite Htrim, Hkey.
      apply Nat.leb_le in Hlen. now rewrite Hlen. }
    assert (Hpre : map_has pre k = false).
    { destruct (map_has pre k) eqn:E; [|reflexivity].
      apply map_has_In in E. rewrite map_app in Hnd. simpl in Hnd.
      apply NoDup_remove_2 in Hnd. exfalso. apply Hnd. apply in_or_app. now left. }
    destruct e as [t ys]. cbn [text years] in *. destruct ys as [|y0 ys]; [easy|].
    cbn [map fold_left]. rewrite add_occurrence_spec. cbn [fst snd].
    rewrite Hk, Hpre. cbn [clean_text]. rewrite Htrim.
    rewrite (add_repeated _ _ ys Hk) by exact Hpre. cbn [app].
    rewrite IH.
    + now rewrite <- app_assoc.
    + rewrite <- app_assoc. now split.
Qed.

Lemma filter_permutation {A} (f : A -> bool) l l' :
  Permutation l l' -> Permutation (filter f l) (filter f l').
Proof.
  induction 1 as [|x l l' _ IH|x y l|l l' l'' _ IH1 _ IH2]; simpl.
  - constructor.
  - destruct (f x); [now constructor | exact IH].
  - destruct (f x), (f y); try reflexivity. constructor.
  - now transitivity (filter f l').
Qed.

Lemma years_at_build D k :
  years_at k (build_questionMap D) = map snd (filter (has_key k) (occurrences D)).
Proof.
  unfold years_at. rewrite map_get_build. unfold entry_after.
  now destruct (filter (has_key k) (occurrences D)).
Qed.

Lemma map_has_build D k :
  map_has (build_questionMap D) k = existsb (has_key k) (occurrences D).
Proof.
  rewrite map_has_get, map_get_build. unfold entry_after.
  induction (occurrences D) as [|o os IH]; simpl; [reflexivity|].
  destruct (has_key k o); simpl; [reflexivity | exact IH].
Qed.

Lemma existsb_permutation {A} (f : A -> bool) l l' :
  Permutation l l' -> existsb f l = existsb f l'.
Proof.
  induction 1 as [|x l l' _ IH|x y l|l l' l'' _ IH1 _ IH2]; simpl.
  - reflexivity.
  - now rewrite IH.
  - destruct (f x), (f y); reflexivity.
  - congruence.
Qed.

End Reaggregation.

(* ================================================================== *)
(** ** Duplicate removal through a [Set] *)
(* ================================================================== *)

Section SetFacts.

Lemma existsb_sameValueZero x seen :
  existsb (sameValueZero (JStr x)) (map JStr seen) = existsb (String.eqb x) seen.
Proof. induction seen as [|s seen IH]; simpl; [reflexivity | now rewrite IH]. Qed.

Lemma filter_filter {A} (f g : A -> bool) l :
  filter f (filter g l) = filter (fun y => f y && g y) l.
Proof.
  induction l as [|a l IH]; simpl; [reflexivity|].
  destruct (g a); simpl; rewrite ?andb_true_r, ?andb_false_r;
    [destruct (f a)|]; now rewrite IH.
Qed.

Lemma fold_set_add l : forall seen,
  fold_left set_add (map JStr l) (map JStr seen)
  = map JStr (seen ++ filter (unseen seen) (first_occurrences l)).
Proof.
  induction l as [|x t IH]; intros seen; simpl.
  - now rewrite app_nil_r.
  - unfold set_add at 2. rewrite existsb_sameValueZero. unfold unseen at 1.
    destruct (existsb (String.eqb x) seen) eqn:E; simpl.
    + rewrite IH. do 2 f_equal. rewrite filter_filter.
      apply filter_ext. intros y. unfold unseen.
      destruct (y =? x)%string eqn:Eyx; simpl; [|now rewrite andb_true_r].
      apply String.eqb_eq in Eyx. subst y. now rewrite E.
    + change (map JStr seen ++ [JStr x]) with (map JStr seen ++ map JStr [x]).
      rewrite <- map_app, IH, <- app_assoc. do 2 f_equal. simpl. f_equal.
      rewrite filter_filter. apply filter_ext. intros y. unfold unseen.
      rewrite existsb_app. simpl. rewrite orb_false_r.
      now rewrite negb_orb.
Qed.

Lemma array_from_set_strings l :
  array_from_set (map JStr l) = map JStr (first_occurrences l).
Proof.
  unfold array_from_set. change (@nil jsval) with (map JStr []).
  rewrite fold_set_add. simpl. f_equal.
  rewrite <- (filter_ext (fun _ => true)) by reflexivity.
  induction (first_occurrences l) as [|a r IH]; simpl; [reflexivity | now rewrite IH].
Qed.

Lemma first_occurrences_In l q : In q (first_occurrences l) <-> In q l.
Proof.
  induction l as [|x t IH]; simpl; [reflexivity|].
  rewrite filter_In, IH, negb_true_iff, String.eqb_neq.
  destruct (string_dec x q) as [->|N]; [tauto|].
  split; [tauto|]. intros [H|H]; [tauto|]. right. split; [exact H | congruence].
Qed.

Lemma first_occurrences_NoDup l : NoDup (first_occurrences l).
Proof.
  induction l as [|x t IH]; simpl; constructor.
  - rewrite filter_In, negb_true_iff, String.eqb_neq. tauto.
  - now apply NoDup_filter.
Qed.

End SetFacts.

(* ================================================================== *)
(** ** Image dimensions *)
(* ================================================================== *)

Section DimensionFacts.

Variable fp : Doubles.

Local Open Scope Q_scope.

Lemma Qgtb_true x y : Qgtb x y = true <-> y < x.
Proof.
  unfold Qgtb. rewrite negb_true_iff. split; intros H.
  - apply Qnot_le_lt. intros L. apply Qle_bool_iff in L. congruence.
  - destruct (Qle_bool x y) eqn:E; [|reflexivity].
    apply Qle_bool_iff in E. exfalso. now apply (Qlt_not_le _ _ H).
Qed.

Lemma Qgtb_false x y : Qgtb x y = false <-> x <= y.
Proof.
  unfold Qgtb. rewrite negb_false_iff. apply Qle_bool_iff.
Qed.

(** An image within the bound keeps its dimensions. *)
Lemma new_dimensions_small w h :
  w <= MAX_IMAGE_DIMENSION -> h <= MAX_IMAGE_DIMENSION ->
  new_dimensions fp w h = (w, h).
Proof.
  intros Hw Hh. unfold new_dimensions.
  apply Qgtb_false in Hw, Hh. now rewrite Hw, Hh.
Qed.

Lemma rnd_one : rnd fp 1 == 1.
Proof. apply (rnd_int fp 1). now vm_compute. Qed.

Lemma rnd_small_int z : (0 <= z <= 2 ^ 31)%Z -> rnd fp (inject_Z z) == inject_Z z.
Proof. intros H. apply rnd_int. lia. Qed.

Lemma inject_Z_bounds z lo hi :
  (lo <= z <= hi)%Z -> inject_Z lo <= inject_Z z /\ inject_Z z <= inject_Z hi.
Proof. intros [H1 H2]. now rewrite <- !Zle_Qle. Qed.

(** The side [a] of an image scaled by [1536 / b], where [b] is the
    larger side: the two roundings of [a * (1536 / b)] leave it between
    0 and [a], below 1537, and within three unit roundoffs of the exact
    proportion. *)
Lemma scaled_side a b :
  (1 <= a)%Z -> (a <= b)%Z -> (1536 < b)%Z -> (b <= 2 ^ 31)%Z ->
  let r := js_mul fp (inject_Z a) (js_div fp MAX_IMAGE_DIMENSION (inject_Z b)) in
  0 <= r /\ r <= inject_Z a /\ r < 1537 /\
  Qabs (inject_Z b * r - MAX_IMAGE_DIMENSION * inject_Z a)
  <= MAX_IMAGE_DIMENSION * inject_Z a * (3 * unit_roundoff).
Proof.
  intros Ha Hab Hb Hb31. unfold js_mul, js_div, MAX_IMAGE_DIMENSION.
  destruct (inject_Z_bounds a 1 (2 ^ 31)) as [A1 A2]; [lia|].
  destruct (inject_Z_bounds b 1537 (2 ^ 31)) as [B1 B2]; [lia|].
  assert (AB : inject_Z a <= inject_Z b) by now rewrite <- Zle_Qle.
  assert (RA : rnd fp (inject_Z a) == inject_Z a) by (apply rnd_small_int; lia).
  change (inject_Z 1) with 1 in A1. change (inject_Z 1537) with 1537 in B1.
  change (inject_Z (2 ^ 31)) with 2147483648 in A2, B2.
  revert A1 A2 B1 B2 AB RA.
  generalize (inject_Z a) as A. generalize (inject_Z b) as B.
  intros B A A1 A2 B1 B2 AB RA.
  set (q := 1536 / B).
  assert (HqB : q * B == 1536) by (unfold q; field; lra).
  assert (Hq0 : range_min <= q).
  { unfold q, range_min. apply Qle_shift_div_l; lra. }
  assert (Hq1 : q <= 1).
  { unfold q. apply Qle_shift_div_r; lra. }
  assert (Hqm : q <= range_max) by (unfold range_max; lra).
  destruct (rnd_err fp q Hq0 Hqm) as [E1 E2].
  assert (R1 : rnd fp q <= 1).
  { apply (Qle_trans _ (rnd fp 1)); [now apply rnd_mono|].
    rewrite rnd_one. apply Qle_refl. }
  set (r1 := rnd fp q) in *.
  unfold range_min, unit_roundoff in *.
  assert (Hr1 : 0 <= r1) by lra.
  (* the products with [A] and [B] *)
  assert (P1 : A * r1 <= A) by (rewrite <- (Qmult_1_r A) at 2; apply Qmult_le_l; lra).
  assert (P0 : r1 <= A * r1).
  { rewrite <- (Qmult_1_l r1) at 1. apply Qmult_le_compat_r; lra. }
  assert (Hp0 : (1 # 18446744073709551616) <= A * r1).
  { apply (Qle_trans _ r1); [|exact P0].
    assert (1 # 4294967296 <= q); [|lra].
    unfold q. apply Qle_shift_div_l; lra. }
  assert (Hpm : A * r1 <= range_max) by (unfold range_max; lra).
  destruct (rnd_err fp (A * r1) Hp0 Hpm) as [F1 F2].
  assert (R2 : rnd fp (A * r1) <= A).
  { apply (Qle_trans _ (rnd fp A)); [now apply rnd_mono|].
    rewrite RA. apply Qle_refl. }
  set (p := A * r1) in *. set (r := rnd fp p) in *.
  unfold unit_roundoff in *.
  (* [m] is the exact product [A * q] *)
  assert (M1 : A * q <= 1536).
  { rewrite <- HqB, (Qmult_comm q B). apply Qmult_le_compat_r; [exact AB|].
    unfold q. apply Qle_shift_div_l; lra. }
  assert (M2 : p <= A * q + A * q * (1 # 9007199254740992)).
  { unfold p.
    setoid_replace (A * q + A * q * (1 # 9007199254740992))
      with (A * (q + q * (1 # 9007199254740992))) by ring.
    apply Qmult_le_l; lra. }
  assert (M0 : 0 <= A * q) by (apply Qmult_le_0_compat; lra).
  (* the same with [B] in front *)
  assert (T1 : B * r <= B * p + B * p * (1 # 9007199254740992)).
  { setoid_replace (B * p + B * p * (1 # 9007199254740992))
      with (B * (p + p * (1 # 9007199254740992))) by ring.
    apply Qmult_le_l; lra. }
  assert (T2 : B * p - B * p * (1 # 9007199254740992) <= B * r).
  { setoid_replace (B * p - B * p * (1 # 9007199254740992))
      with (B * (p - p * (1 # 9007199254740992))) by ring.
    apply Qmult_le_l; lra. }
  assert (S1 : B * p <= 1536 * A + 1536 * A * (1 # 9007199254740992)).
  { unfold p.
    setoid_replace (B * (A * r1)) with (A * (B * r1)) by ring.
    setoid_replace (1536 * A + 1536 * A * (1 # 9007199254740992))
      with (A * (B * (q + q * (1 # 9007199254740992)))) by (unfold q; field; lra).
    apply Qmult_le_l; [lra|]. apply Qmult_le_l; lra. }
  assert (S2 : 1536 * A - 1536 * A * (1 # 9007199254740992) <= B * p).
  { unfold p.
    setoid_replace (B * (A * r1)) with (A * (B * r1)) by ring.
    setoid_replace (1536 * A - 1536 * A * (1 # 9007199254740992))
      with (A * (B * (q - q * (1 # 9007199254740992)))) by (unfold q; field; lra).
    apply Qmult_le_l; [lra|]. apply Qmult_le_l; lra. }
  assert (S0 : 0 <= B * p) by lra.
  repeat split.
  - lra.
  - exact R2.
  - lra.
  - apply Qabs_Qle_condition. split; lra.
Qed.

Lemma to_unsigned_long_side r :
  0 <= r -> r < 1537 -> (0 <= to_unsigned_long r <= 1536)%Z.
Proof.
  intros H0 H1. unfold to_unsigned_long.
  assert (0 <= Qfloor r)%Z by (change 0%Z with (Qfloor 0); now apply Qfloor_resp_le).
  assert (Qfloor r < 1537)%Z.
  { rewrite Zlt_Qlt. eapply Qle_lt_trans; [apply Qfloor_le | exact H1]. }
  rewrite Z.mod_small; lia.
Qed.

(** An image beyond the bound: the larger dimension becomes the bound,
    the other one is scaled down in proportion (up to the rounding of
    one division and one multiplication), and the larger side of the
    canvas has exactly 1536 pixels. *)
Lemma new_dimensions_large (w h : Z) :
  (1 <= w <= 2 ^ 31)%Z -> (1 <= h <= 2 ^ 31)%Z ->
  (1536 < w)%Z \/ (1536 < h)%Z ->
  let dims := new_dimensions fp (inject_Z w) (inject_Z h) in
  ((h < w)%Z -> fst dims = MAX_IMAGE_DIMENSION) /\
  ((w <= h)%Z -> snd dims = MAX_IMAGE_DIMENSION) /\
  fst dims <= inject_Z w /\ snd dims <= inject_Z h /\
  Z.max (to_unsigned_long (fst dims)) (to_unsigned_long (snd dims)) = 1536%Z /\
  Qabs (fst dims * inject_Z h - inject_Z w * snd dims)
  <= MAX_IMAGE_DIMENSION * inject_Z (Z.min w h) * (3 * unit_roundoff).
Proof.
  intros Hw Hh Hbig dims. subst dims. unfold new_dimensions.
  assert (Hguard : Qgtb (inject_Z w) MAX_IMAGE_DIMENSION
                   || Qgtb (inject_Z h) MAX_IMAGE_DIMENSION = true).
  { apply orb_true_iff. rewrite !Qgtb_true. unfold MAX_IMAGE_DIMENSION.
    change 1536 with (inject_Z 1536). now rewrite <- !Zlt_Qlt. }
  rewrite Hguard.
  assert (Hmax : to_unsigned_long MAX_IMAGE_DIMENSION = 1536%Z) by reflexivity.
  destruct (Qgtb (inject_Z w) (inject_Z h)) eqn:E.
  - apply Qgtb_true in E. rewrite <- Zlt_Qlt in E.
    assert (Hbw : (1536 < w)%Z) by lia.
    destruct (scaled_side h w) as (S0 & S1 & S2 & S3); try lia.
    cbn [fst snd]. rewrite Hmax, Z.min_r by lia.
    pose proof (to_unsigned_long_side _ S0 S2).
    repeat split; try (intros; lia); try assumption.
    + unfold MAX_IMAGE_DIMENSION. change 1536 with (inject_Z 1536).
      rewrite <- Zle_Qle. lia.
    + rewrite <- Qabs_opp.
      eapply Qle_trans; [|exact S3]. apply Qle_lteq. right.
      apply Qabs_wd. ring.
  - apply Qgtb_false in E. rewrite <- Zle_Qle in E.
    assert (Hbh : (1536 < h)%Z) by lia.
    destruct (scaled_side w h) as (S0 & S1 & S2 & S3); try lia.
    cbn [fst snd]. rewrite Hmax, Z.min_l by lia.
    pose proof (to_unsigned_long_side _ S0 S2).
    repeat split; try (intros; lia); try assumption.
    + unfold MAX_IMAGE_DIMENSION. change 1536 with (inject_Z 1536).
      rewrite <- Zle_Qle. lia.
    + eapply Qle_trans; [|exact S3]. apply Qle_lteq. right.
      apply Qabs_wd. ring.
Qed.

(** Whatever the rounding, an image of 3000 by 1 gets a canvas without
    pixels. *)
Lemma thin_image_canvas :
  to_unsigned_long (snd (new_dimensions fp (inject_Z 3000) (inject_Z 1))) = 0%Z.
Proof.
  unfold new_dimensions.
  change (Qgtb (inject_Z 3000) MAX_IMAGE_DIMENSION) with true.
  change (Qgtb (inject_Z 3000) (inject_Z 1)) with true. cbn [orb snd].
  destruct (scaled_side 1 3000) as (S0 & _ & _ & S3); try lia.
  set (r := js_mul fp (inject_Z 1) (js_div fp MAX_IMAGE_DIMENSION (inject_Z 3000))) in *.
  apply Qabs_Qle_condition in S3 as [_ S3].
  unfold MAX_IMAGE_DIMENSION, unit_roundoff in S3.
  change (inject_Z 3000) with 3000 in S3. change (inject_Z 1) with 1 in S3.
  assert (R1 : r < 1) by lra.
  unfold to_unsigned_long.
  assert (0 <= Qfloor r)%Z by (change 0%Z with (Qfloor 0); now apply Qfloor_resp_le).
  assert (Qfloor r < 1)%Z.
  { rewrite Zlt_Qlt. eapply Qle_lt_trans; [apply Qfloor_le | exact R1]. }
  replace (Qfloor r) with 0%Z by lia. reflexivity.
Qed.

(** *** The canvas in whole pixels *)

Lemma to_unsigned_long_floor r :
  0 <= r -> r < 1537 -> to_unsigned_long r = Qfloor r.
Proof.
  intros H0 H1. unfold to_unsigned_long.
  assert (0 <= Qfloor r)%Z by (change 0%Z with (Qfloor 0); now apply Qfloor_resp_le).
  assert (Qfloor r < 1537)%Z.
  { rewrite Zlt_Qlt. eapply Qle_lt_trans; [apply Qfloor_le | exact H1]. }
  rewrite Z.mod_small; lia.
Qed.

Lemma scaled_pixels a b :
  (1 <= a)%Z -> (a <= b)%Z -> (1536 < b)%Z -> (b <= 2 ^ 31)%Z ->
  pixel_scaled a b
    (to_unsigned_long
       (js_mul fp (inject_Z a) (js_div fp MAX_IMAGE_DIMENSION (inject_Z b)))).
Proof.
  intros Ha Hab Hb Hb31.
  destruct (scaled_side a b Ha Hab Hb Hb31) as (S0 & _ & S2 & S3).
  set (r := js_mul fp (inject_Z a) (js_div fp MAX_IMAGE_DIMENSION (inject_Z b))) in *.
  rewrite (to_unsigned_long_floor r S0 S2).
  pose proof (Qfloor_le r) as F1. pose proof (Qlt_floor r) as F2.
  rewrite inject_Z_plus in F2. change (inject_Z 1) with 1 in F2.
  apply Qabs_Qle_condition in S3 as [S3 S4].
  destruct (inject_Z_bounds a 1 (2 ^ 31)) as [A1 _]; [lia|].
  destruct (inject_Z_bounds b 1537 (2 ^ 31)) as [B1 _]; [lia|].
  assert (AB : inject_Z a <= inject_Z b) by now rewrite <- Zle_Qle.
  change (inject_Z 1) with 1 in A1. change (inject_Z 1537) with 1537 in B1.
  unfold pixel_scaled, slack. unfold MAX_IMAGE_DIMENSION, unit_roundoff in S3, S4.
  revert F1 F2 S3 S4 A1 B1 AB.
  generalize (inject_Z (Qfloor r)) as c. generalize r as x.
  generalize (inject_Z a) as A. generalize (inject_Z b) as B.
  intros B A x c F1 F2 S3 S4 A1 B1 AB.
  set (e := A * 1536 / B).
  assert (He : B * e == 1536 * A) by (unfold e; field; lra).
  assert (U : x <= e + (1 # 1099511627776)).
  { apply (Qmult_le_l _ _ B); [lra|].
    setoid_replace (B * (e + (1 # 1099511627776))) with (B * e + B * (1 # 1099511627776)) by ring.
    lra. }
  assert (L : e - (1 # 1099511627776) <= x).
  { apply (Qmult_le_l _ _ B); [lra|].
    setoid_replace (B * (e - (1 # 1099511627776))) with (B * e - B * (1 # 1099511627776)) by ring.
    lra. }
  split; lra.
Qed.
Lemma to_unsigned_long_pixels z :
  (0 <= z <= 2 ^ 31)%Z -> to_unsigned_long (inject_Z z) = z.
Proof.
  intros H. unfold to_unsigned_long. rewrite Qfloor_Z. apply Z.mod_small. lia.
Qed.

(** The canvas of an image beyond the bound. *)
Lemma canvas_large (w h : Z) :
  (1 <= w <= 2 ^ 31)%Z -> (1 <= h <= 2 ^ 31)%Z ->
  (1536 < w)%Z \/ (1536 < h)%Z ->
  let dims := new_dimensions fp (inject_Z w) (inject_Z h) in
  ((h < w)%Z ->
   to_unsigned_long (fst dims) = 1536%Z /\ pixel_scaled h w (to_unsigned_long (snd dims))) /\
  ((w <= h)%Z ->
   to_unsigned_long (snd dims) = 1536%Z /\ pixel_scaled w h (to_unsigned_long (fst dims))).
Proof.
  intros Hw Hh Hbig dims. subst dims. unfold new_dimensions.
  assert (Hguard : Qgtb (inject_Z w) MAX_IMAGE_DIMENSION
                   || Qgtb (inject_Z h) MAX_IMAGE_DIMENSION = true).
  { apply orb_true_iff. rewrite !Qgtb_true. unfold MAX_IMAGE_DIMENSION.
    change 1536 with (inject_Z 1536). now rewrite <- !Zlt_Qlt. }
  rewrite Hguard.
  destruct (Qgtb (inject_Z w) (inject_Z h)) eqn:E; cbn [fst snd].
  - apply Qgtb_true in E. rewrite <- Zlt_Qlt in E.
    split; [intros _ | lia]. split; [reflexivity|].
    apply scaled_pixels; lia.
  - apply Qgtb_false in E. rewrite <- Zle_Qle in E.
    split; [lia | intros _]. split; [reflexivity|].
    apply scaled_pixels; lia.
Qed.

(** Whatever the rounding, an image of 3000 by 3 gets a canvas of 1536
    by 1. *)
Lemma banner_canvas :
  let dims := new_dimensions fp (inject_Z 3000) (inject_Z 3) in
  (to_unsigned_long (fst dims), to_unsigned_long (snd dims)) = (1536, 1)%Z.
Proof.
  destruct (canvas_large 3000 3) as [H _]; [lia | lia | left; lia |].
  destruct H as [H1 [H2 H3]]; [lia|].
  cbv zeta. rewrite H1. f_equal.
  revert H2 H3. generalize (to_unsigned_long (snd (new_dimensions fp (inject_Z 3000) (inject_Z 3)))).
  intros c H2 H3. unfold slack in *.
  assert (L : 0 < inject_Z c).
  { eapply Qle_lt_trans; [|exact H2]. now vm_compute. }
  assert (U : inject_Z c < 2).
  { eapply Qle_lt_trans; [exact H3|]. now vm_compute. }
  change 0 with (inject_Z 0) in L. change 2 with (inject_Z 2) in U.
  rewrite <- Zlt_Qlt in L, U. lia.
Qed.

End DimensionFacts.

(* ================================================================== *)
(** ** Progress *)
(* ================================================================== *)

Section ProgressFacts.

Variable fp : Doubles.

Lemma percentage_unfold k n : percentage fp k n = Z.min 90 (Math_round (scaled fp k n)).
Proof. reflexivity. Qed.

Lemma percentage_le_90 k n : (percentage fp k n <= 90)%Z.
Proof. rewrite percentage_unfold. apply Z.le_min_l. Qed.

Lemma rnd_zero : (rnd fp 0 == 0)%Q.
Proof. apply (rnd_int fp 0). now vm_compute. Qed.

Lemma rnd_ninety : (rnd fp 90 == 90)%Q.
Proof. apply (rnd_int fp 90). now vm_compute. Qed.

Lemma rnd_nonneg x : (0 <= x)%Q -> (0 <= rnd fp x)%Q.
Proof.
  intros H. apply (Qle_trans _ (rnd fp 0)); [|now apply rnd_mono].
  rewrite rnd_zero. apply Qle_refl.
Qed.

Lemma inv_nat_nonneg n : (0 <= / inject_Z (Z.of_nat n))%Q.
Proof.
  apply Qinv_le_0_compat. change 0%Q with (inject_Z 0).
  rewrite <- Zle_Qle. lia.
Qed.

Lemma share_nonneg k n : (0 <= inject_Z (Z.of_nat k) / inject_Z (Z.of_nat n))%Q.
Proof.
  unfold Qdiv. apply Qmult_le_0_compat; [|apply inv_nat_nonneg].
  change 0%Q with (inject_Z 0). rewrite <- Zle_Qle. lia.
Qed.

Lemma share_mono k k' n : k <= k' ->
  (inject_Z (Z.of_nat k) / inject_Z (Z.of_nat n)
   <= inject_Z (Z.of_nat k') / inject_Z (Z.of_nat n))%Q.
Proof.
  intros H. unfold Qdiv. apply Qmult_le_compat_r; [|apply inv_nat_nonneg].
  rewrite <- Zle_Qle. lia.
Qed.

Lemma scaled_nonneg k n : (0 <= scaled fp k n)%Q.
Proof.
  unfold scaled, js_mul, js_div. apply rnd_nonneg.
  apply Qmult_le_0_compat; [|easy]. apply rnd_nonneg, share_nonneg.
Qed.

Lemma scaled_mono k k' n : k <= k' -> (scaled fp k n <= scaled fp k' n)%Q.
Proof.
  intros H. unfold scaled, js_mul, js_div. apply rnd_mono.
  apply Qmult_le_compat_r; [|easy]. apply rnd_mono. now apply share_mono.
Qed.

Lemma Math_round_mono x y : (x <= y)%Q -> (Math_round x <= Math_round y)%Z.
Proof.
  intros H. unfold Math_round. apply Qfloor_resp_le.
  now apply Qplus_le_l.
Qed.

Lemma percentage_nonneg k n : (0 <= percentage fp k n)%Z.
Proof.
  rewrite percentage_unfold. apply Z.min_glb; [lia|].
  change 0%Z with (Math_round 0). apply Math_round_mono, scaled_nonneg.
Qed.

Lemma percentage_mono k k' n : k <= k' -> (percentage fp k n <= percentage fp k' n)%Z.
Proof.
  intros H. rewrite !percentage_unfold.
  apply Z.min_le_compat_l, Math_round_mono, scaled_mono, H.
Qed.

(** When every document has settled the report is 90. *)
Lemma percentage_all n : 0 < n -> percentage fp n n = 90%Z.
Proof.
  intros Hn. rewrite percentage_unfold.
  assert (E : (scaled fp n n == 90)%Q).
  { unfold scaled, js_mul, js_div.
    assert (E1 : (inject_Z (Z.of_nat n) / inject_Z (Z.of_nat n) == 1)%Q).
    { field. intros E. apply (inject_Z_injective (Z.of_nat n) 0) in E. lia. }
    assert (E2 : (rnd fp (inject_Z (Z.of_nat n) / inject_Z (Z.of_nat n)) == 1)%Q).
    { rewrite (rnd_proper fp _ _ E1). apply rnd_one. }
    assert (E3 : (rnd fp (inject_Z (Z.of_nat n) / inject_Z (Z.of_nat n)) * 90 == 90)%Q).
    { rewrite E2. reflexivity. }
    rewrite (rnd_proper fp _ _ E3). apply rnd_ninety. }
  unfold Math_round. rewrite E. reflexivity.
Qed.

(** The report is the integer nearest to the scaled share, up to the
    rounding of the two double operations. *)
Lemma percentage_near k n :
  1 <= k <= n -> (Z.of_nat n <= 2 ^ 32)%Z ->
  (ratio k n - (1 # 2) - slack < inject_Z (percentage fp k n))%Q /\
  (inject_Z (percentage fp k n) <= ratio k n + (1 # 2) + slack)%Q.
Proof.
  intros Hk Hn. rewrite percentage_unfold. unfold scaled, js_mul, js_div, ratio.
  destruct (inject_Z_bounds (Z.of_nat k) 1 (Z.of_nat n)) as [K1 K2]; [lia|].
  destruct (inject_Z_bounds (Z.of_nat n) 1 (2 ^ 32)) as [N1 N2]; [lia|].
  change (inject_Z 1) with 1%Q in K1, N1.
  change (inject_Z (2 ^ 32)) with 4294967296%Q in N2.
  revert K1 K2 N1 N2.
  generalize (inject_Z (Z.of_nat k)) as K. generalize (inject_Z (Z.of_nat n)) as N.
  intros N K K1 K2 N1 N2.
  set (x := (K / N)%Q).
  assert (X0 : ((1 # 4294967296) <= x)%Q) by (unfold x; apply Qle_shift_div_l; lra).
  assert (X1 : (x <= 1)%Q) by (unfold x; apply Qle_shift_div_r; lra).
  destruct (rnd_err fp x) as [E1 E2];
    [unfold range_min; lra | unfold range_max; lra |].
  set (r1 := rnd fp x) in *. unfold unit_roundoff in *.
  destruct (rnd_err fp (r1 * 90)%Q) as [F1 F2];
    [unfold range_min; lra | unfold range_max; lra |].
  set (r2 := rnd fp (r1 * 90)%Q) in *. unfold unit_roundoff, slack in *.
  unfold Math_round.
  pose proof (Qfloor_le (r2 + (1 # 2))) as G1.
  pose proof (Qlt_floor (r2 + (1 # 2))) as G2.
  rewrite inject_Z_plus in G2. change (inject_Z 1) with 1%Q in G2.
  destruct (Z.min_spec 90 (Qfloor (r2 + (1 # 2)))) as [[Hlt ->]|[Hle ->]].
  - apply Z.lt_le_incl in Hlt. rewrite Zle_Qle in Hlt.
    change (inject_Z 90) with 90%Q in *. split; lra.
  - split; lra.
Qed.

Lemma sorted_reports p tail :
  (forall a b, a <= b -> (p a <= p b)%Z) ->
  Sorted Z.le tail -> (forall a t, In t tail -> (p a <= t)%Z) ->
  forall d c, Sorted Z.le (map p (seq c d) ++ tail).
Proof.
  intros Hp Hs Ht. induction d as [|d IH]; intros c; simpl; [exact Hs|].
  constructor; [apply IH|].
  destruct d as [|d]; simpl.
  - destruct tail as [|t tail]; constructor. apply Ht. now left.
  - constructor. apply Hp. lia.
Qed.

Lemma monotone_run d tail :
  tail = [] \/ tail = [92%Z] \/ tail = [92%Z; 100%Z] ->
  forall n, monotone (0%Z :: phase_reports fp n d ++ tail).
Proof.
  intros Htail n. apply Sorted_StronglySorted; [exact Z.le_trans|].
  unfold phase_reports.
  assert (Hs : Sorted Z.le (map (fun k => percentage fp k n) (seq 1 d) ++ tail)).
  { apply sorted_reports.
    - intros a b. apply percentage_mono.
    - destruct Htail as [->|[->| ->]]; repeat constructor. lia.
    - intros a t Hin. pose proof (percentage_le_90 a n).
      destruct Htail as [->|[->| ->]]; simpl in Hin; intuition lia. }
  constructor; [exact Hs|].
  destruct d as [|d]; simpl.
  - destruct Htail as [->|[->| ->]]; constructor; lia.
  - constructor. apply percentage_nonneg.
Qed.

End ProgressFacts.

(* ================================================================== *)
(** ** The run *)
(* ================================================================== *)

Section RunFacts.

Variable env : Env.

Lemma same_outcome_refl s : same_outcome s s.
Proof. repeat split. Qed.

Lemma same_outcome_trans s1 s2 s3 :
  same_outcome s1 s2 -> same_outcome s2 s3 -> same_outcome s1 s3.
Proof.
  unfold same_outcome. intros (A1 & A2 & A3 & A4 & A5 & A6) (B1 & B2 & B3 & B4 & B5 & B6).
  repeat split; congruence.
Qed.

Lemma start_all_outcome files0 : forall s,
  same_outcome s (start_all files0 s) /\
  progress_log (start_all files0 s) = progress_log s.
Proof.
  unfold start_all. induction files0 as [|f fs IH]; intros s; simpl.
  - split; [apply same_outcome_refl | reflexivity].
  - destruct (IH (setFiles (update_file (id f) mark_processing) s)) as [H1 H2].
    split; [|exact H2].
    eapply same_outcome_trans; [|exact H1]. repeat split.
Qed.

Lemma settle_step files0 ps i :
  let ps' := settle env files0 ps i in
  same_outcome (fst ps) (fst ps') /\
  ((snd ps' = snd ps /\ progress_log (fst ps') = progress_log (fst ps) /\
    List.length files0 <= i) \/
   (snd ps' = S (snd ps) /\
    progress_log (fst ps')
    = progress_log (fst ps) ++ [percentage (doubles (browser env)) (S (snd ps)) (List.length files0)])).
Proof.
  unfold settle. destruct (nth_error files0 i) as [f|] eqn:E.
  - destruct (extraction_of env f); simpl; (split; [repeat split | right; split; reflexivity]).
  - simpl. split; [apply same_outcome_refl|]. left. repeat split.
    now apply nth_error_None.
Qed.

Lemma settle_all files0 schedule : forall ps,
  exists d,
    d <= List.length schedule /\
    (Forall (fun i => i < List.length files0) schedule -> d = List.length schedule) /\
    let ps' := fold_left (settle env files0) schedule ps in
    snd ps' = snd ps + d /\
    progress_log (fst ps')
    = progress_log (fst ps)
      ++ map (fun k => percentage (doubles (browser env)) k (List.length files0)) (seq (S (snd ps)) d) /\
    same_outcome (fst ps) (fst ps').
Proof.
  induction schedule as [|i sched IH]; intros ps.
  - exists 0. simpl. split; [lia|]. split; [reflexivity|].
    split; [lia|]. split; [now rewrite app_nil_r | apply same_outcome_refl].
  - destruct (settle_step files0 ps i) as [Hsame Hstep].
    destruct (IH (settle env files0 ps i)) as (d & Hd & Hall & Hsnd & Hlog & Hout).
    simpl in Hsnd, Hlog, Hout. simpl fold_left.
    destruct Hstep as [(Hc & Hl & Hi)|(Hc & Hl)].
    + exists d. split; [simpl; lia|]. split.
      { intros HF. inversion HF; subst. lia. }
      simpl. rewrite Hsnd, Hlog, Hc, Hl. split; [reflexivity|]. split; [reflexivity|].
      eapply same_outcome_trans; eassumption.
    + exists (S d). split; [simpl; lia|]. split.
      { intros HF. inversion HF; subst. simpl. f_equal. now apply Hall. }
      simpl. rewrite Hsnd, Hlog, Hc, Hl, <- app_assoc. simpl.
      split; [lia|]. split; [reflexivity|].
      eapply same_outcome_trans; eassumption.
Qed.

Lemma fold_left_count (rs : list ExtractionResult) : forall a,
  fold_left (fun acc val => acc + List.length (questions val)) rs a
  = a + question_count rs.
Proof.
  unfold question_count.
  induction rs as [|r rs IH]; intros a; simpl; [lia|]. rewrite IH. lia.
Qed.

(** What a run that passes both guards leaves behind, by the way the
    extraction and the analysis end. *)
Lemma processFiles_cases schedule s :
  files s <> [] -> API_KEY env = true ->
  exists d,
    d <= List.length schedule /\
    (Forall (fun i => i < List.length (files s)) schedule -> d = List.length schedule) /\
    let s' := processFiles env schedule s in
    let n := List.length (files s) in
    let ok := successful (extraction_results env (files s)) in
    match ok with
    | [] =>
        error s' = Some AllExtractionsFailedError /\
        analysisResults s' = None /\
        analysis_requests s' = analysis_requests s /\
        progress_log s' = progress_log s ++ 0%Z :: phase_reports (doubles (browser env)) n d ++ []
    | _ :: _ =>
        analysis_requests s' = S (analysis_requests s) /\
        match analyzeRepeatedQuestions (analysis_ai env) ok with
        | Rejected message =>
            error s' = Some (shown message) /\
            analysisResults s' = None /\
            progress_log s' = progress_log s ++ 0%Z :: phase_reports (doubles (browser env)) n d ++ [92%Z]
        | Resolved groups =>
            error s' = None /\
            analysisResults s' = Some groups /\
            summary s' = Some {| totalPapers := n;
                                 totalQuestionsExtracted := question_count ok;
                                 totalRepeatedGroups := List.length groups |} /\
            progress_log s' = progress_log s ++ 0%Z :: phase_reports (doubles (browser env)) n d ++ [92%Z; 100%Z]
        end
    end.
Proof.
  intros Hne Hkey. unfold processFiles.
  assert (Hlen : (List.length (files s) =? 0) = false)
    by (destruct (files s); [contradiction | reflexivity]).
  rewrite Hlen, Hkey. cbn [negb].
  set (s0 := setCurrentStatus (status_extracting _) _).
  destruct (start_all_outcome (files s) s0) as [Hst Hstlog].
  destruct (settle_all (files s) schedule (start_all (files s) s0, 0))
    as (d & Hd & Hall & _ & Hlog & Hout).
  exists d. split; [exact Hd|]. split; [exact Hall|].
  cbn [fst snd] in Hlog, Hout.
  pose proof (same_outcome_trans _ _ _ Hst Hout) as (_ & _ & Hres & Hsum & Herr & Hreq).
  rewrite Hstlog in Hlog.
  change (progress_log s0) with (progress_log s ++ [0%Z]) in Hlog.
  change (analysisResults s0) with (@None (list AnalysisGroup)) in Hres.
  change (analysis_requests s0) with (analysis_requests s) in Hreq.
  change (error s0) with (@None string) in Herr.
  unfold try_block, extraction_results.
  set (s1 := fst (fold_left _ schedule _)) in *.
  assert (Hshape : forall tail,
    (progress_log s ++ [0%Z]
      ++ map (fun k => percentage (doubles (browser env)) k (List.length (files s))) (seq 1 d)) ++ tail
    = progress_log s ++ 0%Z :: phase_reports (doubles (browser env)) (List.length (files s)) d ++ tail).
  { intros tail. unfold phase_reports. now rewrite <- !app_assoc. }
  rewrite app_assoc in Hshape.
  destruct (successful (map (extraction_of env) (files s))) as [|r rs] eqn:Hok.
  - cbn. rewrite Hres, Hreq, Hlog, <- Hshape, app_nil_r. repeat split.
  - cbn [List.length Nat.eqb].
    destruct (analyzeRepeatedQuestions (analysis_ai env) (r :: rs)) as [groups|message].
    + cbn. rewrite Herr, Hreq, Hlog, fold_left_count, <- Hshape, <- !app_assoc. repeat split.
    + cbn. rewrite Hres, Hreq, Hlog, <- Hshape, <- !app_assoc. repeat split.
Qed.

Lemma successful_app l1 l2 : successful (l1 ++ l2) = successful l1 ++ successful l2.
Proof.
  induction l1 as [|[r|] l1 IH]; simpl; [reflexivity | now rewrite IH | exact IH].
Qed.

Lemma successful_none (fs : list UploadedFile) :
  (forall f, In f fs -> extraction_of env f = None) ->
  successful (extraction_results env fs) = [].
Proof.
  unfold extraction_results.
  induction fs as [|f fs IH]; intros H; simpl; [reflexivity|].
  rewrite (H f) by now left. apply IH. intros g Hg. apply H. now right.
Qed.

End RunFacts.

(* ================================================================== *)
(** ** The normalizer and the extractor *)
(* ================================================================== *)

Section ServiceFacts.

Variables (b : Browser) (ai : ExtractionBackend).

Lemma no_text_Some t : no_text (Some t) = (t =? "")%string.
Proof. unfold no_text. simpl. apply negb_involutive. Qed.

(** A document that is not an image is passed through unchanged. *)
Lemma passthrough f :
  prefix "image/" (type f) = false -> reader_loads b f = true ->
  fileToGenerativePart b f
  = Resolved {| data := original_payload f; mimeType := type f |}.
Proof.
  intros Hp Hr. unfold fileToGenerativePart, read_as_is. now rewrite Hp, Hr.
Qed.

(** An image that cannot be decoded falls back to the plain reader. *)
Lemma decode_failure_fallback f :
  prefix "image/" (type f) = true -> reader_loads b f = true -> decode b f = None ->
  fileToGenerativePart b f
  = Resolved {| data := original_payload f; mimeType := type f |}.
Proof.
  intros Hp Hr Hd. unfold fileToGenerativePart, compressImage, read_as_is.
  now rewrite Hp, Hr, Hd.
Qed.

(** Without a drawing context the original payload is submitted, under
    the JPEG label. *)
Lemma context_failure_fallback f w h :
  prefix "image/" (type f) = true -> reader_loads b f = true ->
  decode b f = Some (w, h) -> context2d b f = false ->
  fileToGenerativePart b f
  = Resolved {| data := original_payload f; mimeType := "image/jpeg" |}.
Proof.
  intros Hp Hr Hd Hc. unfold fileToGenerativePart, compressImage.
  rewrite Hp, Hr, Hd. simpl. destruct (new_dimensions _ _). now rewrite Hc.
Qed.

(** The payload of an image that is decoded and drawn. *)
Lemma compressed_part f w h :
  prefix "image/" (type f) = true -> reader_loads b f = true ->
  decode b f = Some (w, h) -> context2d b f = true ->
  let dims := new_dimensions (doubles b) (inject_Z w) (inject_Z h) in
  let canvas := (to_unsigned_long (fst dims), to_unsigned_long (snd dims)) in
  fileToGenerativePart b f
  = Resolved {| data := after_comma (toDataURL b f dims canvas "image/jpeg" IMAGE_QUALITY);
                mimeType := "image/jpeg" |}.
Proof.
  intros Hp Hr Hd Hc. unfold fileToGenerativePart, compressImage.
  rewrite Hp, Hr, Hd. simpl. destruct (new_dimensions _ _) as [w' h']. now rewrite Hc.
Qed.

(** When the encoder fails, or the canvas has no pixels, the payload is
    the empty string. *)
Lemma failed_encoding_payload f drawn canvas :
  ((fst canvas =? 0) || (snd canvas =? 0))%Z = true
  \/ encode b f drawn canvas "image/jpeg" IMAGE_QUALITY = None ->
  after_comma (toDataURL b f drawn canvas "image/jpeg" IMAGE_QUALITY) = Some "".
Proof.
  unfold toDataURL. intros [H|H].
  - now rewrite H.
  - rewrite H. now destruct ((fst canvas =? 0) || (snd canvas =? 0))%Z.
Qed.

(** An image whose re-encoding fails is submitted with the empty
    payload. *)
Lemma reencoding_failure_payload f w h :
  prefix "image/" (type f) = true -> reader_loads b f = true ->
  decode b f = Some (w, h) -> context2d b f = true ->
  let dims := new_dimensions (doubles b) (inject_Z w) (inject_Z h) in
  let canvas := (to_unsigned_long (fst dims), to_unsigned_long (snd dims)) in
  ((fst canvas =? 0) || (snd canvas =? 0))%Z = true
  \/ encode b f dims canvas "image/jpeg" IMAGE_QUALITY = None ->
  fileToGenerativePart b f = Resolved {| data := Some ""; mimeType := "image/jpeg" |}.
Proof.
  intros Hp Hr Hd Hc dims canvas Hfail.
  rewrite (compressed_part f w h Hp Hr Hd Hc).
  fold dims. fold canvas. now rewrite failed_encoding_payload.
Qed.

(** With a response text, the extractor always resolves. *)
Lemma extract_with_text f part t :
  fileToGenerativePart b f = Resolved part ->
  generateContent ai f part = Resolved (Some t) -> t <> "" ->
  extractQuestionsFromFile b ai f
  = Resolved (match parse_extraction ai f t with
              | Some r => r
              | None => {| questions := []; year := JStr "Unknown";
                           sourceFile := name f |}
              end).
Proof.
  intros Hpart Hgen Ht. unfold extractQuestionsFromFile.
  rewrite Hpart, Hgen, no_text_Some.
  apply String.eqb_neq in Ht. rewrite Ht.
  now destruct (parse_extraction ai f t).
Qed.

Lemma extract_without_text f part text :
  fileToGenerativePart b f = Resolved part ->
  generateContent ai f part = Resolved text -> no_text text = true ->
  extractQuestionsFromFile b ai f = Rejected "No response from Gemini".
Proof.
  intros Hpart Hgen Ht. unfold extractQuestionsFromFile. now rewrite Hpart, Hgen, Ht.
Qed.

Lemma parse_extraction_strings f t result qs :
  JSON_parse ai t = Some result ->
  get_prop result "questions" = Some (JArr (map JStr qs)) ->
  exists y, parse_extraction ai f t
            = Some {| questions := map JStr (first_occurrences qs);
                      year := y; sourceFile := name f |}.
Proof.
  intros Hparse Hq. unfold parse_extraction. rewrite Hparse, Hq.
  cbn [js_or truthy iterate]. rewrite array_from_set_strings.
  destruct result; try discriminate; simpl; eauto.
Qed.

Lemma jpeg_payload body :
  no_comma body = true ->
  after_comma ("data:" ++ "image/jpeg" ++ ";base64," ++ body)%string = Some body.
Proof.
  intros H. unfold after_comma.
  change ("data:" ++ "image/jpeg" ++ ";base64," ++ body)%string
    with ("data:image/jpeg;base64" ++ String "," body)%string.
  rewrite split_prefix by reflexivity. now rewrite (split_no_comma _ H).
Qed.

(** The payload of an image that is decoded, drawn on a canvas with
    pixels and encoded. *)
Lemma encoded_part f w h body :
  prefix "image/" (type f) = true -> reader_loads b f = true ->
  decode b f = Some (w, h) -> context2d b f = true ->
  let dims := new_dimensions (doubles b) (inject_Z w) (inject_Z h) in
  let canvas := (to_unsigned_long (fst dims), to_unsigned_long (snd dims)) in
  (1 <= fst canvas)%Z -> (1 <= snd canvas)%Z ->
  encode b f dims canvas "image/jpeg" IMAGE_QUALITY = Some body ->
  no_comma body = true ->
  fileToGenerativePart b f = Resolved {| data := Some body; mimeType := "image/jpeg" |}.
Proof.
  intros Hp Hr Hd Hc dims canvas H1 H2 He Hb.
  rewrite (compressed_part f w h Hp Hr Hd Hc).
  fold dims. fold canvas. unfold toDataURL. rewrite He.
  replace ((fst canvas =? 0) || (snd canvas =? 0))%Z with false.
  - now rewrite (jpeg_payload body Hb).
  - symmetry. apply orb_false_iff. split; apply Z.eqb_neq; lia.
Qed.
End ServiceFacts.

(* ================================================================== *)
(** ** The extractor: claims C1 and C2 *)
(* ================================================================== *)

(** C1, as the code has it. When the backend answers with an array of
    strings, [extractQuestionsFromFile] returns the questions with
    exact duplicates removed: strings are compared as they are (the
    equality of [Set]), the first of equal strings is kept in its
    place, no two entries of the result are the same string, and every
    question of the response is in the result. *)
Theorem extract_removes_exact_duplicates b ai f part t result qs :
  fileToGenerativePart b f = Resolved part ->
  generateContent ai f part = Resolved (Some t) -> t <> "" ->
  JSON_parse ai t = Some result ->
  get_prop result "questions" = Some (JArr (map JStr qs)) ->
  exists r,
    extractQuestionsFromFile b ai f = Resolved r /\
    questions r = map JStr (first_occurrences qs) /\
    NoDup (first_occurrences qs) /\
    (forall q, In q (first_occurrences qs) <-> In q qs).
Proof.
  intros Hpart Hgen Ht Hparse Hq.
  destruct (parse_extraction_strings ai f t result qs Hparse Hq) as [y Hy].
  eexists. split; [|split; [|split]].
  - rewrite (extract_with_text b ai f part t Hpart Hgen Ht), Hy. reflexivity.
  - reflexivity.
  - apply first_occurrences_NoDup.
  - intros q. apply first_occurrences_In.
Qed.

Lemma extract_removes_exact_duplicates_witness :
  exists r,
    extractQuestionsFromFile lab_browser lab_extractor paper_2021 = Resolved r /\
    questions r = map JStr (first_occurrences ["Define X"; "define x "]) /\
    NoDup (first_occurrences ["Define X"; "define x "]) /\
    (forall q, In q (first_occurrences ["Define X"; "define x "])
               <-> In q ["Define X"; "define x "]).
Proof.
  apply (extract_removes_exact_duplicates lab_browser lab_extractor paper_2021
           {| data := Some "JVBERi0xLjQ="; mimeType := "application/pdf" |}
           "reply-2021" reply_2021 ["Define X"; "define x "]).
  - reflexivity.
  - reflexivity.
  - discriminate.
  - reflexivity.
  - reflexivity.
Defined.

(** C1 as stated fails: two questions of one response that differ in
    case and in trailing white space are both returned, although they
    have the same key after trim, case folding and white-space
    collapse. *)
Lemma extract_keeps_case_variants :
  extractQuestionsFromFile lab_browser lab_extractor paper_2021
  = Resolved {| questions := [JStr "Define X"; JStr "define x "];
                year := JStr "2021"; sourceFile := "paper-2021.pdf" |}
  /\ question_key "Define X" = question_key "define x ".
Proof. split; reflexivity. Qed.

(** C2, as the code has it. A document whose backend response carries
    no text makes [extractQuestionsFromFile] fail; the run excludes
    that document, keeps the results of the others and goes on to the
    analysis when one of them succeeded. A response with a text never
    fails: the extractor resolves, and with the empty question list and
    the year "Unknown" when the text is not JSON. *)
Theorem extract_failure_is_local env schedule s fs1 doc fs2 part text :
  files s = fs1 ++ doc :: fs2 -> API_KEY env = true ->
  fileToGenerativePart (browser env) (file doc) = Resolved part ->
  generateContent (extraction_ai env) (file doc) part = Resolved text ->
  let outcome := extractQuestionsFromFile (browser env) (extraction_ai env) (file doc) in
  (no_text text = true ->
     outcome = Rejected "No response from Gemini" /\
     successful (extraction_results env (files s))
     = successful (extraction_results env fs1) ++ successful (extraction_results env fs2) /\
     (successful (extraction_results env (fs1 ++ fs2)) <> [] ->
      analysis_requests (processFiles env schedule s) = S (analysis_requests s)))
  /\
  (no_text text = false ->
     exists r, outcome = Resolved r /\
       (forall t, text = Some t -> JSON_parse (extraction_ai env) t = None ->
          r = {| questions := []; year := JStr "Unknown";
                 sourceFile := name (file doc) |})).
Proof.
  intros Hfiles Hkey Hpart Hgen outcome. split; intros Htext.
  - assert (Hout : outcome = Rejected "No response from Gemini")
      by (eapply extract_without_text; eassumption).
    assert (Hnone : extraction_of env doc = None).
    { unfold extraction_of. fold outcome. now rewrite Hout. }
    assert (Hsplit : successful (extraction_results env (files s))
                     = successful (extraction_results env fs1)
                       ++ successful (extraction_results env fs2)).
    { rewrite Hfiles. unfold extraction_results.
      rewrite map_app, successful_app. simpl. now rewrite Hnone. }
    split; [exact Hout|]. split; [exact Hsplit|].
    intros Hsome.
    assert (Hne : files s <> []) by (rewrite Hfiles; now destruct fs1).
    destruct (processFiles_cases env schedule s Hne Hkey) as (d & _ & _ & Hcases).
    cbv zeta in Hcases. rewrite Hsplit in Hcases.
    unfold extraction_results in Hsome. rewrite map_app, successful_app in Hsome.
    unfold extraction_results in Hcases.
    destruct (successful (map (extraction_of env) fs1)
              ++ successful (map (extraction_of env) fs2)); [contradiction|].
    apply Hcases.
  - destruct text as [t|]; [|discriminate].
    rewrite no_text_Some in Htext. apply String.eqb_neq in Htext.
    eexists. split; [eapply extract_with_text; eassumption|].
    intros t' [= <-] Hparse. unfold parse_extraction. now rewrite Hparse.
Qed.

Lemma extract_failure_is_local_witness :
  let s := initial [upload "a" paper_2021; upload "b" silent; upload "c" paper_2022] in
  (no_text None = true ->
     extractQuestionsFromFile lab_browser lab_extractor silent
     = Rejected "No response from Gemini" /\
     successful (extraction_results lab (files s))
     = successful (extraction_results lab [upload "a" paper_2021])
       ++ successful (extraction_results lab [upload "c" paper_2022]) /\
     (successful (extraction_results lab ([upload "a" paper_2021] ++ [upload "c" paper_2022]))
      <> [] ->
      analysis_requests (processFiles lab [1; 0; 2] s) = S (analysis_requests s)))
  /\
  (no_text None = false ->
     exists r, extractQuestionsFromFile lab_browser lab_extractor silent = Resolved r /\
       (forall t, None = Some t -> JSON_parse lab_extractor t = None ->
          r = {| questions := []; year := JStr "Unknown"; sourceFile := "silent.pdf" |})).
Proof.
  apply (extract_failure_is_local lab [1; 0; 2]
           (initial [upload "a" paper_2021; upload "b" silent; upload "c" paper_2022])
           [upload "a" paper_2021] (upload "b" silent) [upload "c" paper_2022]
           {| data := Some "JVBERi0="; mimeType := "application/pdf" |} None).
  - reflexivity.
  - reflexivity.
  - reflexivity.
  - reflexivity.
Defined.

(** C2 as stated fails: a response that is not JSON does not make the
    extractor fail; it resolves with an empty result, and the run
    counts the document as completed. *)
Lemma extract_resolves_on_malformed_reply :
  generateContent lab_extractor garbled
    {| data := Some "Pz8/"; mimeType := "text/plain" |}
  = Resolved (Some "<html>502</html>")
  /\ JSON_parse lab_extractor "<html>502</html>" = None
  /\ extractQuestionsFromFile lab_browser lab_extractor garbled
     = Resolved {| questions := []; year := JStr "Unknown"; sourceFile := "garbled.txt" |}
  /\ map status (files (processFiles lab [0] (initial [upload "a" garbled])))
     = [Completed].
Proof. repeat split. Qed.

(* ================================================================== *)
(** ** Strings beyond U+00FF *)
(* ================================================================== *)

(** On strings of code units below U+0100 the built-ins and the
    aggregator of the wider strings are those of the development. *)
Section WideFacts.

Lemma lower_from_widen s : forall before,
  Wide.lower_from before (widen s) = widen (toLowerCase s).
Proof.
  induction s as [|c t IH]; intros before; [reflexivity|].
  cbn [widen toLowerCase Wide.lower_from Wide.lower_unit]. now rewrite IH.
Qed.

Lemma trimStart_widen s : Wide.trimStart (widen s) = widen (trimStart s).
Proof.
  induction s as [|c t IH]; [reflexivity|].
  cbn [widen trimStart Wide.trimStart Wide.is_ws].
  destruct (is_ws c); [exact IH | reflexivity].
Qed.

Lemma trimEnd_widen s : Wide.trimEnd (widen s) = widen (trimEnd s).
Proof.
  induction s as [|c t IH]; [reflexivity|].
  cbn [widen trimEnd Wide.trimEnd Wide.is_ws]. rewrite IH.
  destruct (trimEnd t) as [|c' t']; cbn [widen]; [|reflexivity].
  now destruct (is_ws c).
Qed.

Lemma trim_widen s : Wide.trim (widen s) = widen (trim s).
Proof. unfold Wide.trim, trim. now rewrite trimStart_widen, trimEnd_widen. Qed.

Lemma starts_with_ws_widen s : Wide.starts_with_ws (widen s) = starts_with_ws s.
Proof. now destruct s. Qed.

Lemma replace_ws_runs_widen s :
  Wide.replace_ws_runs (widen s) = widen (replace_ws_runs s).
Proof.
  induction s as [|c t IH]; [reflexivity|].
  cbn [widen replace_ws_runs Wide.replace_ws_runs Wide.is_ws].
  rewrite starts_with_ws_widen, IH.
  destruct (is_ws c); [destruct (starts_with_ws t)|]; reflexivity.
Qed.

Lemma normalize_key_widen s : Wide.normalize_key (widen s) = widen (normalize_key s).
Proof.
  unfold Wide.normalize_key, normalize_key, Wide.toLowerCase.
  now rewrite lower_from_widen, replace_ws_runs_widen.
Qed.

(** On code units below U+0100 the key is the one of the narrow
    strings. *)
Lemma wide_question_key_widen q : wide_question_key (widen q) = widen (question_key q).
Proof.
  unfold wide_question_key, question_key. now rewrite trim_widen, normalize_key_widen.
Qed.

Lemma length_widen s : List.length (widen s) = String.length s.
Proof. induction s as [|c t IH]; simpl; congruence. Qed.

Lemma cunit_eqb_Latin c c' : Wide.cunit_eqb (Wide.Latin c) (Wide.Latin c') = Ascii.eqb c c'.
Proof.
  unfold Wide.cunit_eqb, Wide.code.
  destruct (Ascii.eqb_spec c c') as [->|N]; [apply N.eqb_refl|].
  apply N.eqb_neq. intros E. apply N.
  rewrite <- (ascii_N_embedding c), <- (ascii_N_embedding c'). now rewrite E.
Qed.

Lemma eqb_widen a : forall b, Wide.eqb (widen a) (widen b) = (a =? b)%string.
Proof.
  induction a as [|c a IH]; intros [|c' b]; try reflexivity.
  cbn [widen Wide.eqb String.eqb]. rewrite cunit_eqb_Latin, IH.
  now destruct (Ascii.eqb c c').
Qed.

Lemma map_has_widen m k :
  Wide.map_has (map widen_entry m) (widen k) = map_has m k.
Proof.
  induction m as [|[k' e] m IH]; [reflexivity|].
  cbn [map widen_entry fst snd Wide.map_has map_has]. now rewrite eqb_widen, IH.
Qed.

Lemma push_year_widen m k y :
  Wide.push_year (map widen_entry m) (widen k) y = map widen_entry (push_year m k y).
Proof.
  induction m as [|[k' e] m IH]; [reflexivity|].
  cbn [map widen_entry fst snd Wide.push_year push_year]. rewrite eqb_widen.
  destruct (k' =? k)%string; cbn [map widen_entry fst snd text years]; [reflexivity|].
  now rewrite IH.
Qed.

Lemma add_question_widen y m s :
  Wide.add_question y (map widen_entry m) (widen s)
  = map widen_entry (add_question y m (JStr s)).
Proof.
  destruct s as [|c t]; [reflexivity|].
  unfold Wide.add_question, add_question.
  cbn [widen truthy is_string String.eqb negb orb].
  change (Wide.Latin c :: widen t) with (widen (String c t)).
  rewrite trim_widen, length_widen, normalize_key_widen, map_has_widen.
  destruct (String.length (trim (String c t)) <? 3)%nat; [reflexivity|].
  destruct (map_has m _); [apply push_year_widen|].
  unfold map_set_new. now rewrite map_app.
Qed.

Lemma add_questions_widen y qs : forall m,
  fold_left (Wide.add_question y) (map widen qs) (map widen_entry m)
  = map widen_entry (fold_left (add_question y) (map JStr qs) m).
Proof.
  induction qs as [|q qs IH]; intros m; [reflexivity|].
  cbn [map fold_left]. now rewrite add_question_widen, IH.
Qed.

(** On strings of code units below U+0100 the aggregator of the wider
    strings is the aggregator. *)
Lemma build_questionMap_widen D :
  Wide.build_questionMap (map wide_extraction D)
  = map widen_entry (build_questionMap (map narrow_extraction D)).
Proof.
  unfold Wide.build_questionMap, build_questionMap.
  change (@nil (Wide.ustring * Wide.Entry)) with (map widen_entry []).
  generalize (@nil (string * Entry)) as m.
  induction D as [|d D IH]; intros m; [reflexivity|].
  cbn [map fold_left]. rewrite <- IH. f_equal.
  unfold Wide.add_extraction, add_extraction, wide_extraction, narrow_extraction.
  cbn [Wide.questions Wide.year questions year]. apply add_questions_widen.
Qed.

End WideFacts.

(* ================================================================== *)
(** ** The aggregator: claims C4, C9 and C10 *)
(* ================================================================== *)

(** C4, as the code has it, for questions of code units below U+0100.
    Two questions have the same normalization key exactly when they
    differ only in letter case, in white-space runs and in white space
    at either end, and then they pass or miss the noise threshold
    together. The entry of a key holds the trimmed text of the first
    accepted occurrence with that key, in its original case, and one
    year for every accepted occurrence with that key, in order of
    arrival, where a falsy year counts as "Unknown": two documents
    that carry two variants yield one entry with both years. The key
    is the one that the built-ins of the wider strings compute. *)
Theorem variants_share_one_entry q1 q2 :
  (case_ws_variant q1 q2 <-> question_key q1 = question_key q2) /\
  (case_ws_variant q1 q2 -> key_of (JStr q1) = key_of (JStr q2)) /\
  (forall D k,
     map_get (build_questionMap D) k
     = match filter (has_key k) (occurrences D) with
       | [] => None
       | o :: l => Some {| text := clean_text (fst o); years := map snd (o :: l) |}
       end) /\
  (case_ws_variant q1 q2 -> 3 <= String.length (trim q1) ->
   forall y1 y2 src1 src2,
     build_questionMap [ {| questions := [JStr q1]; year := y1; sourceFile := src1 |};
                         {| questions := [JStr q2]; year := y2; sourceFile := src2 |} ]
     = [ (question_key q1,
          {| text := trim q1;
             years := [js_or y1 (JStr "Unknown"); js_or y2 (JStr "Unknown")] |}) ]) /\
  wide_question_key (widen q1) = widen (question_key q1).
Proof.
  split; [apply variant_iff_key|]. split; [apply variant_key_of|].
  split; [|split; [|apply wide_question_key_widen]].
  - intros D k. apply map_get_build.
  - intros Hv Hlen y1 y2 src1 src2.
    pose proof (variant_key_of _ _ Hv) as Hk.
    assert (H1 : key_of (JStr q1) = Some (question_key q1)).
    { unfold key_of. apply Nat.leb_le in Hlen. now rewrite Hlen. }
    rewrite build_questionMap_fold. unfold occurrences, safe_year.
    cbn [flat_map map app year questions fold_left].
    rewrite !add_occurrence_spec. cbn [fst snd]. rewrite H1.
    cbn [map_has app clean_text]. rewrite <- Hk, H1.
    cbn [map_has]. rewrite String.eqb_refl. cbn [orb push_year].
    now rewrite String.eqb_refl.
Qed.

Lemma define_x_variants : case_ws_variant "Define X" "define x ".
Proof.
  apply (cwv_trans _ "define X").
  - apply (cwv_case "" "D" "d" "efine X"). reflexivity.
  - apply (cwv_trans _ "define x").
    + apply (cwv_case "define " "X" "x" ""). reflexivity.
    + apply cwv_sym. apply (cwv_trail " " "define x"). reflexivity.
Defined.

Lemma variants_share_one_entry_witness :
  build_questionMap [ {| questions := [JStr "Define X"]; year := JStr "2021";
                         sourceFile := "a.pdf" |};
                      {| questions := [JStr "define x "]; year := JNull;
                         sourceFile := "b.pdf" |} ]
  = [ ("define x", {| text := "Define X"; years := [JStr "2021"; JStr "Unknown"] |}) ].
Proof.
  apply (proj1 (proj2 (proj2 (proj2 (variants_share_one_entry "Define X" "define x "))))
           define_x_variants).
  simpl. lia.
Defined.

(** C4 as stated fails. Beyond U+00FF the lower-case mapping depends on
    the context of a letter: the capital sigma at the end of a word
    becomes the final sigma, so that a word in capitals and the same
    word in small letters with the plain sigma are filed under two keys,
    in two entries. And the text of an entry is the trimmed question,
    not the question unchanged. *)
Lemma final_sigma_separates_case_variants :
  case_variant odos_capitals odos_small /\
  wide_question_key odos_capitals <> wide_question_key odos_small /\
  Wide.build_questionMap
    [ {| Wide.questions := [odos_capitals]; Wide.year := JStr "2021" |};
      {| Wide.questions := [odos_small]; Wide.year := JStr "2022" |} ]
  = [ (odos_final, {| Wide.text := odos_capitals; Wide.years := [JStr "2021"] |});
      (odos_small, {| Wide.text := odos_small; Wide.years := [JStr "2022"] |}) ] /\
  build_questionMap [ {| questions := [JStr " Define X"]; year := JStr "2021";
                         sourceFile := "a.pdf" |} ]
  = [ ("define x", {| text := "Define X"; years := [JStr "2021"] |}) ].
Proof.
  split; [reflexivity|]. split; [discriminate|]. split; reflexivity.
Qed.

(** C9, as the code has it. Exact aggregation is idempotent: the
    aggregated entries, re-flattened and aggregated again, give the same
    map (same keys in the same order, same texts, same years). Under a
    permutation of the occurrences the keys of the map and, for every
    key, the years as a multiset are unchanged; the stored text and the
    order of the years follow the order of arrival. *)
Theorem aggregation_idempotent D :
  (forall src,
     build_questionMap (reflatten src (build_questionMap D)) = build_questionMap D) /\
  (forall D',
     Permutation (occurrences D) (occurrences D') ->
     forall k,
       map_has (build_questionMap D) k = map_has (build_questionMap D') k /\
       Permutation (years_at k (build_questionMap D))
                   (years_at k (build_questionMap D'))).
Proof.
  split.
  - intros src. rewrite (build_questionMap_fold (reflatten _ _)).
    apply (reaggregate src (build_questionMap D) []). apply well_formed_build.
  - intros D' HP k. split.
    + rewrite !map_has_build. now apply existsb_permutation.
    + rewrite !years_at_build. apply Permutation_map. now apply filter_permutation.
Qed.

Lemma aggregation_idempotent_witness :
  build_questionMap (reflatten "again" (build_questionMap [doc_a; doc_b]))
  = build_questionMap [doc_a; doc_b]
  /\ Permutation (years_at "define x" (build_questionMap [doc_a; doc_b]))
                 (years_at "define x" (build_questionMap [doc_b; doc_a])).
Proof.
  destruct (aggregation_idempotent [doc_a; doc_b]) as [Hidem Hperm].
  split; [apply Hidem|].
  apply (Hperm [doc_b; doc_a]).
  apply (Permutation_app_comm (occurrences [doc_a]) (occurrences [doc_b])).
Defined.

(** C9 as stated fails: the merge is not commutative over the order of
    arrival. With the two documents swapped, the entry of the key
    "define x" has another text and its years in another order. *)
Lemma aggregation_depends_on_arrival :
  Permutation [doc_a; doc_b] [doc_b; doc_a] /\
  map_get (build_questionMap [doc_a; doc_b]) "define x"
  = Some {| text := "Define X"; years := [JStr "2021"; JStr "2021"; JStr "2022"] |} /\
  map_get (build_questionMap [doc_b; doc_a]) "define x"
  = Some {| text := "define  x"; years := [JStr "2022"; JStr "2021"; JStr "2021"] |}.
Proof. split; [apply perm_swap | split; reflexivity]. Qed.

(** C10. The aggregation conserves occurrences: the lengths of the years
    lists of all entries add up to the number of question occurrences
    that are strings of trimmed length at least 3, and every entry has
    at least one year. *)
Theorem aggregation_conserves_occurrences D :
  total_years (build_questionMap D) = List.length (filter accepted (occurrences D)) /\
  Forall has_years (build_questionMap D).
Proof.
  rewrite build_questionMap_fold. split.
  - now rewrite total_years_fold.
  - apply has_years_fold. constructor.
Qed.

Example aggregation_conserves_occurrences_ex :
  total_years (build_questionMap
                 [ {| questions := [JStr "Define X"; JNum 7%Q; JStr " a "; JStr "define x"];
                      year := JStr ""; sourceFile := "c.pdf" |}; doc_b ]) = 3.
Proof. reflexivity. Qed.

(* ================================================================== *)
(** ** The orchestrator: claims C3, C5 and C7 *)
(* ================================================================== *)

(** C3, as the code has it. In a run in which no document yields a
    successful extraction the analysis backend is never invoked and the
    run fails: with the message of [AllExtractionsFailedError] when the
    document set is not empty and the credential is set, and before
    that with [NoInputError] for an empty set, or [ConfigError] without
    the credential. *)
Theorem no_extraction_no_analysis env schedule s :
  (forall f, In f (files s) -> extraction_of env f = None) ->
  let s' := processFiles env schedule s in
  analysis_requests s' = analysis_requests s /\
  error s' = Some (if List.length (files s) =? 0 then NoInputError
                   else if API_KEY env then AllExtractionsFailedError
                   else ConfigError).
Proof.
  intros Hnone s'. subst s'.
  destruct (List.length (files s) =? 0) eqn:Hlen.
  - unfold processFiles. rewrite Hlen. split; reflexivity.
  - destruct (API_KEY env) eqn:Hkey.
    + assert (Hne : files s <> []) by (intros E; rewrite E in Hlen; discriminate).
      destruct (processFiles_cases env schedule s Hne Hkey) as (d & _ & _ & Hcases).
      cbv zeta in Hcases. rewrite (successful_none env (files s) Hnone) in Hcases.
      destruct Hcases as (He & _ & Hreq & _). now split.
    + unfold processFiles. rewrite Hlen, Hkey. split; reflexivity.
Qed.

Lemma no_extraction_no_analysis_witness :
  let s := initial [upload "a" silent; upload "b" silent] in
  analysis_requests (processFiles lab [1; 0] s) = analysis_requests s /\
  error (processFiles lab [1; 0] s) = Some AllExtractionsFailedError.
Proof.
  apply (no_extraction_no_analysis lab [1; 0]
           (initial [upload "a" silent; upload "b" silent])).
  intros f [<-|[<-|[]]]; reflexivity.
Defined.

(** C3 as stated fails: a run without the credential has no successful
    extraction, and fails with [ConfigError], not with
    [AllExtractionsFailedError]. And a run whose only document gets a
    reply that is not JSON issues an analysis request, because the
    extractor resolves for it. *)
Lemma no_extraction_without_key :
  (successful (extraction_results lab_without_key [upload "a" silent]) = [] /\
   error (processFiles lab_without_key [0] (initial [upload "a" silent]))
   = Some ConfigError /\
   ConfigError <> AllExtractionsFailedError) /\
  (JSON_parse lab_extractor "<html>502</html>" = None /\
   analysis_requests (processFiles lab [0] (initial [upload "a" garbled])) = 1 /\
   error (processFiles lab [0] (initial [upload "a" garbled])) = None).
Proof. repeat split. discriminate. Qed.



Example summary_ex :
  summary (processFiles lab [2; 0; 1]
             (initial [upload "a" paper_2021; upload "b" silent; upload "c" paper_2022]))
  = Some {| totalPapers := 3; totalQuestionsExtracted := 3; totalRepeatedGroups := 1 |}.
Proof. reflexivity. Qed.

(** C7. The progress values a run reports never decrease and stay
    between 0 and 100. When every document settles once, the value
    reported after the [k]-th settled document of [n] is
    [min(90, round((k / n) * 90))]: the share of settled documents
    scaled to 90 and rounded to an integer (within one half, and the
    rounding error of the two double operations, of the exact scaled
    share); it never exceeds 90, and it is 90 when all documents have
    settled. *)
Theorem progress_is_monotone env schedule s :
  Permutation schedule (seq 0 (List.length (files s))) ->
  let n := List.length (files s) in
  let fp := doubles (browser env) in
  exists run_log,
    progress_log (processFiles env schedule s) = progress_log s ++ run_log /\
    monotone run_log /\
    (forall v, In v run_log -> (0 <= v <= 100)%Z) /\
    (API_KEY env = true ->
     forall k, 1 <= k <= n ->
       nth_error run_log k = Some (percentage fp k n) /\
       (percentage fp k n <= 90)%Z /\
       ((Z.of_nat n <= 2 ^ 32)%Z ->
        (ratio k n - (1 # 2) - slack < inject_Z (percentage fp k n))%Q /\
        (inject_Z (percentage fp k n) <= ratio k n + (1 # 2) + slack)%Q) /\
       percentage fp n n = 90%Z).
Proof.
  intros Hperm n fp. subst n.
  destruct (List.length (files s) =? 0) eqn:Hlen.
  { exists []. unfold processFiles. rewrite Hlen. cbn. rewrite app_nil_r.
    split; [reflexivity|]. split; [constructor|]. split; [easy|].
    apply Nat.eqb_eq in Hlen. intros _ k Hk. lia. }
  destruct (API_KEY env) eqn:Hkey.
  2:{ exists []. unfold processFiles. rewrite Hlen, Hkey. cbn. rewrite app_nil_r.
      split; [reflexivity|]. split; [constructor|]. split; easy. }
  assert (Hne : files s <> []) by (intros E; rewrite E in Hlen; discriminate).
  destruct (processFiles_cases env schedule s Hne Hkey) as (d & _ & Hall & Hcases).
  assert (Hd : d = List.length (files s)).
  { rewrite Hall.
    - rewrite (Permutation_length Hperm). apply length_seq.
    - apply Forall_forall. intros i Hi.
      apply (Permutation_in _ Hperm) in Hi. apply in_seq in Hi. lia. }
  clear Hall. subst d. cbv zeta in Hcases. fold fp in Hcases.
  set (n := List.length (files s)) in *.
  assert (Hn : 0 < n) by (apply Nat.eqb_neq in Hlen; lia).
  assert (Hgoal : forall tail,
    tail = [] \/ tail = [92%Z] \/ tail = [92%Z; 100%Z] ->
    progress_log (processFiles env schedule s)
    = progress_log s ++ 0%Z :: phase_reports fp n n ++ tail ->
    exists run_log,
      progress_log (processFiles env schedule s) = progress_log s ++ run_log /\
      monotone run_log /\
      (forall v, In v run_log -> (0 <= v <= 100)%Z) /\
      (true = true ->
       forall k, 1 <= k <= n ->
         nth_error run_log k = Some (percentage fp k n) /\
         (percentage fp k n <= 90)%Z /\
         ((Z.of_nat n <= 2 ^ 32)%Z ->
          (ratio k n - (1 # 2) - slack < inject_Z (percentage fp k n))%Q /\
          (inject_Z (percentage fp k n) <= ratio k n + (1 # 2) + slack)%Q) /\
         percentage fp n n = 90%Z)).
  { intros tail Htail Hlog. exists (0%Z :: phase_reports fp n n ++ tail).
    split; [exact Hlog|]. split; [now apply monotone_run|]. split.
    - intros v [<-|Hv]; [lia|]. apply in_app_or in Hv as [Hv|Hv].
      + unfold phase_reports in Hv. apply in_map_iff in Hv as (k & <- & _).
        pose proof (percentage_nonneg fp k n). pose proof (percentage_le_90 fp k n). lia.
      + destruct Htail as [->|[->| ->]]; simpl in Hv; intuition lia.
    - intros _ k Hk. split; [|split; [apply percentage_le_90|]].
      + destruct k as [|k]; [lia|]. cbn [nth_error].
        rewrite nth_error_app1 by (unfold phase_reports; rewrite length_map, length_seq; lia).
        unfold phase_reports. rewrite nth_error_map, nth_error_seq.
        replace (k <? n) with true by (symmetry; apply Nat.ltb_lt; lia). reflexivity.
      + split; [|now apply percentage_all].
        intros Hbig. now apply percentage_near. }
  destruct (successful (extraction_results env (files s))) as [|r rs].
  - destruct Hcases as (_ & _ & _ & Hlog). apply (Hgoal []); auto.
  - destruct Hcases as (_ & Hcases).
    destruct (analyzeRepeatedQuestions (analysis_ai env) (r :: rs)) as [groups|message].
    + destruct Hcases as (_ & _ & _ & Hlog). apply (Hgoal [92%Z; 100%Z]); auto.
    + destruct Hcases as (_ & _ & Hlog). apply (Hgoal [92%Z]); auto.
Qed.

Lemma progress_is_monotone_witness :
  let s := initial [upload "a" paper_2021; upload "b" silent; upload "c" paper_2022] in
  exists run_log,
    progress_log (processFiles lab [2; 0; 1] s) = progress_log s ++ run_log /\
    monotone run_log /\
    (forall v, In v run_log -> (0 <= v <= 100)%Z) /\
    (API_KEY lab = true ->
     forall k, 1 <= k <= 3 ->
       nth_error run_log k = Some (percentage exact_arithmetic k 3) /\
       (percentage exact_arithmetic k 3 <= 90)%Z /\
       ((Z.of_nat 3 <= 2 ^ 32)%Z ->
        (ratio k 3 - (1 # 2) - slack < inject_Z (percentage exact_arithmetic k 3))%Q /\
        (inject_Z (percentage exact_arithmetic k 3) <= ratio k 3 + (1 # 2) + slack)%Q) /\
       percentage exact_arithmetic 3 3 = 90%Z).
Proof.
  apply (progress_is_monotone lab [2; 0; 1]
           (initial [upload "a" paper_2021; upload "b" silent; upload "c" paper_2022])).
  simpl. apply (perm_trans (l' := [0; 2; 1])); [apply perm_swap|].
  apply perm_skip, perm_swap.
Defined.

Example progress_ex :
  progress_log (processFiles lab [2; 0; 1]
                  (initial [upload "a" paper_2021; upload "b" silent; upload "c" paper_2022]))
  = [0; 30; 60; 90; 92; 100]%Z.
Proof. reflexivity. Qed.

(* ================================================================== *)
(** ** The normalizer: claims C6 and C8 *)
(* ================================================================== *)

(** C8, as the code has it. An image that is decoded and drawn. Within
    the bound of 1536 the dimensions are kept, and so is the canvas.
    Beyond it the larger dimension becomes exactly 1536 and the larger
    side of the canvas has exactly 1536 pixels; the other dimension is
    scaled by the same factor, up to the rounding of the division and
    the multiplication, and the canvas takes it cut down to whole
    pixels: the aspect ratio is kept up to one pixel of the smaller
    side. When both sides of the canvas have pixels, the payload is
    what the encoder returns for that canvas, for the format
    image/jpeg and the quality 0.8, under the label image/jpeg,
    whatever the media type of the file. *)
Theorem image_is_scaled_and_reencoded b f w h :
  prefix "image/" (type f) = true -> reader_loads b f = true ->
  decode b f = Some (w, h) -> context2d b f = true ->
  (1 <= w <= 2 ^ 31)%Z -> (1 <= h <= 2 ^ 31)%Z ->
  let dims := new_dimensions (doubles b) (inject_Z w) (inject_Z h) in
  let cw := to_unsigned_long (fst dims) in
  let ch := to_unsigned_long (snd dims) in
  ((w <= 1536)%Z -> (h <= 1536)%Z ->
     dims = (inject_Z w, inject_Z h) /\ (cw, ch) = (w, h)) /\
  ((1536 < w)%Z \/ (1536 < h)%Z ->
     ((h < w)%Z -> fst dims = 1536%Q /\ cw = 1536%Z /\ pixel_scaled h w ch) /\
     ((w <= h)%Z -> snd dims = 1536%Q /\ ch = 1536%Z /\ pixel_scaled w h cw) /\
     (fst dims <= inject_Z w)%Q /\ (snd dims <= inject_Z h)%Q /\
     Z.max cw ch = 1536%Z /\
     (Qabs (fst dims * inject_Z h - inject_Z w * snd dims)
      <= 1536 * inject_Z (Z.min w h) * (3 * unit_roundoff))%Q) /\
  (forall body,
     (1 <= cw)%Z -> (1 <= ch)%Z ->
     encode b f dims (cw, ch) "image/jpeg" (8 # 10) = Some body ->
     no_comma body = true ->
     fileToGenerativePart b f
     = Resolved {| data := Some body; mimeType := "image/jpeg" |}).
Proof.
  intros Hp Hr Hd Hc Hw Hh dims cw ch. split; [|split].
  - intros Lw Lh.
    assert (E : dims = (inject_Z w, inject_Z h)).
    { apply new_dimensions_small; unfold MAX_IMAGE_DIMENSION;
        change 1536%Q with (inject_Z 1536); now rewrite <- Zle_Qle. }
    split; [exact E|]. subst cw ch. rewrite E. cbn [fst snd].
    rewrite !to_unsigned_long_pixels by lia. reflexivity.
  - intros Hbig.
    destruct (new_dimensions_large (doubles b) w h Hw Hh Hbig) as (D1 & D2 & D3 & D4 & D5 & D6).
    destruct (canvas_large (doubles b) w h Hw Hh Hbig) as [C1 C2].
    split; [|split; [|split; [|split; [|split]]]]; try assumption.
    + intros L. split; [now apply D1 | now apply C1].
    + intros L. split; [now apply D2 | now apply C2].
  - intros body H1 H2 He Hb.
    apply (encoded_part b f w h body Hp Hr Hd Hc H1 H2 He Hb).
Qed.

Lemma image_is_scaled_and_reencoded_witness :
  let dims := new_dimensions (doubles lab_browser) (inject_Z 3072) (inject_Z 2048) in
  let cw := to_unsigned_long (fst dims) in
  let ch := to_unsigned_long (snd dims) in
  ((3072 <= 1536)%Z -> (2048 <= 1536)%Z ->
     dims = (inject_Z 3072, inject_Z 2048) /\ (cw, ch) = (3072, 2048)%Z) /\
  ((1536 < 3072)%Z \/ (1536 < 2048)%Z ->
     ((2048 < 3072)%Z -> fst dims = 1536%Q /\ cw = 1536%Z /\ pixel_scaled 2048 3072 ch) /\
     ((3072 <= 2048)%Z -> snd dims = 1536%Q /\ ch = 1536%Z /\ pixel_scaled 3072 2048 cw) /\
     (fst dims <= inject_Z 3072)%Q /\ (snd dims <= inject_Z 2048)%Q /\
     Z.max cw ch = 1536%Z /\
     (Qabs (fst dims * inject_Z 2048 - inject_Z 3072 * snd dims)
      <= 1536 * inject_Z (Z.min 3072 2048) * (3 * unit_roundoff))%Q) /\
  (forall body,
     (1 <= cw)%Z -> (1 <= ch)%Z ->
     encode lab_browser scan_png dims (cw, ch) "image/jpeg" (8 # 10) = Some body ->
     no_comma body = true ->
     fileToGenerativePart lab_browser scan_png
     = Resolved {| data := Some body; mimeType := "image/jpeg" |}).
Proof.
  apply (image_is_scaled_and_reencoded lab_browser scan_png 3072 2048).
  - reflexivity.
  - reflexivity.
  - reflexivity.
  - reflexivity.
  - lia.
  - lia.
Defined.

(** C8 as stated fails: the canvas does not keep the aspect ratio. A
    picture of 3000 by 3 is drawn on a canvas of 1536 by 1 (1.536 cut
    down to whole pixels, whatever the rounding of the engine: lemma
    [banner_canvas]), so that a ratio of 1000 becomes 1536. *)
Lemma scaled_canvas_is_truncated :
  let dims := new_dimensions (doubles banner_browser) (inject_Z 3000) (inject_Z 3) in
  let cw := to_unsigned_long (fst dims) in
  let ch := to_unsigned_long (snd dims) in
  decode banner_browser banner_png = Some (3000, 3)%Z /\
  (cw, ch) = (1536, 1)%Z /\
  ~ (inject_Z cw / inject_Z ch == 3000 / 3)%Q /\
  fileToGenerativePart banner_browser banner_png
  = Resolved {| data := Some "/9j/4AAQ"; mimeType := "image/jpeg" |}.
Proof.
  cbv zeta. rewrite (banner_canvas (doubles banner_browser)). cbn [fst snd].
  split; [reflexivity|]. split; [reflexivity|]. split; [|reflexivity].
  intros H. vm_compute in H. discriminate.
Qed.

Example scan_canvas_ex :
  let dims := new_dimensions exact_arithmetic (inject_Z 3072) (inject_Z 2048) in
  (to_unsigned_long (fst dims), to_unsigned_long (snd dims)) = (1536, 1024)%Z
  /\ fileToGenerativePart lab_browser scan_png
     = Resolved {| data := Some "/9j/4AAQ"; mimeType := "image/jpeg" |}.
Proof. split; reflexivity. Qed.

(** C6 at the re-encoding step. An image of 3000 by 1 is decoded and
    drawn on a canvas whose height is 0; [canvas.toDataURL] returns the
    string "data:," and the normalizer submits the empty payload under
    the JPEG label, whatever the rounding of the engine and whatever
    the encoder: the original bytes are not passed through. *)
Theorem thin_image_payload_is_lost b f :
  prefix "image/" (type f) = true -> reader_loads b f = true ->
  decode b f = Some (3000, 1)%Z -> context2d b f = true ->
  fileToGenerativePart b f = Resolved {| data := Some ""; mimeType := "image/jpeg" |}.
Proof.
  intros Hp Hr Hd Hc.
  apply (reencoding_failure_payload b f 3000 1 Hp Hr Hd Hc).
  left. cbn [snd]. rewrite thin_image_canvas. apply orb_true_r.
Qed.

Lemma thin_image_payload_is_lost_witness :
  fileToGenerativePart lab_browser ruler_png
  = Resolved {| data := Some ""; mimeType := "image/jpeg" |}.
Proof.
  apply (thin_image_payload_is_lost lab_browser ruler_png); reflexivity.
Defined.

Example ruler_ex :
  original_payload ruler_png = Some "iVBORw0KGgo=" /\
  (let dims := new_dimensions exact_arithmetic (inject_Z 3000) (inject_Z 1) in
   (to_unsigned_long (fst dims), to_unsigned_long (snd dims)) = (1536, 0)%Z).
Proof. split; reflexivity. Qed.

(* ================================================================== *)
(** ** Further properties of the aggregator *)
(* ================================================================== *)

Section AggregatorMore.

Implicit Types (m : QuestionMap) (k : string) (o : occurrence).

Lemma map_has_existsb m k : map_has m k = existsb (String.eqb k) (map fst m).
Proof.
  induction m as [|[k0 e0] m IH]; simpl; [reflexivity|].
  now rewrite IH, String.eqb_sym.
Qed.

Lemma map_fst_add m o :
  map fst (add_occurrence m o)
  = map fst m ++ match key_of (fst o) with
                 | Some k => if map_has m k then [] else [k]
                 | None => []
                 end.
Proof.
  rewrite add_occurrence_spec.
  destruct (key_of (fst o)) as [k|]; [|now rewrite app_nil_r].
  destruct (map_has m k).
  - now rewrite map_fst_push, app_nil_r.
  - now rewrite map_app.
Qed.

Lemma map_fst_fold os : forall m,
  map fst (fold_left add_occurrence os m)
  = map fst m ++ filter (unseen (map fst m)) (first_occurrences (accepted_keys os)).
Proof.
  induction os as [|o os IH]; intros m.
  - simpl. now rewrite app_nil_r.
  - cbn [fold_left]. rewrite IH, map_fst_add.
    change (accepted_keys (o :: os))
      with (match key_of (fst o) with Some k => [k] | None => [] end ++ accepted_keys os).
    destruct (key_of (fst o)) as [k|]; [|now rewrite app_nil_r].
    cbn [app first_occurrences filter].
    rewrite map_has_existsb.
    change (unseen (map fst m) k) with (negb (existsb (String.eqb k) (map fst m))).
    destruct (existsb (String.eqb k) (map fst m)) eqn:E; cbn [negb].
    + rewrite app_nil_r. f_equal. rewrite filter_filter.
      apply filter_ext. intros y. unfold unseen.
      destruct (y =? k)%string eqn:Ey; cbn; [|now rewrite andb_true_r].
      apply String.eqb_eq in Ey. subst y. now rewrite E.
    + rewrite <- app_assoc. cbn [app]. do 2 f_equal.
      rewrite filter_filter. apply filter_ext. intros y. unfold unseen.
      rewrite existsb_app. cbn. now rewrite orb_false_r, negb_orb.
Qed.

Lemma filter_all {A} (l : list A) : filter (fun _ => true) l = l.
Proof. induction l as [|a l IH]; simpl; [reflexivity | now rewrite IH]. Qed.

Lemma add_occurrence_rejected m o : accepted o = false -> add_occurrence m o = m.
Proof.
  intros H. rewrite add_occurrence_spec. unfold accepted in H.
  now destruct (key_of (fst o)).
Qed.

Lemma fold_accepted os : forall m,
  fold_left add_occurrence os m = fold_left add_occurrence (filter accepted os) m.
Proof.
  induction os as [|o os IH]; intros m; simpl; [reflexivity|].
  destruct (accepted o) eqn:E; simpl.
  - apply IH.
  - rewrite (add_occurrence_rejected m o E). apply IH.
Qed.

Lemma occurrences_app D D' : occurrences (D ++ D') = occurrences D ++ occurrences D'.
Proof. unfold occurrences. apply flat_map_app. Qed.

Lemma build_questionMap_app D D' :
  build_questionMap (D ++ D')
  = fold_left add_occurrence (occurrences D') (build_questionMap D).
Proof.
  rewrite !build_questionMap_fold, occurrences_app. apply fold_left_app.
Qed.

End AggregatorMore.

(** X1. The entries of the question map, and so the items of the
    payload sent to the analysis backend, are in the order in which
    their keys first arrive: the keys of the map are the keys of the
    accepted occurrences with later repetitions removed. *)
Theorem entries_in_first_arrival_order D :
  map fst (build_questionMap D) = first_occurrences (accepted_keys (occurrences D)) /\
  map question (preProcessedData (build_questionMap D))
  = map (fun kv => text (snd kv)) (build_questionMap D).
Proof.
  split.
  - rewrite build_questionMap_fold, map_fst_fold. simpl. apply filter_all.
  - unfold preProcessedData. now rewrite map_map.
Qed.

(** X2. The payload sent to the analysis backend holds every
    normalization key once: no two of its questions have the same key.
    Each of its questions is a trimmed text of at least three code
    units, with at least one year, and none of its years is falsy. *)
Theorem payload_has_unique_questions D :
  let payload := preProcessedData (build_questionMap D) in
  NoDup (map (fun p => normalize_key (question p)) payload) /\
  Forall (fun p =>
            trim (question p) = question p /\
            3 <= String.length (question p) /\
            pp_years p <> [] /\
            Forall (fun y => truthy y = true) (pp_years p)) payload.
Proof.
  destruct (well_formed_build D) as [Hnd Hok].
  unfold preProcessedData. cbv zeta. split.
  - rewrite map_map. cbn [question].
    erewrite map_ext_in; [exact Hnd|].
    intros kv Hin. rewrite Forall_forall in Hok.
    destruct (Hok kv Hin) as (_ & _ & Hkey & _). exact Hkey.
  - apply Forall_map. eapply Forall_impl; [|exact Hok].
    intros kv (H1 & H2 & _ & H4 & H5). cbn. auto.
Qed.

(** X3. Aggregating further documents never rewrites what is there:
    every entry keeps its place and its text, and its years are only
    extended at the end. *)
Theorem more_documents_only_extend D D' :
  (exists new_keys,
     map fst (build_questionMap (D ++ D')) = map fst (build_questionMap D) ++ new_keys) /\
  (forall k e,
     map_get (build_questionMap D) k = Some e ->
     map_get (build_questionMap (D ++ D')) k
     = Some {| text := text e;
               years := years e ++ map snd (filter (has_key k) (occurrences D')) |}).
Proof.
  rewrite build_questionMap_app. split.
  - rewrite map_fst_fold. eexists. reflexivity.
  - intros k e He. rewrite map_get_fold, He. reflexivity.
Qed.

Lemma more_documents_only_extend_witness :
  map_get (build_questionMap ([doc_a] ++ [doc_b])) "define x"
  = Some {| text := "Define X";
            years := [JStr "2021"; JStr "2021"]
                     ++ map snd (filter (has_key "define x") (occurrences [doc_b])) |}.
Proof.
  destruct (more_documents_only_extend [doc_a] [doc_b]) as [_ H].
  apply (H "define x" {| text := "Define X"; years := [JStr "2021"; JStr "2021"] |}).
  reflexivity.
Defined.

(** X4. Questions that the aggregator does not accept (values that are
    not strings, and strings of fewer than three code units once
    trimmed) never influence the question map: the map is the one built
    from the accepted occurrences alone. *)
Theorem rejected_questions_leave_no_trace D :
  build_questionMap D
  = fold_left add_occurrence (filter accepted (occurrences D)) [] /\
  (forall D', filter accepted (occurrences D') = [] ->
     build_questionMap (D ++ D') = build_questionMap D).
Proof.
  split.
  - rewrite build_questionMap_fold. apply fold_accepted.
  - intros D' H. rewrite build_questionMap_app, fold_accepted, H. reflexivity.
Qed.

Lemma rejected_questions_leave_no_trace_witness :
  build_questionMap
    ([doc_a] ++ [ {| questions := [JStr " a "; JNum 7%Q; JNull; JStr ""];
                     year := JStr "1999"; sourceFile := "noise.pdf" |} ])
  = build_questionMap [doc_a].
Proof.
  destruct (rejected_questions_leave_no_trace [doc_a]) as [_ H].
  apply H. reflexivity.
Defined.

(* ================================================================== *)
(** ** Further properties of the normalization key *)
(* ================================================================== *)

Section KeyMore.

Lemma scan_InWord_scan q : forall st, scan InWord (scan st q) = scan st q.
Proof.
  induction q as [|c t IH]; intros st; [reflexivity|].
  cbn [scan]. destruct (is_ws c) eqn:E; [apply IH|].
  assert (El : is_ws (lower_char c) = false) by now rewrite is_ws_lower_char.
  destruct st; cbn [scan after_ws]; change (is_ws " ") with true; cbn iota;
    cbn [scan]; rewrite El, lower_char_idem, IH; reflexivity.
Qed.

Lemma scan_AtStart_scan q : scan AtStart (scan AtStart q) = scan AtStart q.
Proof.
  induction q as [|c t IH]; [reflexivity|].
  cbn [scan after_ws]. destruct (is_ws c) eqn:E; [exact IH|].
  cbn [scan]. rewrite is_ws_lower_char, E, lower_char_idem, scan_InWord_scan.
  reflexivity.
Qed.

Lemma toLowerCase_scan q : forall st, toLowerCase (scan st q) = scan st q.
Proof.
  induction q as [|c t IH]; intros st; [reflexivity|].
  cbn [scan]. destruct (is_ws c); [apply IH|].
  destruct st; cbn [toLowerCase]; rewrite ?lower_char_space, lower_char_idem, IH;
    reflexivity.
Qed.

Lemma trimEnd_cons c t : is_ws c = false -> trimEnd (String c t) = String c (trimEnd t).
Proof. intros E. cbn [trimEnd]. destruct (trimEnd t); [now rewrite E | reflexivity]. Qed.

Lemma trimEnd_scan q : forall st, trimEnd (scan st q) = scan st q.
Proof.
  induction q as [|c t IH]; intros st; [reflexivity|].
  cbn [scan]. destruct (is_ws c) eqn:E; [apply IH|].
  assert (El : is_ws (lower_char c) = false) by now rewrite is_ws_lower_char.
  destruct st.
  - now rewrite (trimEnd_cons _ _ El), IH.
  - now rewrite (trimEnd_cons _ _ El), IH.
  - assert (H : trimEnd (String (lower_char c) (scan InWord t))
                = String (lower_char c) (scan InWord t))
      by now rewrite (trimEnd_cons _ _ El), IH.
    change (trimEnd (String " " (String (lower_char c) (scan InWord t))))
      with (match trimEnd (String (lower_char c) (scan InWord t)) with
            | EmptyString => if is_ws " " then EmptyString else String " " EmptyString
            | t' => String " " t'
            end).
    now rewrite H.
Qed.

Lemma starts_with_ws_scan q : starts_with_ws (scan AtStart q) = false.
Proof.
  induction q as [|c t IH]; [reflexivity|].
  cbn [scan after_ws]. destruct (is_ws c) eqn:E; [exact IH|].
  cbn. now rewrite is_ws_lower_char.
Qed.

Lemma scan_length q : forall st,
  String.length (scan st q)
  <= String.length q + match st with AfterGap => 1 | _ => 0 end.
Proof.
  induction q as [|c t IH]; intros st; [destruct st; simpl; lia|].
  cbn [scan]. destruct (is_ws c).
  - specialize (IH (after_ws st)). destruct st; simpl in *; lia.
  - specialize (IH InWord). destruct st; simpl in *; lia.
Qed.

End KeyMore.

(** X5. The normalization key is canonical: it is its own key, it is
    already trimmed and in lower case, its white space is single spaces
    between words, and it is never longer than the question. *)
Theorem key_is_canonical q :
  let k := question_key q in
  question_key k = k /\
  trim k = k /\ toLowerCase k = k /\ replace_ws_runs k = k /\
  String.length k <= String.length q.
Proof.
  cbv zeta. rewrite !question_key_scan.
  assert (Htrim : trim (scan AtStart q) = scan AtStart q).
  { unfold trim. rewrite (trimStart_fixed _ (starts_with_ws_scan q)). apply trimEnd_scan. }
  assert (Hlow : toLowerCase (scan AtStart q) = scan AtStart q) by apply toLowerCase_scan.
  split; [apply scan_AtStart_scan|]. split; [exact Htrim|]. split; [exact Hlow|]. split.
  - pose proof (scan_AtStart_scan q) as H.
    rewrite <- question_key_scan in H at 1.
    unfold question_key, normalize_key in H. now rewrite Htrim, Hlow in H.
  - pose proof (scan_length q AtStart). simpl in *. lia.
Qed.

(* ================================================================== *)
(** ** Further properties of the normalizer and the extractor *)
(* ================================================================== *)

Section ServiceMore.

Variables (b : Browser) (ai : ExtractionBackend).

Lemma compressImage_unreadable f :
  reader_loads b f = false -> compressImage b f = Rejected "reader.onerror".
Proof. intros H. unfold compressImage. now rewrite H. Qed.

Lemma compressImage_readable f :
  reader_loads b f = true ->
  compressImage b f = Rejected "img.onerror" \/ exists d, compressImage b f = Resolved d.
Proof.
  intros H. unfold compressImage. rewrite H. cbn [negb].
  destruct (decode b f) as [[w h]|]; [right | now left].
  destruct (new_dimensions _ _ _) as [w' h'].
  destruct (context2d b f); cbn [negb]; eauto.
Qed.

(** Splitting the data URL of a file gives its bytes back. *)
Lemma original_payload_bytes f :
  no_comma (type f) = true -> no_comma (bytes f) = true ->
  original_payload f = Some (bytes f).
Proof.
  intros Ht Hb. unfold original_payload, after_comma, dataURL.
  change (";base64," ++ bytes f)%string with (";base64" ++ String "," (bytes f))%string.
  change ("data:" ++ type f ++ ";base64" ++ String "," (bytes f))%string
    with ("data:" ++ (type f ++ (";base64" ++ String "," (bytes f))))%string.
  rewrite <- !string_app_assoc.
  rewrite split_prefix.
  - now rewrite (split_no_comma _ Hb).
  - rewrite !no_comma_app, Ht. reflexivity.
Qed.

Lemma set_add_distinct seen v :
  ForallOrdPairs (fun x y => sameValueZero x y = false) seen ->
  ForallOrdPairs (fun x y => sameValueZero x y = false) (set_add seen v).
Proof.
  intros H. unfold set_add.
  destruct (existsb (sameValueZero v) seen) eqn:E; [exact H|].
  assert (Hv : Forall (fun x => sameValueZero x v = false) seen).
  { apply Forall_forall. intros x Hx.
    destruct (sameValueZero x v) eqn:Exv; [|reflexivity].
    assert (existsb (sameValueZero v) seen = true); [|congruence].
    apply existsb_exists. exists x. split; [exact Hx|].
    destruct x, v; simpl in *; try discriminate; try reflexivity.
    - now destruct b0, b1.
    - apply Qeq_bool_iff in Exv. apply Qeq_bool_iff. now symmetry.
    - now rewrite String.eqb_sym. }
  clear E. induction H as [|a l Ha Hl IH]; simpl.
  - repeat constructor.
  - inversion Hv; subst. constructor.
    + apply Forall_app. split; [exact Ha | now constructor].
    + now apply IH.
Qed.

Lemma array_from_set_distinct l :
  ForallOrdPairs (fun x y => sameValueZero x y = false) (array_from_set l).
Proof.
  unfold array_from_set.
  assert (H : ForallOrdPairs (fun x y => sameValueZero x y = false) []) by constructor.
  revert H. generalize (@nil jsval) as seen.
  induction l as [|v l IH]; intros seen H; simpl; [exact H|].
  apply IH. now apply set_add_distinct.
Qed.

Lemma parse_extraction_shape f t r :
  parse_extraction ai f t = Some r ->
  truthy (year r) = true /\ sourceFile r = name f /\
  ForallOrdPairs (fun x y => sameValueZero x y = false) (questions r).
Proof.
  unfold parse_extraction.
  destruct (JSON_parse ai t) as [result|]; [|discriminate].
  destruct (get_prop result "questions") as [qs|]; [|discriminate].
  destruct (iterate (js_or qs (JArr []))) as [items|]; [|discriminate].
  destruct (get_prop result "year") as [y|]; [|discriminate].
  intros [= <-]. cbn [year sourceFile questions]. split; [|split].
  - unfold js_or. destruct (truthy y) eqn:E; [exact E | reflexivity].
  - reflexivity.
  - apply array_from_set_distinct.
Qed.

End ServiceMore.

Lemma readable_file_resolves b f :
  reader_loads b f = true -> exists part, fileToGenerativePart b f = Resolved part.
Proof.
  intros Hr. unfold fileToGenerativePart, read_as_is. rewrite Hr.
  destruct (prefix "image/" (type f)); [|eauto].
  destruct (compressImage_readable b f Hr) as [E|[d E]]; rewrite E; eauto.
Qed.

Lemma unreadable_file_rejects b f :
  reader_loads b f = false -> exists reason, fileToGenerativePart b f = Rejected reason.
Proof.
  intros Hr. unfold fileToGenerativePart, read_as_is. rewrite Hr.
  destruct (prefix "image/" (type f)); [|eauto].
  rewrite (compressImage_unreadable b f Hr). eauto.
Qed.

(** X6. The normalizer fails for a file exactly when the file cannot be
    read: an image that cannot be decoded, a missing drawing context or
    a failing encoder never make it fail. *)
Theorem normalizer_fails_iff_unreadable b f :
  (exists reason, fileToGenerativePart b f = Rejected reason)
  <-> reader_loads b f = false.
Proof.
  split.
  - intros [reason H]. destruct (reader_loads b f) eqn:Hr; [|reflexivity].
    destruct (readable_file_resolves b f Hr) as [part E]. congruence.
  - apply unreadable_file_rejects.
Qed.

(** X7. A document that is not an image is passed through unchanged:
    when its media type and its base64 bytes hold no comma, the payload
    is exactly the bytes of the file, under the media type of the
    file. *)
Theorem documents_pass_through b f :
  prefix "image/" (type f) = false -> reader_loads b f = true ->
  no_comma (type f) = true -> no_comma (bytes f) = true ->
  fileToGenerativePart b f
  = Resolved {| data := Some (bytes f); mimeType := type f |}.
Proof.
  intros Hp Hr Ht Hb. rewrite (passthrough b f Hp Hr).
  now rewrite (original_payload_bytes f Ht Hb).
Qed.

Lemma documents_pass_through_witness :
  fileToGenerativePart lab_browser paper_2021
  = Resolved {| data := Some "JVBERi0xLjQ="; mimeType := "application/pdf" |}.
Proof.
  apply (documents_pass_through lab_browser paper_2021); reflexivity.
Defined.

(** X8. The two fallbacks of the image path deliver the bytes of the
    file: under the media type of the file when the image cannot be
    decoded, and under the label image/jpeg, whatever the type of the
    file, when the canvas gives no drawing context. *)
Theorem image_fallbacks_deliver_bytes b f :
  prefix "image/" (type f) = true -> reader_loads b f = true ->
  no_comma (type f) = true -> no_comma (bytes f) = true ->
  (decode b f = None ->
   fileToGenerativePart b f
   = Resolved {| data := Some (bytes f); mimeType := type f |}) /\
  (forall w h, decode b f = Some (w, h) -> context2d b f = false ->
   fileToGenerativePart b f
   = Resolved {| data := Some (bytes f); mimeType := "image/jpeg" |}).
Proof.
  intros Hp Hr Ht Hb. split.
  - intros Hd. rewrite (decode_failure_fallback b f Hp Hr Hd).
    now rewrite (original_payload_bytes f Ht Hb).
  - intros w h Hd Hc. rewrite (context_failure_fallback b f w h Hp Hr Hd Hc).
    now rewrite (original_payload_bytes f Ht Hb).
Qed.

Lemma image_fallbacks_deliver_bytes_witness :
  (decode lab_browser broken_png = None ->
   fileToGenerativePart lab_browser broken_png
   = Resolved {| data := Some "iVBORw0KAAAA"; mimeType := "image/png" |}) /\
  (forall w h, decode lab_browser broken_png = Some (w, h) ->
   context2d lab_browser broken_png = false ->
   fileToGenerativePart lab_browser broken_png
   = Resolved {| data := Some "iVBORw0KAAAA"; mimeType := "image/jpeg" |}).
Proof.
  apply (image_fallbacks_deliver_bytes lab_browser broken_png); reflexivity.
Defined.

(** X9. The extractor fails in three ways only: the file cannot be
    read, the backend call is rejected, or the response has no text. *)
Theorem extractor_fails_in_three_ways b ai f :
  (exists reason, extractQuestionsFromFile b ai f = Rejected reason)
  <->
  reader_loads b f = false \/
  exists part, fileToGenerativePart b f = Resolved part /\
    ((exists reason, generateContent ai f part = Rejected reason) \/
     (exists text, generateContent ai f part = Resolved text /\ no_text text = true)).
Proof.
  unfold extractQuestionsFromFile.
  destruct (fileToGenerativePart b f) as [part|reason0] eqn:Hpart.
  - assert (Hr : reader_loads b f = true).
    { destruct (reader_loads b f) eqn:E; [reflexivity|].
      apply unreadable_file_rejects in E as [r E]. congruence. }
    destruct (generateContent ai f part) as [text|reason1] eqn:Hgen.
    + destruct (no_text text) eqn:Ht.
      * split; [|eauto]. intros _. right. exists part. split; [reflexivity|].
        right. exists text. now rewrite Hgen.
      * split.
        -- intros [reason H]. destruct (parse_extraction ai f _); discriminate.
        -- intros [H|(part' & [= <-] & [[r H]|(t' & H & Ht')])]; try congruence.
    + split; [|eauto]. intros _. right. exists part. split; [reflexivity|].
      left. exists reason1. exact Hgen.
  - split; [|eauto]. intros _. left.
    destruct (reader_loads b f) eqn:Hr; [|reflexivity].
    destruct (readable_file_resolves b f Hr) as [part E]. congruence.
Qed.

(** X10. Whatever the response, a result of the extractor carries a
    year that is not falsy, the name of the file as its source, and
    questions that are pairwise different for the equality of [Set]. *)
Theorem extraction_result_is_well_formed b ai f r :
  extractQuestionsFromFile b ai f = Resolved r ->
  truthy (year r) = true /\ sourceFile r = name f /\
  ForallOrdPairs (fun x y => sameValueZero x y = false) (questions r).
Proof.
  unfold extractQuestionsFromFile.
  destruct (fileToGenerativePart b f) as [part|]; [|discriminate].
  destruct (generateContent ai f part) as [text|]; [|discriminate].
  destruct (no_text text); [discriminate|].
  destruct (parse_extraction ai f _) as [r'|] eqn:E.
  - intros [= <-]. now apply (parse_extraction_shape ai f _ r' E).
  - intros [= <-]. cbn. repeat split. constructor.
Qed.

Lemma extraction_result_is_well_formed_witness :
  let r := {| questions := [JStr "Define X"; JStr "define x "];
              year := JStr "2021"; sourceFile := "paper-2021.pdf" |} in
  truthy (year r) = true /\ sourceFile r = name paper_2021 /\
  ForallOrdPairs (fun x y => sameValueZero x y = false) (questions r).
Proof.
  apply (extraction_result_is_well_formed lab_browser lab_extractor paper_2021).
  reflexivity.
Defined.

(** X11. The canvas of every decoded image is within the bound on both
    sides, and an image of the size of the canvas is not resized again:
    compressing twice changes nothing the second time. *)
Theorem canvas_is_within_bound fp w h :
  (1 <= w <= 2 ^ 31)%Z -> (1 <= h <= 2 ^ 31)%Z ->
  let dims := new_dimensions fp (inject_Z w) (inject_Z h) in
  let cw := to_unsigned_long (fst dims) in
  let ch := to_unsigned_long (snd dims) in
  (0 <= cw <= 1536)%Z /\ (0 <= ch <= 1536)%Z /\
  new_dimensions fp (inject_Z cw) (inject_Z ch) = (inject_Z cw, inject_Z ch).
Proof.
  intros Hw Hh dims cw ch.
  assert (Hbound : (0 <= cw <= 1536)%Z /\ (0 <= ch <= 1536)%Z).
  { destruct (Z_le_dec w 1536) as [Lw|Lw]; [destruct (Z_le_dec h 1536) as [Lh|Lh]|].
    - assert (E : dims = (inject_Z w, inject_Z h)).
      { apply new_dimensions_small; unfold MAX_IMAGE_DIMENSION;
          change 1536%Q with (inject_Z 1536); now rewrite <- Zle_Qle. }
      subst cw ch. rewrite E. cbn [fst snd]. unfold to_unsigned_long.
      rewrite !Qfloor_Z, !Z.mod_small; lia.
    - assert (Hbig : (1536 < w)%Z \/ (1536 < h)%Z) by lia.
      destruct (new_dimensions_large fp w h Hw Hh Hbig) as (_ & _ & _ & _ & Hmax & _).
      fold dims in Hmax. fold cw in Hmax. fold ch in Hmax.
      assert (0 <= cw)%Z by (apply Z.mod_pos_bound; lia).
      assert (0 <= ch)%Z by (apply Z.mod_pos_bound; lia). lia.
    - assert (Hbig : (1536 < w)%Z \/ (1536 < h)%Z) by lia.
      destruct (new_dimensions_large fp w h Hw Hh Hbig) as (_ & _ & _ & _ & Hmax & _).
      fold dims in Hmax. fold cw in Hmax. fold ch in Hmax.
      assert (0 <= cw)%Z by (apply Z.mod_pos_bound; lia).
      assert (0 <= ch)%Z by (apply Z.mod_pos_bound; lia). lia. }
  destruct Hbound as [Hcw Hch]. split; [exact Hcw|]. split; [exact Hch|].
  apply new_dimensions_small; unfold MAX_IMAGE_DIMENSION;
    change 1536%Q with (inject_Z 1536); rewrite <- Zle_Qle; lia.
Qed.

Lemma canvas_is_within_bound_witness :
  let dims := new_dimensions exact_arithmetic (inject_Z 3072) (inject_Z 2048) in
  let cw := to_unsigned_long (fst dims) in
  let ch := to_unsigned_long (snd dims) in
  (0 <= cw <= 1536)%Z /\ (0 <= ch <= 1536)%Z /\
  new_dimensions exact_arithmetic (inject_Z cw) (inject_Z ch) = (inject_Z cw, inject_Z ch).
Proof.
  apply (canvas_is_within_bound exact_arithmetic 3072 2048); lia.
Defined.

(* ================================================================== *)
(** ** Further properties of the run *)
(* ================================================================== *)

Section RunMore.

Variable env : Env.

Lemma guards_pass s :
  files s <> [] -> API_KEY env = true ->
  forall schedule,
    processFiles env schedule s
    = setCurrentStatus ""
        (setIsProcessing false
           (try_block env schedule (files s)
              (setCurrentStatus (status_extracting (List.length (files s)))
                 (setAnalysisResults None
                    (setError None (setProgress 0 (setIsProcessing true s))))))).
Proof.
  intros Hne Hkey schedule. unfold processFiles.
  assert (Hlen : (List.length (files s) =? 0) = false)
    by (destruct (files s); [contradiction | reflexivity]).
  now rewrite Hlen, Hkey.
Qed.

Lemma guards_fail s schedule :
  files s = [] \/ API_KEY env = false ->
  processFiles env schedule s
  = setError (Some (if List.length (files s) =? 0 then NoInputError else ConfigError)) s.
Proof.
  intros H. unfold processFiles.
  destruct (List.length (files s) =? 0) eqn:Hlen; [reflexivity|].
  destruct H as [H|H]; [rewrite H in Hlen; discriminate|]. now rewrite H.
Qed.

Lemma files_start_all files0 : forall s,
  files (start_all files0 s) = files_started files0 (files s).
Proof.
  unfold start_all, files_started.
  induction files0 as [|f fs IH]; intros s; simpl; [reflexivity|]. now rewrite IH.
Qed.

Lemma files_settle files0 ps i :
  files (fst (settle env files0 ps i)) = files_settled env files0 (files (fst ps)) i.
Proof.
  unfold settle, files_settled. destruct (nth_error files0 i) as [f|]; [|reflexivity].
  destruct (extraction_of env f); reflexivity.
Qed.

Lemma files_settle_all files0 schedule : forall ps,
  files (fst (fold_left (settle env files0) schedule ps))
  = fold_left (files_settled env files0) schedule (files (fst ps)).
Proof.
  induction schedule as [|i sched IH]; intros ps; simpl; [reflexivity|].
  now rewrite IH, files_settle.
Qed.

(** The uploads after a run that passes the guards. *)
Lemma processFiles_files schedule s :
  files s <> [] -> API_KEY env = true ->
  files (processFiles env schedule s)
  = fold_left (files_settled env (files s)) schedule
              (files_started (files s) (files s)).
Proof.
  intros Hne Hkey. rewrite (guards_pass s Hne Hkey). unfold try_block.
  set (s0 := setCurrentStatus (status_extracting _) _).
  set (s1 := fst (fold_left _ schedule _)).
  assert (E : files s1
              = fold_left (files_settled env (files s)) schedule
                          (files_started (files s) (files s))).
  { unfold s1. rewrite files_settle_all. cbn [fst]. now rewrite files_start_all. }
  destruct (List.length (successful _) =? 0); [exact E|].
  destruct (analyzeRepeatedQuestions _ _); exact E.
Qed.

(** The fields of a run that passes the guards and fails. *)
Lemma processFiles_failed schedule s :
  files s <> [] -> API_KEY env = true ->
  error (processFiles env schedule s) <> None ->
  analysisResults (processFiles env schedule s) = None /\
  summary (processFiles env schedule s) = summary s /\
  exists message,
    error (processFiles env schedule s) = Some message /\ message <> "".
Proof.
  intros Hne Hkey. rewrite (guards_pass s Hne Hkey). unfold try_block.
  set (s0 := setCurrentStatus (status_extracting _) _).
  destruct (start_all_outcome (files s) s0) as [Hst _].
  destruct (settle_all env (files s) schedule (start_all (files s) s0, 0))
    as (d & _ & _ & _ & _ & Hout).
  cbn [fst snd] in Hout.
  pose proof (same_outcome_trans _ _ _ Hst Hout) as (_ & _ & Hres & Hsum & Herr & _).
  change (analysisResults s0) with (@None (list AnalysisGroup)) in Hres.
  change (summary s0) with (summary s) in Hsum.
  change (error s0) with (@None string) in Herr.
  set (s1 := fst (fold_left _ schedule _)) in *.
  assert (Hshown : forall m, shown m <> "").
  { intros m. unfold shown. destruct (m =? "")%string eqn:E; [discriminate|].
    now apply String.eqb_neq. }
  destruct (List.length (successful _) =? 0).
  - intros _. cbn. rewrite Hres, Hsum. repeat split.
    eexists. split; [reflexivity | discriminate].
  - destruct (analyzeRepeatedQuestions _ _) as [groups|message].
    + cbn. rewrite Herr. congruence.
    + intros _. cbn. rewrite Hres, Hsum. repeat split.
      exists (shown message). split; [reflexivity | apply Hshown].
Qed.

(** *** The list of uploads *)

Lemma update_file_ids target change l :
  (forall f, id (change f) = id f /\ file (change f) = file f) ->
  map id (update_file target change l) = map id l /\
  map file (update_file target change l) = map file l.
Proof.
  intros H. unfold update_file. rewrite !map_map. split; apply map_ext; intros f;
    destruct (id f =? target)%string; try reflexivity; apply H.
Qed.

Lemma files_started_ids files0 : forall l,
  map id (files_started files0 l) = map id l /\
  map file (files_started files0 l) = map file l.
Proof.
  unfold files_started. induction files0 as [|f fs IH]; intros l; simpl; [easy|].
  destruct (IH (update_file (id f) mark_processing l)) as [H1 H2].
  destruct (update_file_ids (id f) mark_processing l) as [H3 H4]; [easy|].
  split; congruence.
Qed.

Lemma files_settled_ids files0 l i :
  map id (files_settled env files0 l i) = map id l /\
  map file (files_settled env files0 l i) = map file l.
Proof.
  unfold files_settled. destruct (nth_error files0 i) as [f|]; [|easy].
  destruct (extraction_of env f); now apply update_file_ids.
Qed.

Lemma files_settled_all_ids files0 schedule : forall l,
  map id (fold_left (files_settled env files0) schedule l) = map id l /\
  map file (fold_left (files_settled env files0) schedule l) = map file l.
Proof.
  induction schedule as [|i sched IH]; intros l; simpl; [easy|].
  destruct (IH (files_settled env files0 l i)) as [H1 H2].
  destruct (files_settled_ids files0 l i) as [H3 H4]. split; congruence.
Qed.

Lemma settled_ids_app files0 d1 d2 :
  settled_ids files0 (d1 ++ d2) = settled_ids files0 d1 ++ settled_ids files0 d2.
Proof. unfold settled_ids. apply flat_map_app. Qed.

Lemma update_file_settled target change l f' :
  (forall f, id (change f) = id f /\ is_settled (change f) = true) ->
  In f' (update_file target change l) ->
  exists f, In f l /\ id f' = id f /\
            (id f = target \/ f' = f) /\ (id f = target -> is_settled f' = true).
Proof.
  intros H Hin. unfold update_file in Hin. apply in_map_iff in Hin as (f & E & Hf).
  exists f. split; [exact Hf|].
  destruct (id f =? target)%string eqn:Et.
  - apply String.eqb_eq in Et. subst f'. destruct (H f) as [H1 H2]. auto.
  - subst f'. apply String.eqb_neq in Et.
    split; [reflexivity|]. split; [now right|]. intros E. contradiction.
Qed.

(** Once the task of an identifier has settled, the uploads of that
    identifier show a final status. *)
Lemma settled_stay_settled files0 schedule : forall done l,
  (forall g, In g l -> In (id g) (settled_ids files0 done) -> is_settled g = true) ->
  forall g, In g (fold_left (files_settled env files0) schedule l) ->
    In (id g) (settled_ids files0 (done ++ schedule)) -> is_settled g = true.
Proof.
  induction schedule as [|i sched IH]; intros done l Hinv g Hg Hid.
  - rewrite app_nil_r in Hid. now apply Hinv.
  - cbn [fold_left] in Hg.
    apply (IH (done ++ [i]) (files_settled env files0 l i)); [|exact Hg|].
    + clear g Hg Hid. intros g Hg Hid. rewrite settled_ids_app in Hid.
      unfold files_settled in Hg.
      assert (Hi : settled_ids files0 [i]
                   = match nth_error files0 i with Some f => [id f] | None => [] end)
        by (unfold settled_ids; cbn [flat_map]; apply app_nil_r).
      rewrite Hi in Hid.
      destruct (nth_error files0 i) as [fo|].
      * assert (Hstep : exists f, In f l /\ id g = id f /\
                  (id f = id fo \/ g = f) /\ (id f = id fo -> is_settled g = true)).
        { destruct (extraction_of env fo);
            eapply update_file_settled; try exact Hg; intros f; split; reflexivity. }
        destruct Hstep as (f & Hf & Eid & Hor & Hset).
        apply in_app_or in Hid as [Hid|[Hid|[]]].
        -- destruct Hor as [E|E]; [now apply Hset|]. subst g. now apply Hinv.
        -- apply Hset. congruence.
      * rewrite app_nil_r in Hid. now apply Hinv.
    + now rewrite <- app_assoc.
Qed.

Lemma mark_processing_all files0 : forall l,
  files_started files0 l
  = map (fun g => if existsb (String.eqb (id g)) (map id files0)
                  then mark_processing g else g) l.
Proof.
  unfold files_started. induction files0 as [|f fs IH]; intros l; simpl.
  - symmetry. apply map_id.
  - rewrite IH. unfold update_file. rewrite map_map. apply map_ext. intros g.
    destruct (id g =? id f)%string eqn:E; cbn [id mark_processing orb].
    + now destruct (existsb _ (map id fs)).
    + reflexivity.
Qed.

Lemma existsb_id_In (f : UploadedFile) l :
  In f l -> existsb (String.eqb (id f)) (map id l) = true.
Proof.
  intros H. apply existsb_exists. exists (id f). split; [now apply in_map|].
  apply String.eqb_refl.
Qed.

Lemma files_started_self files0 :
  files_started files0 files0 = map mark_processing files0.
Proof.
  rewrite mark_processing_all. apply map_ext_in. intros g Hg.
  now rewrite (existsb_id_In g files0 Hg).
Qed.

Lemma same_id_same_upload (l : list UploadedFile) f g :
  NoDup (map id l) -> In f l -> In g l -> id f = id g -> f = g.
Proof.
  induction l as [|a l IH]; [easy|]. simpl. intros Hnd Hf Hg E.
  inversion Hnd as [|? ? Ha Hl]; subst.
  destruct Hf as [<-|Hf], Hg as [<-|Hg]; auto.
  - exfalso. apply Ha. rewrite E. now apply in_map.
  - exfalso. apply Ha. rewrite <- E. now apply in_map.
Qed.

(** With identifiers that are all different, the uploads whose tasks
    have settled hold their settled records and the others are being
    processed. *)
Lemma settled_records files0 : NoDup (map id files0) ->
  forall schedule done,
    fold_left (files_settled env files0) schedule
      (map (fun f => if existsb (String.eqb (id f)) (settled_ids files0 done)
                     then settled_record env f else mark_processing f) files0)
    = map (fun f => if existsb (String.eqb (id f)) (settled_ids files0 (done ++ schedule))
                    then settled_record env f else mark_processing f) files0.
Proof.
  intros Hnd. induction schedule as [|i sched IH]; intros done.
  - now rewrite app_nil_r.
  - cbn [fold_left].
    replace (done ++ i :: sched) with ((done ++ [i]) ++ sched)
      by now rewrite <- app_assoc.
    rewrite <- IH. f_equal.
    unfold files_settled. rewrite settled_ids_app.
    assert (Hi : settled_ids files0 [i]
                 = match nth_error files0 i with Some f => [id f] | None => [] end)
      by (unfold settled_ids; cbn [flat_map]; apply app_nil_r).
    rewrite Hi.
    destruct (nth_error files0 i) as [fo|] eqn:Ei.
    + apply nth_error_In in Ei.
      assert (Hstep : forall change,
        (forall f, In f files0 -> id f = id fo ->
           change (if existsb (String.eqb (id f)) (settled_ids files0 done)
                   then settled_record env f else mark_processing f)
           = settled_record env f) ->
        update_file (id fo) change
          (map (fun f => if existsb (String.eqb (id f)) (settled_ids files0 done)
                         then settled_record env f else mark_processing f) files0)
        = map (fun f => if existsb (String.eqb (id f)) (settled_ids files0 done ++ [id fo])
                        then settled_record env f else mark_processing f) files0).
      { intros change Hchange. unfold update_file. rewrite map_map.
        apply map_ext_in. intros f Hf. rewrite existsb_app. cbn [existsb].
        rewrite orb_false_r.
        assert (Eid : id (if existsb (String.eqb (id f)) (settled_ids files0 done)
                          then settled_record env f else mark_processing f) = id f).
        { destruct (existsb _ _); [|reflexivity].
          unfold settled_record. now destruct (extraction_of env f). }
        rewrite Eid. destruct (id f =? id fo)%string eqn:E.
        - rewrite orb_true_r. apply Hchange; [exact Hf | now apply String.eqb_eq].
        - now rewrite orb_false_r. }
      destruct (extraction_of env fo) as [ex|] eqn:Eex; apply Hstep;
        intros f Hf Eid;
        rewrite (same_id_same_upload files0 f fo Hnd Hf Ei Eid);
        unfold settled_record; rewrite Eex;
        destruct (existsb _ _); reflexivity.
    + now rewrite app_nil_r.
Qed.

Lemma all_tasks_settle files0 schedule f :
  Permutation schedule (seq 0 (List.length files0)) -> In f files0 ->
  In (id f) (settled_ids files0 schedule).
Proof.
  intros Hperm Hf. apply In_nth_error in Hf as [i Hi].
  unfold settled_ids. apply in_flat_map. exists i. split.
  - apply (Permutation_in _ (Permutation_sym Hperm)). apply in_seq.
    assert (i < List.length files0) by (apply nth_error_Some; congruence). lia.
  - rewrite Hi. now left.
Qed.

End RunMore.

(** X12. A run ends without an error exactly when the document set is
    not empty, the credential is set, at least one extraction resolved
    and the analysis resolved. *)
Theorem run_succeeds_iff env schedule s :
  error (processFiles env schedule s) = None
  <->
  files s <> [] /\ API_KEY env = true /\
  successful (extraction_results env (files s)) <> [] /\
  exists groups,
    analyzeRepeatedQuestions (analysis_ai env)
      (successful (extraction_results env (files s))) = Resolved groups.
Proof.
  destruct (files s) as [|f0 fs] eqn:Hfiles.
  { rewrite (guards_fail env s schedule) by now left.
    split; [discriminate | intros [H _]; contradiction]. }
  destruct (API_KEY env) eqn:Hkey.
  2:{ rewrite (guards_fail env s schedule) by now right.
      split; [discriminate | intros (_ & H & _); discriminate]. }
  assert (Hne : files s <> []) by (rewrite Hfiles; discriminate).
  destruct (processFiles_cases env schedule s Hne Hkey) as (d & _ & _ & Hcases).
  cbv zeta in Hcases. rewrite Hfiles in Hcases.
  destruct (successful (extraction_results env (f0 :: fs))) as [|r rs].
  - destruct Hcases as (He & _). rewrite He.
    split; [discriminate | intros (_ & _ & H & _); contradiction].
  - destruct Hcases as (_ & Hcases).
    destruct (analyzeRepeatedQuestions (analysis_ai env) (r :: rs)) as [groups|message].
    + destruct Hcases as (He & _). rewrite He. split; [|reflexivity].
      intros _. repeat split; try discriminate. now exists groups.
    + destruct Hcases as (He & _). rewrite He.
      split; [discriminate | intros (_ & _ & _ & groups & H); discriminate].
Qed.

(** X13. A run that passes the guards and fails leaves the component
    idle and ready for another attempt: it is not processing, its
    status line is empty, no results are on display, the message of the
    error is not empty, and the summary is the one of before. *)
Theorem failed_run_is_retriable env schedule s :
  files s <> [] -> API_KEY env = true ->
  let s' := processFiles env schedule s in
  error s' <> None ->
  isProcessing s' = false /\ currentStatus s' = "" /\
  analysisResults s' = None /\ summary s' = summary s /\
  exists message, error s' = Some message /\ message <> "".
Proof.
  intros Hne Hkey s' Herr. subst s'.
  destruct (processFiles_failed env schedule s Hne Hkey Herr) as (H1 & H2 & H3).
  rewrite (guards_pass env s Hne Hkey) in *. repeat split; assumption.
Qed.

Lemma failed_run_is_retriable_witness :
  let s := initial [upload "a" silent; upload "b" silent] in
  let s' := processFiles lab [1; 0] s in
  isProcessing s' = false /\ currentStatus s' = "" /\
  analysisResults s' = None /\ summary s' = summary s /\
  exists message, error s' = Some message /\ message <> "".
Proof.
  apply (failed_run_is_retriable lab [1; 0]
           (initial [upload "a" silent; upload "b" silent])).
  - discriminate.
  - reflexivity.
  - discriminate.
Defined.

(** X14. After a run in which every task settles, the list of uploads
    has the same identifiers and the same files in the same order, and
    no upload is left pending or processing. *)
Theorem uploads_end_settled env schedule s :
  files s <> [] -> API_KEY env = true ->
  Permutation schedule (seq 0 (List.length (files s))) ->
  let uploads := files (processFiles env schedule s) in
  map id uploads = map id (files s) /\
  map file uploads = map file (files s) /\
  Forall (fun f => status f = Completed \/ status f = Failed) uploads.
Proof.
  intros Hne Hkey Hperm uploads. subst uploads.
  rewrite (processFiles_files env schedule s Hne Hkey).
  destruct (files_settled_all_ids env (files s) schedule
              (files_started (files s) (files s))) as [H1 H2].
  destruct (files_started_ids (files s) (files s)) as [H3 H4].
  assert (Hids : map id (fold_left (files_settled env (files s)) schedule
                           (files_started (files s) (files s))) = map id (files s))
    by congruence.
  split; [exact Hids|]. split; [congruence|].
  apply Forall_forall. intros g Hg.
  assert (Hset : is_settled g = true).
  { apply (settled_stay_settled env (files s) schedule []
             (files_started (files s) (files s))); [easy | exact Hg|].
    cbn [app].
    assert (Hin : In (id g) (map id (files s))) by (rewrite <- Hids; now apply in_map).
    apply in_map_iff in Hin as (f & <- & Hf).
    now apply all_tasks_settle. }
  unfold is_settled in Hset. destruct (status g); auto; discriminate.
Qed.

Lemma uploads_end_settled_witness :
  let s := initial [upload "a" paper_2021; upload "a" silent] in
  let uploads := files (processFiles lab [1; 0] s) in
  map id uploads = map id (files s) /\
  map file uploads = map file (files s) /\
  Forall (fun f => status f = Completed \/ status f = Failed) uploads.
Proof.
  apply (uploads_end_settled lab [1; 0]
           (initial [upload "a" paper_2021; upload "a" silent])).
  - discriminate.
  - reflexivity.
  - apply perm_swap.
Defined.

(** X15. When the identifiers of the uploads are all different, every
    upload ends with the outcome of its own task, in whatever order the
    tasks settle: completed with the year and the number of questions
    of its extraction, or failed with the year and the count it had
    before the run. *)
Theorem uploads_hold_their_outcomes env schedule s :
  files s <> [] -> API_KEY env = true ->
  NoDup (map id (files s)) ->
  Permutation schedule (seq 0 (List.length (files s))) ->
  files (processFiles env schedule s) = map (settled_record env) (files s).
Proof.
  intros Hne Hkey Hnd Hperm.
  rewrite (processFiles_files env schedule s Hne Hkey), files_started_self.
  pose proof (settled_records env (files s) Hnd schedule []) as H.
  cbn [app] in H.
  assert (E0 : map mark_processing (files s)
               = map (fun f => if existsb (String.eqb (id f)) (settled_ids (files s) [])
                               then settled_record env f else mark_processing f) (files s))
    by reflexivity.
  rewrite E0, H. apply map_ext_in. intros f Hf.
  assert (Hin : existsb (String.eqb (id f)) (settled_ids (files s) schedule) = true).
  { apply existsb_exists. exists (id f). split; [|apply String.eqb_refl].
    now apply all_tasks_settle. }
  now rewrite Hin.
Qed.

Lemma uploads_hold_their_outcomes_witness :
  files (processFiles lab [2; 0; 1]
           (initial [upload "a" paper_2021; upload "b" silent; upload "c" paper_2022]))
  = map (settled_record lab) [upload "a" paper_2021; upload "b" silent; upload "c" paper_2022].
Proof.
  apply (uploads_hold_their_outcomes lab [2; 0; 1]
           (initial [upload "a" paper_2021; upload "b" silent; upload "c" paper_2022])).
  - discriminate.
  - reflexivity.
  - repeat constructor; simpl; intuition discriminate.
  - simpl. apply (perm_trans (l' := [0; 2; 1])); [apply perm_swap|].
    apply perm_skip, perm_swap.
Defined.

(** With a repeated identifier the records follow the task that settles
    last: here the upload of the paper ends as failed. *)
Example repeated_identifier_ex :
  map status (files (processFiles lab [0; 1]
                       (initial [upload "a" paper_2021; upload "a" silent])))
  = [Failed; Failed].
Proof. reflexivity. Qed.

(* ================================================================== *)
(** ** The list of uploads of the uploader *)
(* ================================================================== *)

Section UploaderFacts.

Lemma new_uploads_shape random_id picked : forall call,
  map file (new_uploads random_id call picked) = picked /\
  map id (new_uploads random_id call picked)
  = map random_id (seq call (List.length picked)) /\
  Forall (fun f => status f = Pending /\ detectedYear f = None
                   /\ extractedQuestionsCount f = None)
         (new_uploads random_id call picked).
Proof.
  induction picked as [|f rest IH]; intros call; simpl.
  - repeat split. constructor.
  - destruct (IH (S call)) as (H1 & H2 & H3). rewrite H1, H2.
    repeat split. constructor; [now repeat split | exact H3].
Qed.

Lemma removeFile_absent target l :
  ~ In target (map id l) -> removeFile target l = l.
Proof.
  unfold removeFile. induction l as [|f l IH]; simpl; intros H; [reflexivity|].
  destruct (id f =? target)%string eqn:E.
  - apply String.eqb_eq in E. exfalso. apply H. now left.
  - cbn [negb]. rewrite IH; [reflexivity|]. intros Hin. apply H. now right.
Qed.

Lemma removeFile_app target l1 l2 :
  removeFile target (l1 ++ l2) = removeFile target l1 ++ removeFile target l2.
Proof. unfold removeFile. apply filter_app. Qed.

Lemma picked_files_shape_aux random_id chosen prev :
  exists added,
    handleFileChange random_id (Some chosen) prev = prev ++ added /\
    map id added = map random_id (seq 0 (List.length chosen)).
Proof.
  unfold handleFileChange. destruct chosen as [|f rest].
  - exists []. now rewrite app_nil_r.
  - exists (new_uploads random_id 0 (f :: rest)). split; [reflexivity|].
    apply new_uploads_shape.
Qed.

Lemma fold_left_over_map {A B C} (g : A -> B -> A) (h : C -> B) (l : list C) : forall a,
  fold_left (fun x c => g x (h c)) l a = fold_left g (map h l) a.
Proof. induction l as [|c l IH]; intros a; simpl; [reflexivity | apply IH]. Qed.

End UploaderFacts.

(** Picking files appends one pending upload for each picked file, in
    the order of the selection; a selection that is missing or empty
    changes nothing. *)
Lemma handleFileChange_shape random_id picked prev :
  let chosen := match picked with Some l => l | None => [] end in
  exists added,
    handleFileChange random_id picked prev = prev ++ added /\
    map file added = chosen /\
    map id added = map random_id (seq 0 (List.length chosen)) /\
    Forall (fun f => status f = Pending /\ detectedYear f = None
                     /\ extractedQuestionsCount f = None) added.
Proof.
  cbv zeta. unfold handleFileChange.
  destruct picked as [[|f rest]|].
  - exists []. rewrite app_nil_r. repeat split. constructor.
  - exists (new_uploads random_id 0 (f :: rest)).
    split; [reflexivity|]. apply new_uploads_shape.
  - exists []. rewrite app_nil_r. repeat split. constructor.
Qed.

(** X16. With identifiers that are all different, removing an upload
    deletes exactly that upload and keeps the others in their order. *)
Theorem remove_deletes_one_upload f prev :
  NoDup (map id prev) -> In f prev ->
  exists before after,
    prev = before ++ f :: after /\
    removeFile (id f) prev = before ++ after.
Proof.
  intros Hnd Hin. apply in_split in Hin as (before & after & ->).
  exists before, after. split; [reflexivity|].
  rewrite map_app in Hnd. cbn [map] in Hnd.
  pose proof (NoDup_remove_2 _ _ _ Hnd) as Hnot.
  rewrite removeFile_app. unfold removeFile at 2. cbn [filter].
  rewrite String.eqb_refl. cbn [negb].
  fold (removeFile (id f) after).
  rewrite !removeFile_absent; [reflexivity| |];
    intros H; apply Hnot; apply in_or_app; auto.
Qed.

Lemma remove_deletes_one_upload_witness :
  exists before after,
    [upload "a" paper_2021; upload "b" silent; upload "c" paper_2022]
    = before ++ upload "b" silent :: after /\
    removeFile "b" [upload "a" paper_2021; upload "b" silent; upload "c" paper_2022]
    = before ++ after.
Proof.
  apply (remove_deletes_one_upload (upload "b" silent)
           [upload "a" paper_2021; upload "b" silent; upload "c" paper_2022]).
  - repeat constructor; simpl; intuition discriminate.
  - right. now left.
Defined.

(** X17. Picking files and then removing each of them again gives the
    list of before, when the new identifiers differ from those in the
    list. *)
Theorem pick_then_remove_restores random_id chosen prev :
  (forall i, i < List.length chosen -> ~ In (random_id i) (map id prev)) ->
  fold_left (fun l i => removeFile (random_id i) l)
            (seq 0 (List.length chosen))
            (handleFileChange random_id (Some chosen) prev)
  = prev.
Proof.
  intros Hfresh.
  assert (Hgen : forall added,
    (forall r, In r (map id added) -> ~ In r (map id prev)) ->
    forall ids, (forall r, In r (map id added) -> In r ids) ->
      (forall r, In r ids -> ~ In r (map id prev)) ->
      fold_left (fun l r => removeFile r l) ids (prev ++ added) = prev).
  { intros added _ ids. revert added.
    induction ids as [|r ids IH]; intros added Hcover Hout.
    - destruct added as [|a added]; [now rewrite app_nil_r|].
      exfalso. apply (Hcover (id a)). now left.
    - cbn [fold_left]. rewrite removeFile_app, removeFile_absent by (apply Hout; now left).
      apply IH.
      + intros r' Hr'. unfold removeFile in Hr'. apply in_map_iff in Hr' as (g & <- & Hg).
        apply filter_In in Hg as [Hg Hne]. apply negb_true_iff, String.eqb_neq in Hne.
        destruct (Hcover (id g)) as [E|H]; [now apply in_map | congruence | exact H].
      + intros r' Hr'. apply Hout. now right. }
  destruct (picked_files_shape_aux random_id chosen prev) as (added & E & Hids).
  rewrite E.
  rewrite (fold_left_over_map (fun l r => removeFile r l) random_id).
  apply Hgen.
  - intros r Hr. rewrite Hids in Hr. apply in_map_iff in Hr as (i & <- & Hi).
    apply in_seq in Hi. apply Hfresh. lia.
  - intros r Hr. now rewrite <- Hids.
  - intros r Hr. apply in_map_iff in Hr as (i & <- & Hi).
    apply in_seq in Hi. apply Hfresh. lia.
Qed.

Lemma pick_then_remove_restores_witness :
  fold_left (fun l i => removeFile ((fun n => if n =? 0 then "x1" else "x2") i) l)
            (seq 0 (List.length [paper_2021; silent]))
            (handleFileChange (fun n => if n =? 0 then "x1" else "x2")
                              (Some [paper_2021; silent]) [upload "a" paper_2022])
  = [upload "a" paper_2022].
Proof.
  apply (pick_then_remove_restores (fun n => if n =? 0 then "x1" else "x2")
           [paper_2021; silent] [upload "a" paper_2022]).
  intros i Hi. destruct i as [|i]; simpl; intuition discriminate.
Defined.

(* ================================================================== *)
(** ** The markup of a model answer *)
(* ================================================================== *)

Section MarkupFacts.

Variable p : ascii -> bool.

Lemma avoids_app x y : avoids p (x ++ y) = avoids p x && avoids p y.
Proof.
  induction x as [|c t IH]; simpl; [reflexivity|]. now rewrite IH, andb_assoc.
Qed.

Lemma replace_newlines_avoids s :
  avoids p br = true ->
  avoids (fun c => p c && negb (Ascii.eqb c LF)) s = true ->
  avoids p (replace_newlines s) = true.
Proof.
  intros Hbr. induction s as [|c t IH]; [reflexivity|].
  cbn [avoids replace_newlines].
  intros H. apply andb_prop in H as [Hc Ht].
  destruct (Ascii.eqb c LF) eqn:E.
  - rewrite avoids_app, Hbr. now apply IH.
  - cbn [avoids]. cbn [negb] in Hc. rewrite andb_true_r in Hc. rewrite Hc. now apply IH.
Qed.

Lemma find_close_avoids s : forall g n,
  find_close s = Some (g, n) -> avoids p s = true -> avoids p g = true.
Proof.
  induction s as [|c t IH]; intros g n; simpl; [discriminate|].
  destruct (Ascii.eqb c star && starts_with star t); [now intros [= <- <-]|].
  destruct (is_line_terminator c); [discriminate|].
  destruct (find_close t) as [[g' n']|]; [|discriminate].
  intros [= <- <-] H. apply andb_prop in H as [Hc Ht]. simpl.
  rewrite Hc. now apply (IH g' n').
Qed.

Lemma replace_bold_avoids s :
  avoids p strong_open = true -> avoids p strong_close = true ->
  avoids p s = true -> forall skip, avoids p (replace_bold skip s) = true.
Proof.
  intros Ho Hc. induction s as [|c t IH]; intros H skip; [reflexivity|].
  cbn [avoids] in H. apply andb_prop in H as [Hpc Ht].
  cbn [replace_bold]. destruct skip as [|k]; [|now apply IH].
  destruct t as [|c' t']; [simpl; now rewrite Hpc|].
  destruct (Ascii.eqb c star && Ascii.eqb c' star).
  - destruct (find_close t') as [[g n]|] eqn:E.
    + rewrite !avoids_app, Ho, Hc, (IH Ht). cbn [andb]. rewrite andb_true_r.
      cbn [avoids] in Ht. apply andb_prop in Ht as [_ Ht'].
      now apply (find_close_avoids t' g n E).
    + cbn [avoids]. now rewrite Hpc, (IH Ht).
  - cbn [avoids]. now rewrite Hpc, (IH Ht).
Qed.

Lemma replace_bullets_avoids s :
  avoids p span_open = true -> avoids p span_close = true ->
  avoids p s = true -> forall st, avoids p (replace_bullets st s) = true.
Proof.
  intros Ho Hc. induction s as [|c t IH]; intros H st.
  - destruct st; simpl; auto.
  - cbn [avoids] in H. apply andb_prop in H as [Hpc Ht].
    cbn [replace_bullets]. destruct st.
    + destruct (Ascii.eqb c star && starts_with " " t).
      * rewrite avoids_app, Ho. now apply IH.
      * cbn [avoids]. rewrite Hpc. now apply IH.
    + cbn [avoids]. rewrite Hpc. now apply IH.
    + now apply IH.
    + destruct (is_line_terminator c).
      * rewrite avoids_app, Hc. cbn [avoids andb]. rewrite Hpc. now apply IH.
      * cbn [avoids]. rewrite Hpc. now apply IH.
Qed.

End MarkupFacts.

Section MarkupMore.

Lemma avoids_ext p q s :
  (forall c, p c = q c) -> avoids p s = avoids q s.
Proof.
  intros H. induction s as [|c t IH]; simpl; [reflexivity|]. now rewrite H, IH.
Qed.

Lemma avoids_none s : avoids (fun _ => false) s = true.
Proof. induction s as [|c t IH]; simpl; [reflexivity | exact IH]. Qed.

Lemma avoids_weaken (p q : ascii -> bool) s :
  (forall c, q c = true -> p c = true) -> avoids p s = true -> avoids q s = true.
Proof.
  intros H. induction s as [|c t IH]; simpl; [reflexivity|].
  intros Hs. apply andb_prop in Hs as [Hc Ht]. rewrite (IH Ht), andb_true_r.
  destruct (q c) eqn:E; [|reflexivity]. rewrite (H c E) in Hc. discriminate.
Qed.

Lemma replace_newlines_plain s : no_line_feed s = true -> replace_newlines s = s.
Proof.
  unfold no_line_feed. induction s as [|c t IH]; simpl; [reflexivity|].
  intros H. apply andb_prop in H as [Hc Ht]. apply negb_true_iff in Hc.
  now rewrite Hc, IH.
Qed.

Lemma replace_bold_plain s :
  avoids (fun c => Ascii.eqb c star) s = true -> replace_bold 0 s = s.
Proof.
  induction s as [|c t IH]; [reflexivity|]. cbn [avoids replace_bold].
  intros H. apply andb_prop in H as [Hc Ht]. apply negb_true_iff in Hc.
  rewrite Hc. cbn [andb]. destruct t as [|c' t']; [reflexivity|]. now rewrite IH.
Qed.

Lemma replace_bullets_plain s :
  avoids (fun c => Ascii.eqb c star) s = true ->
  forall st, st = LineStart \/ st = Inside -> replace_bullets st s = s.
Proof.
  induction s as [|c t IH]; intros H st Hst.
  - now destruct Hst as [-> | ->].
  - cbn [avoids] in H. apply andb_prop in H as [Hc Ht]. apply negb_true_iff in Hc.
    assert (Hn : next_line_state c = LineStart \/ next_line_state c = Inside)
      by (unfold next_line_state; destruct (is_line_terminator c); auto).
    destruct Hst as [-> | ->]; cbn [replace_bullets]; rewrite ?Hc; cbn [andb];
      now rewrite (IH Ht _ Hn).
Qed.

(** Inside a line without terminators, nothing is a bullet. *)
Lemma replace_bullets_inside s :
  no_line_terminator s = true -> replace_bullets Inside s = s.
Proof.
  unfold no_line_terminator. induction s as [|c t IH]; [reflexivity|].
  cbn [avoids replace_bullets]. intros H. apply andb_prop in H as [Hc Ht].
  apply negb_true_iff in Hc. unfold next_line_state. now rewrite Hc, IH.
Qed.

(** The group of a bullet that no line terminator ends runs to the end
    of the string. *)
Lemma replace_bullets_item s :
  no_line_terminator s = true -> replace_bullets InItem s = (s ++ span_close)%string.
Proof.
  unfold no_line_terminator. induction s as [|c t IH]; [reflexivity|].
  cbn [avoids replace_bullets]. intros H. apply andb_prop in H as [Hc Ht].
  apply negb_true_iff in Hc. rewrite Hc, IH by exact Ht. reflexivity.
Qed.

Lemma replace_bullets_one_line s :
  no_line_terminator s = true ->
  replace_bullets LineStart s
  = if bullet_first s then (span_open ++ after_bullet s ++ span_close)%string else s.
Proof.
  intros H. destruct s as [|c t]; [reflexivity|].
  cbn [replace_bullets bullet_first].
  unfold no_line_terminator in H. cbn [avoids] in H.
  apply andb_prop in H as [Hc Ht]. apply negb_true_iff in Hc.
  destruct (Ascii.eqb c star && starts_with " " t) eqn:E.
  - destruct t as [|c' t']; [now rewrite andb_false_r in E|].
    cbn [replace_bullets after_bullet].
    cbn [avoids] in Ht. apply andb_prop in Ht as [_ Ht'].
    now rewrite (replace_bullets_item t' Ht').
  - unfold next_line_state. rewrite Hc. now rewrite (replace_bullets_inside t Ht).
Qed.

End MarkupMore.

(** X18. The markup of an answer has no line feed: every line feed of
    the answer became a line-break element, and the other two
    replacements bring none in. *)
Theorem answer_html_has_no_line_feed answer :
  no_line_feed (answer_html answer) = true.
Proof.
  unfold no_line_feed, answer_html.
  apply replace_bullets_avoids; try reflexivity.
  apply replace_bold_avoids; try reflexivity.
  apply replace_newlines_avoids; [reflexivity|].
  rewrite (avoids_ext _ (fun _ => false)); [apply avoids_none|].
  intros c. apply andb_negb_r.
Qed.

(** X19. An answer without line feeds and stars is handed to the page
    as it is: nothing of it is escaped, so markup inside the answer
    reaches [dangerouslySetInnerHTML] unchanged. *)
Theorem plain_answer_is_not_escaped answer :
  plain answer = true -> answer_html answer = answer.
Proof.
  intros H. unfold answer_html, plain in *.
  assert (Hlf : no_line_feed answer = true).
  { unfold no_line_feed. apply (avoids_weaken _ _ _ (fun c E => orb_true_intro _ _ (or_introl E)) H). }
  assert (Hst : avoids (fun c => Ascii.eqb c star) answer = true).
  { apply (avoids_weaken _ _ _ (fun c E => orb_true_intro _ _ (or_intror E)) H). }
  rewrite (replace_newlines_plain _ Hlf), (replace_bold_plain _ Hst).
  apply replace_bullets_plain; auto.
Qed.

Lemma plain_answer_is_not_escaped_witness :
  answer_html "<img src=x onerror=alert(1)> & <b>bold</b>"
  = "<img src=x onerror=alert(1)> & <b>bold</b>".
Proof.
  apply (plain_answer_is_not_escaped "<img src=x onerror=alert(1)> & <b>bold</b>").
  reflexivity.
Defined.

(** X20. In an answer without carriage returns at most one bullet is
    ever marked up, and only at the very beginning: the line feeds are
    replaced before the bullets are looked for, so a star after a line
    break is no longer at the start of a line, and a bullet at the
    beginning takes all the rest of the answer as its text. *)
Theorem only_the_first_bullet_is_marked answer :
  no_carriage_return answer = true ->
  let u := replace_bold 0 (replace_newlines answer) in
  answer_html answer
  = if bullet_first u then (span_open ++ after_bullet u ++ span_close)%string else u.
Proof.
  intros H u. subst u. unfold answer_html.
  apply replace_bullets_one_line. unfold no_line_terminator.
  apply replace_bold_avoids; try reflexivity.
  apply replace_newlines_avoids; [reflexivity|].
  unfold no_carriage_return in H.
  rewrite (avoids_ext _ (fun c => Ascii.eqb c CR)); [exact H|].
  intros c. destruct c as [[] [] [] [] [] [] [] []]; reflexivity.
Qed.

Lemma only_the_first_bullet_is_marked_witness :
  let answer := ("Steps:" ++ String LF "* first" ++ String LF "* second")%string in
  let u := replace_bold 0 (replace_newlines answer) in
  answer_html answer
  = if bullet_first u then (span_open ++ after_bullet u ++ span_close)%string else u.
Proof.
  apply (only_the_first_bullet_is_marked
           ("Steps:" ++ String LF "* first" ++ String LF "* second")%string).
  reflexivity.
Defined.

Example bullets_ex :
  answer_html ("Steps:" ++ String LF "* first" ++ String LF "* second")%string
  = "Steps:<br />* first<br />* second"
  /\ answer_html ("* first" ++ String LF "* second")%string
     = (span_open ++ "first<br />* second" ++ span_close)%string.
Proof. split; reflexivity. Qed.
